(** * airtable-plus: configuration merge and batch orchestration

    A shallow embedding of the class of [lib/AirtablePlus.js] that batches
    its writes (source lines 463-1044: [constructor], [_mergeConfig],
    [_chunkData], [_handleBatch] and the operations built on them), with the
    properties of its configuration merge, chunking, batch dispatch, [read]
    and [upsert]; then further properties of the same class: the requests
    each method sends and their order, what the bulk methods and the table
    copies carry, the instances [new] and [use] build, and the column
    filter next to the one of the older class (source lines 456-459). *)

From Stdlib Require Import ZArith List Ascii String.
From stdpp Require Import gmap strings list pretty.

Open Scope string_scope.
Open Scope list_scope.
Set Warnings "-register-all".

(** ** JavaScript values *)

(** Configuration objects are written to by the code ([config.transform =
    undefined], [cfg.base = ...]) and are passed around by reference: they
    live in a heap and a value refers to them with [VRef].  Record data and
    arrays are only read and copied by the code; they are plain values.
    Numbers are the integers (no NaN, no fractions). *)
Inductive value : Type :=
| VUndefined
| VNull
| VBool (b : bool)
| VNum (n : Z)
| VStr (s : string)
| VFun (f : nat)                         (* a function, by identity *)
| VBase (h : nat)                        (* an SDK base functor, by identity *)
| VRef (l : nat)                         (* a heap object, by address *)
| VArr (items : list value)
| VObj (props : list (string * value))   (* a data object, keys distinct *)
| VRich (raw : value).                   (* an SDK Record wrapping its _rawJson *)

Section value_induction.
Variable P : value -> Prop.
Hypothesis Hundef : P VUndefined.
Hypothesis Hnull : P VNull.
Hypothesis Hbool : forall b, P (VBool b).
Hypothesis Hnum : forall n, P (VNum n).
Hypothesis Hstr : forall s, P (VStr s).
Hypothesis Hfun : forall f, P (VFun f).
Hypothesis Hbase : forall h, P (VBase h).
Hypothesis Href : forall l, P (VRef l).
Hypothesis Harr : forall items, Forall P items -> P (VArr items).
Hypothesis Hobj : forall props, Forall (fun kv => P (snd kv)) props -> P (VObj props).
Hypothesis Hrich : forall raw, P raw -> P (VRich raw).

Fixpoint value_nested_ind (v : value) : P v :=
  match v with
  | VUndefined => Hundef
  | VNull => Hnull
  | VBool b => Hbool b
  | VNum n => Hnum n
  | VStr s => Hstr s
  | VFun f => Hfun f
  | VBase h => Hbase h
  | VRef l => Href l
  | VArr items =>
      Harr items
        ((fix go (l : list value) : Forall P l :=
            match l with
            | [] => @List.Forall_nil _ P
            | x :: l' => @List.Forall_cons _ P x l' (value_nested_ind x) (go l')
            end) items)
  | VObj props =>
      Hobj props
        ((fix go (l : list (string * value)) : Forall (fun kv => P (snd kv)) l :=
            match l with
            | [] => @List.Forall_nil _ _
            | kv :: l' => @List.Forall_cons _ _ kv l' (value_nested_ind (snd kv)) (go l')
            end) props)
  | VRich raw => Hrich raw (value_nested_ind raw)
  end.
End value_induction.

(** [===] on the modelled values: by value on primitives, by identity on
    functions, handles and heap objects, structural on data. *)
Fixpoint value_eqb (a b : value) : bool :=
  match a, b with
  | VUndefined, VUndefined => true
  | VNull, VNull => true
  | VBool x, VBool y => Bool.eqb x y
  | VNum x, VNum y => Z.eqb x y
  | VStr x, VStr y => String.eqb x y
  | VFun x, VFun y => Nat.eqb x y
  | VBase x, VBase y => Nat.eqb x y
  | VRef x, VRef y => Nat.eqb x y
  | VArr xs, VArr ys =>
      (fix go (l1 l2 : list value) : bool :=
         match l1, l2 with
         | [], [] => true
         | x :: l1', y :: l2' => value_eqb x y && go l1' l2'
         | _, _ => false
         end) xs ys
  | VObj ps, VObj qs =>
      (fix go (l1 l2 : list (string * value)) : bool :=
         match l1, l2 with
         | [], [] => true
         | (k1, x) :: l1', (k2, y) :: l2' =>
             String.eqb k1 k2 && value_eqb x y && go l1' l2'
         | _, _ => false
         end) ps qs
  | VRich x, VRich y => value_eqb x y
  | _, _ => false
  end.

Definition strict_eq (a b : value) : bool := value_eqb a b.

(** [!!v] *)
Definition truthy (v : value) : bool :=
  match v with
  | VUndefined | VNull => false
  | VBool b => b
  | VNum n => negb (Z.eqb n 0)
  | VStr s => negb (String.eqb s "")
  | _ => true
  end.

(** [typeof v] *)
Definition typeof (v : value) : string :=
  match v with
  | VUndefined => "undefined"
  | VBool _ => "boolean"
  | VNum _ => "number"
  | VStr _ => "string"
  | VFun _ | VBase _ => "function"
  | VNull | VRef _ | VArr _ | VObj _ | VRich _ => "object"
  end.

Definition is_function (v : value) : bool := String.eqb (typeof v) "function".

(** [Array.isArray(v)] *)
Definition isArray (v : value) : bool :=
  match v with VArr _ => true | _ => false end.

(** First binding of a key in a data object. *)
Fixpoint assoc (k : string) (props : list (string * value)) : option value :=
  match props with
  | [] => None
  | (k', x) :: rest => if String.eqb k k' then Some x else assoc k rest
  end.

(** ** The world: heap, minted handles, the SDK's static key, the requests *)

Inductive verb := Select | Find | Create | Update | Replace | Destroy.

(** One request to the record store: [base(table).verb(args...)], with the
    credential and container the handle was minted for. *)
Record call := Call {
  c_key : value;
  c_container : value;
  c_table : value;
  c_verb : verb;
  c_args : list value;
}.

Inductive exn := Throw (msg : string).

Record world := World {
  heap : list (gmap string value);   (* objects, by address *)
  bases : list (value * value);      (* minted handles: credential, container *)
  apiKey : value;                    (* Airtable.apiKey *)
  trace : list call;                 (* requests sent so far, oldest first *)
}.

Definition set_heap (h : list (gmap string value)) (w : world) : world :=
  World h (bases w) (apiKey w) (trace w).
Definition set_bases (b : list (value * value)) (w : world) : world :=
  World (heap w) b (apiKey w) (trace w).
Definition set_apiKey (k : value) (w : world) : world :=
  World (heap w) (bases w) k (trace w).
Definition set_trace (t : list call) (w : world) : world :=
  World (heap w) (bases w) (apiKey w) t.

(** What the code cannot see into: the process environment, the engine's
    rendering of numbers and functions in a template literal, the
    [camelcase-keys] package, the bodies of caller functions (pure, as the
    data model has [transform]) and the record store behind the SDK, which
    answers a request knowing the requests before it. *)
Record host := Host {
  AIRTABLE_API_KEY : value;
  AIRTABLE_BASE_ID : value;
  AIRTABLE_TABLE_NAME : value;
  render : value -> string;
  camelcaseKeys : list value -> list value;
  call_fun : nat -> value -> value;
  remote : list call -> call -> exn + value;
}.

(** ** Computations: state passing with exceptions

    A thrown exception and a rejected promise are both [inl]; the writes made
    before the throw stay. *)
Definition M (A : Type) : Type := world -> world * (exn + A).

Definition ret {A} (a : A) : M A := fun w => (w, inr a).
Definition throw {A} (msg : string) : M A := fun w => (w, inl (Throw msg)).
Definition bind {A B} (m : M A) (k : A -> M B) : M B :=
  fun w => match m w with
           | (w1, inl e) => (w1, inl e)
           | (w1, inr a) => k a w1
           end.
Definition get_world : M world := fun w => (w, inr w).
Definition modify (f : world -> world) : M unit := fun w => (f w, inr tt).

Notation "x <- m ;; k" := (bind m (fun x => k))
  (at level 100, m at level 99, k at level 100, right associativity).
Notation "m ;;; k" := (bind m (fun _ => k))
  (at level 100, k at level 100, right associativity).

(** One computation per element, left to right; the first throw ends it. *)
Fixpoint mapM {A B} (worker : A -> M B) (input : list A) : M (list B) :=
  match input with
  | [] => ret []
  | first :: others =>
      answer <- worker first ;;
      answers <- mapM worker others ;;
      ret (answer :: answers)
  end.

(** ** Property access *)

(** Own enumerable properties, as a spread [{...v}] copies them.  A Record's
    [_table] is an SDK object the model has no value for, and a string's
    characters are not modelled. *)
Definition own_props (w : world) (v : value) : gmap string value :=
  match v with
  | VRef l => default ∅ (heap w !! l)
  | VObj props => list_to_map props
  | VArr items => list_to_map (imap (fun i x => (pretty i, x)) items)
  | VRich raw =>
      list_to_map
        [("id", match raw with VObj p => default VUndefined (assoc "id" p) | _ => VUndefined end);
         ("_rawJson", raw);
         ("fields", match raw with VObj p => default (VObj []) (assoc "fields" p) | _ => VObj [] end)]
  | _ => ∅
  end.

(** [v.k] and [v[k]]: a TypeError on [undefined] and [null].  The
    properties of primitives (a string's length and characters) are not
    modelled: they read as [undefined]. *)
Definition get_prop (v : value) (k : string) : M value :=
  fun w =>
    match v with
    | VUndefined | VNull => (w, inl (Throw "TypeError: cannot read property"))
    | VArr items =>
        (w, inr (if String.eqb k "length" then VNum (Z.of_nat (length items))
                 else default VUndefined (own_props w v !! k)))
    | _ => (w, inr (default VUndefined (own_props w v !! k)))
    end.

(** [v.k = x] in strict mode: a write to a heap object; a TypeError on
    [undefined], [null] and primitives.  Data values and functions have no
    identity in the model, so a write to one of them is not seen again. *)
Definition set_prop (v : value) (k : string) (x : value) : M unit :=
  fun w =>
    match v with
    | VUndefined | VNull | VBool _ | VNum _ | VStr _ =>
        (w, inl (Throw "TypeError: cannot set property"))
    | VRef l =>
        (set_heap (alter (fun o => <[k := x]> o) l (heap w)) w, inr tt)
    | _ => (w, inr tt)
    end.

(** A fresh object holding [o]; its address is the answer. *)
Definition alloc (o : gmap string value) : M nat :=
  fun w => (set_heap (heap w ++ [o]) w, inr (length (heap w))).

Section AirtablePlus.
Variable H : host.

(** *** The SDK's handles

    The credential of [new Airtable()]: [Airtable.apiKey], or else the
    environment's. *)
Definition effective_key (k : value) : value :=
  if truthy k then k else AIRTABLE_API_KEY H.

(** Modelled from the spec: the airtable SDK is a dependency whose code is
    not under src/.  Section 6: [connect(credential, containerID)] answers a
    handle bound to that pair.  [Airtable.base(baseId)] is
    [new Airtable().base(baseId)]: the credential is the static
    [Airtable.apiKey], or else the environment's, and without one the SDK
    throws. *)
Definition Airtable_base (baseId : value) : M value :=
  fun w =>
    let key := effective_key (apiKey w) in
    if truthy key
    then (set_bases (bases w ++ [(key, baseId)]) w, inr (VBase (length (bases w))))
    else (w, inl (Throw "An API key is required to connect to Airtable")).

(** Modelled from the spec: [base.getId()] of the SDK, the container the
    handle is bound to (section 3, Connection Handle).  Only SDK handles
    carry it. *)
Definition getId (base : value) : M value :=
  fun w =>
    match base with
    | VBase h =>
        match bases w !! h with
        | Some (_, container) => (w, inr container)
        | None => (w, inl (Throw "TypeError: base.getId is not a function"))
        end
    | _ => (w, inl (Throw "TypeError: base.getId is not a function"))
    end.

(** [this.config] *)
Definition this_config (this : nat) (w : world) : value :=
  default VUndefined (default ∅ (heap w !! this) !! "config").

Definition field (cfg : gmap string value) (k : string) : value :=
  default VUndefined (cfg !! k).

(** The override of a call and the write to the caller's object
    (source lines 976-982). *)
Definition override_of (config : value) : M (gmap string value) :=
  if String.eqb (typeof config) "string" then ret {[ "tableName" := config ]}
  else if String.eqb (typeof config) "object" then
    t <- get_prop config "transform" ;;
    if is_function t
    then w <- get_world ;; ret (own_props w config)
    else
      set_prop config "transform" VUndefined ;;;
      w <- get_world ;;
      ret (<["transform" := VUndefined]> (own_props w config))
  else ret ∅.

(** Source lines 986-991, on the property map of the local [cfg]. *)
Definition resolve_base (cfg : gmap string value) : M (gmap string value) :=
  w <- get_world ;;
  cfg1 <- (if negb (strict_eq (field cfg "apiKey") (apiKey w))
           then
             modify (set_apiKey (field cfg "apiKey")) ;;;
             b <- Airtable_base (field cfg "baseID") ;;
             ret (<["base" := b]> cfg)
           else ret cfg) ;;
  stale <- (if negb (truthy (field cfg1 "base")) then ret true
            else id <- getId (field cfg1 "base") ;;
                 ret (negb (strict_eq (field cfg1 "baseID") id))) ;;
  if stale : bool
  then b <- Airtable_base (field cfg1 "baseID") ;; ret (<["base" := b]> cfg1)
  else ret cfg1.

Definition _mergeConfig (this : nat) (config : value) : M value :=
  if negb (truthy config) then w <- get_world ;; ret (this_config this w)
  else
    override <- override_of config ;;
    w <- get_world ;;
    (* { ...this.config, ...override } *)
    cfg <- resolve_base (override ∪ own_props w (this_config this w)) ;;
    l <- alloc cfg ;;
    ret (VRef l).

Definition defaults : gmap string value :=
  list_to_map
    [("apiKey", AIRTABLE_API_KEY H);
     ("baseID", AIRTABLE_BASE_ID H);
     ("tableName", AIRTABLE_TABLE_NAME H);
     ("camelCase", VBool false);
     ("complex", VBool false);
     ("concurrency", VNum 1);
     ("typecast", VBool false)].

(** [new AirtablePlus(config)]: the answer is the instance's address. *)
Definition constructor (config : value) : M nat :=
  this <- alloc ∅ ;;
  w <- get_world ;;
  literal <- alloc (own_props w config ∪ defaults) ;;
  cfg <- _mergeConfig this (VRef literal) ;;
  set_prop (VRef this) "config" cfg ;;;
  ret this.

(** *** Chunking and batch dispatch *)

(** [collection.slice(start, stop)] *)
Definition slice {A} (start stop : nat) (collection : list A) : list A :=
  take (stop - start) (drop start collection).

(** Modelled from the spec: the [chunk] package is a dependency whose code
    is not under src/.  Section 4.3: consecutive chunks of exactly [size]
    items except the final one, which holds the remainder, order kept.
    Written the way the package does it: one slice per index below
    [ceil(length / size)]. *)
Definition chunk {A} (collection : list A) (size : nat) : list (list A) :=
  map (fun x => slice (x * size) (x * size + size) collection)
      (seq 0 ((length collection + size - 1) / size)).

Definition _chunkData (data : value) : list (list value) :=
  match data with
  | VArr items => if (10 <? length items)%nat then chunk items 10 else [items]
  | _ => [[data]]
  end.

(** Modelled from the spec: part of [p-map], a dependency whose code is
    not under src/.  Section 4.4: when a chunk's worker fails, the sibling
    chunks in flight are not cancelled and their results are discarded.
    These are their mappers: what they send is sent, what they answer is
    dropped. *)
Fixpoint in_flight {A B} (mapper : A -> M B) (siblings : nat) (input : list A)
  : M unit :=
  match siblings, input with
  | S fewer, first :: others =>
      fun w => in_flight mapper fewer others (fst (mapper first w))
  | _, _ => ret tt
  end.

(** Modelled from the spec: part of [p-map], a dependency whose code is
    not under src/.  Section 4.4: the chunks are dispatched in input order
    and the first failure fails the whole map; [siblings] other chunks are
    in flight beside the one whose answer is awaited. *)
Fixpoint dispatch {A B} (mapper : A -> M B) (siblings : nat) (input : list A)
  : M (list B) :=
  match input with
  | [] => ret []
  | first :: others =>
      fun w =>
        match mapper first w with
        | (w1, inr answer) =>
            (answers <- dispatch mapper siblings others ;; ret (answer :: answers)) w1
        | (w1, inl e) => (fst (in_flight mapper siblings others w1), inl e)
        end
  end.

(** Modelled from the spec: [p-map] is a dependency whose code is not
    under src/.  Section 4.4: [concurrency] is a positive integer, and the
    package refuses anything else; an ordered map, dispatch and output in
    input order with at most [concurrency] chunks in flight; the first
    failure fails the whole map, the siblings in flight are not cancelled
    and their results are discarded.  Completion order is the store's
    affair: the model runs the schedule in which the answers arrive in
    dispatch order, so the chunks in flight beside a failing one are the
    next [concurrency - 1]. *)
Definition pMap {A B} (input : list A) (mapper : A -> M B) (concurrency : value)
  : M (list B) :=
  match concurrency with
  | VNum n =>
      if (1 <=? n)%Z then dispatch mapper (Z.to_nat (n - 1)) input
      else throw "TypeError: Expected `concurrency` to be a number from 1 and up"
  | _ => throw "TypeError: Expected `concurrency` to be a number from 1 and up"
  end.

(** Modelled from the spec: [array-flatten] is a dependency whose code is
    not under src/.  Section 4.4: the per-chunk result sequences become one
    flat sequence, chunk order then within-chunk order.  The package
    flattens nested arrays at every depth. *)
Fixpoint flatten_value (v : value) : list value :=
  match v with
  | VArr items => flat_map flatten_value items
  | _ => [v]
  end.

Definition flatten (array : list value) : list value :=
  flat_map flatten_value array.

Definition _handleBatch (data config : value) (iterator : list value -> M value)
  : M value :=
  concurrency <- get_prop config "concurrency" ;;
  let data := _chunkData data in
  res <- pMap data iterator concurrency ;;
  let res := flatten res in
  ret (if (1 <? length res)%nat then VArr res else nth 0 res VUndefined).

(** *** Requests to the record store *)

(** [base(table).verb(args...)], awaited: the request joins the trace and
    the store answers it.  Calling what is not an SDK handle is a
    TypeError. *)
Definition request (base table : value) (v : verb) (args : list value) : M value :=
  fun w =>
    match base with
    | VBase h =>
        match bases w !! h with
        | Some (key, container) =>
            let c := Call key container table v args in
            (set_trace (trace w ++ [c]) w, remote H (trace w) c)
        | None => (w, inl (Throw "TypeError: base is not a function"))
        end
    | _ => (w, inl (Throw "TypeError: base is not a function"))
    end.

(** [this._throttle(fn)]: [fn] is run; when it starts is not modelled. *)
Definition _throttle {A} (fn : M A) : M A := fn.

(** [records.map(f)] as a list. *)
Definition array_map (f : value -> M value) (records : value) : M (list value) :=
  match records with
  | VArr items => mapM f items
  | _ => throw "TypeError: records.map is not a function"
  end.

(** [complex? record : record._rawJson] *)
Definition shape (complex record : value) : M value :=
  if truthy complex then ret record else get_prop record "_rawJson".

(** [typecast? { typecast } : undefined] *)
Definition typecast_params (typecast : value) : value :=
  if truthy typecast then VObj [("typecast", typecast)] else VUndefined.

(** [!data || (Array.isArray(data) && !data.length)] *)
Definition empty_data (data : value) : bool :=
  negb (truthy data) ||
  match data with
  | VArr items => negb (truthy (VNum (Z.of_nat (length items))))
  | _ => false
  end.

Definition create (this : nat) (data config : value) : M value :=
  if empty_data data then throw "data object empty"
  else
    cfg <- _mergeConfig this config ;;
    tableName <- get_prop cfg "tableName" ;;
    base <- get_prop cfg "base" ;;
    complex <- get_prop cfg "complex" ;;
    typecast <- get_prop cfg "typecast" ;;
    let params := typecast_params typecast in
    _handleBatch data cfg (fun items =>
      records <- _throttle (request base tableName Create [VArr items; params]) ;;
      mapped <- array_map (shape complex) records ;;
      ret (VArr mapped)).

(** [{ ...el }] *)
Definition spread (w : world) (el : value) : value :=
  match el with
  | VObj props => VObj props
  | _ => VObj (map_to_list (own_props w el))
  end.

(** Source lines 596-602, on the list of shaped records.  The effective
    transform is a caller function or [undefined] (line 980 and the
    constructor see to it); calling anything else on a record is a
    TypeError. *)
Definition read_post (w : world) (camelCase transform : value) (records : list value)
  : exn + list value :=
  let records := if truthy camelCase then camelcaseKeys H records else records in
  if truthy transform then
    match transform, records with
    | VFun f, _ =>
        let transformed :=
          List.filter truthy (map (fun el => call_fun H f (spread w el)) records) in
        let records := if (0 <? length transformed)%nat then transformed else records in
        inr (List.filter truthy records)
    | _, [] => inr []
    | _, _ :: _ => inl (Throw "TypeError: transform is not a function")
    end
  else inr (List.filter truthy records).

Definition read (this : nat) (params config : value) : M value :=
  cfg <- _mergeConfig this config ;;
  tableName <- get_prop cfg "tableName" ;;
  camelCase <- get_prop cfg "camelCase" ;;
  transform <- get_prop cfg "transform" ;;
  complex <- get_prop cfg "complex" ;;
  base <- get_prop cfg "base" ;;
  let is_name := String.eqb (typeof params) "string" in
  let tableName := if is_name then params else tableName in
  let params := if is_name then VObj [] else params in
  records <- _throttle (request base tableName Select
                          [if truthy params then params else VObj []]) ;;
  records <- array_map (shape complex) records ;;
  w <- get_world ;;
  match read_post w camelCase transform records with
  | inl (Throw msg) => throw msg
  | inr records => ret (VArr records)
  end.

(** [update] and [replace] differ in the SDK method they call and in
    nothing else: [method] is [Update] or [Replace]. *)
Definition update_or_replace (method : verb) (this : nat) (rowID data config : value)
  : M value :=
  let _batch := isArray rowID in
  let config := if _batch then data else config in
  let data := if _batch then rowID else data in
  cfg <- _mergeConfig this config ;;
  tableName <- get_prop cfg "tableName" ;;
  base <- get_prop cfg "base" ;;
  complex <- get_prop cfg "complex" ;;
  typecast <- get_prop cfg "typecast" ;;
  let params := typecast_params typecast in
  if _batch then
    _handleBatch data config (fun items =>
      records <- _throttle (request base tableName method [VArr items; params]) ;;
      mapped <- array_map (shape complex) records ;;
      ret (VArr mapped))
  else
    record <- _throttle (request base tableName method [rowID; data; params]) ;;
    shape complex record.

Definition update := update_or_replace Update.
Definition replace := update_or_replace Replace.

Definition find (this : nat) (rowID config : value) : M value :=
  cfg <- _mergeConfig this config ;;
  tableName <- get_prop cfg "tableName" ;;
  complex <- get_prop cfg "complex" ;;
  base <- get_prop cfg "base" ;;
  record <- _throttle (request base tableName Find [rowID]) ;;
  shape complex record.

(** The worker [create], [update] and [replace] hand to [_handleBatch],
    by name. *)
Definition batch_worker (method : verb) (base tableName complex params : value)
  (items : list value) : M value :=
  records <- _throttle (request base tableName method [VArr items; params]) ;;
  mapped <- array_map (shape complex) records ;;
  ret (VArr mapped).

(** The items of a batch request. *)
Definition items_of (c : call) : list value :=
  match c_args c with
  | VArr items :: _ => items
  | _ => []
  end.

Definition delete (this : nat) (rowID config : value) : M value :=
  cfg <- _mergeConfig this config ;;
  tableName <- get_prop cfg "tableName" ;;
  base <- get_prop cfg "base" ;;
  complex <- get_prop cfg "complex" ;;
  _handleBatch rowID cfg (fun items =>
    records <- _throttle (request base tableName Destroy [VArr items]) ;;
    mapped <- array_map (fun record =>
                if truthy complex then ret record
                else id <- get_prop record "id" ;;
                     ret (VObj [("id", id); ("fields", VObj []); ("createdTime", VNull)]))
              records ;;
    ret (VArr mapped)).

(** *** Filter formulas and upsert *)

(** A template literal's rendering of a value. *)
Definition to_string (v : value) : string :=
  match v with
  | VUndefined => "undefined"
  | VNull => "null"
  | VBool b => if b then "true" else "false"
  | VStr s => s
  | VRef _ | VObj _ | VRich _ => "[object Object]"
  | VNum _ | VFun _ | VBase _ | VArr _ => render H v
  end.

(** The characters [\s] matches among the code units below 256. *)
Definition is_space (c : ascii) : bool :=
  match nat_of_ascii c with
  | 9 | 10 | 11 | 12 | 13 | 32 | 160 => true
  | _ => false
  end.

Fixpoint has_space (s : string) : bool :=
  match s with
  | EmptyString => false
  | String c rest => is_space c || has_space rest
  end.

Definition _formatColumnFilter (columnName : value) : string :=
  let columnName := match columnName with VUndefined => VStr "" | v => v end in
  let columnName := to_string columnName in
  if has_space columnName then "{" +:+ columnName +:+ "}" else columnName.

Definition dquote : string := String (ascii_of_nat 34) EmptyString.

(** Source lines 943-949. *)
Definition format_data (formattedData : value) : string :=
  match formattedData with
  | VStr s => dquote +:+ s +:+ dquote
  | VBool b => if b then "TRUE" else "FALSE"
  | v => to_string v
  end.

(** [rec.getId()] *)
Definition record_getId (rec : value) : M value :=
  match rec with
  | VRich _ => get_prop rec "id"
  | _ => throw "TypeError: rec.getId is not a function"
  end.

(** [cfg.complex? rec.getId() : rec.id] *)
Definition row_id (cfg rec : value) : M value :=
  complex <- get_prop cfg "complex" ;;
  if truthy complex then record_getId rec else get_prop rec "id".

(** [{ id: cfg.complex? rec.getId() : rec.id, fields: data }] *)
Definition id_and_fields (cfg data rec : value) : M value :=
  id <- row_id cfg rec ;;
  ret (VObj [("id", id); ("fields", data)]).

Definition upsert (this : nat) (key data config : value) : M value :=
  if negb (truthy key) || negb (truthy data)
  then throw "Key and data are required"
  else
    cfg <- _mergeConfig this config ;;
    formattedData <- get_prop data (to_string key) ;;
    rows <- read this
              (VObj [("filterByFormula",
                      VStr (_formatColumnFilter key +:+ " = " +:+ format_data formattedData))])
              cfg ;;
    match rows with
    | VArr [] => create this data cfg
    | _ =>
        records <- array_map (id_and_fields cfg data) rows ;;
        update this (VArr records) cfg VUndefined
    end.

(** [updateWhere] and [replaceWhere], which differ as [update] and
    [replace] do. *)
Definition update_or_replace_where (method : verb) (this : nat)
  (where_ data config : value) : M value :=
  cfg <- _mergeConfig this config ;;
  rows <- read this (VObj [("filterByFormula", where_)]) cfg ;;
  records <- array_map (id_and_fields cfg data) rows ;;
  update_or_replace method this (VArr records) cfg VUndefined.

Definition updateWhere := update_or_replace_where Update.
Definition replaceWhere := update_or_replace_where Replace.

Definition deleteWhere (this : nat) (where_ config : value) : M value :=
  cfg <- _mergeConfig this config ;;
  rows <- read this (VObj [("filterByFormula", where_)]) cfg ;;
  rowIds <- array_map (row_id cfg) rows ;;
  delete this (VArr rowIds) cfg.

Definition truncate (this : nat) (config : value) : M value :=
  cfg <- _mergeConfig this config ;;
  rows <- read this (VObj []) cfg ;;
  rowIds <- array_map (row_id cfg) rows ;;
  delete this (VArr rowIds) cfg.

(** *** Instances for other bases and table copies *)

(** [typeof cfg === 'string'? { tableName: cfg } : cfg]: the literal is a
    new object. *)
Definition table_shorthand (cfg : value) : M value :=
  if String.eqb (typeof cfg) "string"
  then l <- alloc {[ "tableName" := cfg ]} ;; ret (VRef l)
  else ret cfg.

(** [use(baseID, config = {})]: the default is a new object; the write of
    line 533 lands on the caller's object when there is one. *)
Definition use (this : nat) (baseID config : value) : M nat :=
  config <- (match config with
             | VUndefined => l <- alloc ∅ ;; ret (VRef l)
             | _ => ret config
             end) ;;
  set_prop config "baseID" baseID ;;;
  cfg <- _mergeConfig this config ;;
  constructor cfg.

Definition appendTable (this : nat) (sourceCfg destCfg : value) : M value :=
  sourceCfg <- table_shorthand sourceCfg ;;
  destCfg <- table_shorthand destCfg ;;
  where_ <- get_prop sourceCfg "where" ;;
  fields <- get_prop sourceCfg "fields" ;;
  rows <- read this
            (VObj [("filterByFormula", if truthy where_ then where_ else VStr "");
                   ("fields", if truthy fields then fields else VArr [])])
            sourceCfg ;;
  records <- array_map (fun rec => get_prop rec "fields") rows ;;
  create this (VArr records) destCfg.

Definition overwriteTable (this : nat) (sourceCfg destCfg : value) : M value :=
  destCfg <- table_shorthand destCfg ;;
  truncate this destCfg ;;;
  appendTable this sourceCfg destCfg.

End AirtablePlus.

(** ** The column filter of the class without batching

    Source lines 456-459: the name is wrapped when splitting it at spaces
    gives more than one piece. *)
Module V1.

(** [s.split(sep)] for a separator of one character. *)
Fixpoint split (sep : ascii) (s : string) : list string :=
  match s with
  | EmptyString => [EmptyString]
  | String c rest =>
      if Ascii.eqb c sep then EmptyString :: split sep rest
      else match split sep rest with
           | piece :: pieces => String c piece :: pieces
           | [] => [String c EmptyString]
           end
  end.

Definition _formatColumnFilter (H : host) (columnName : value) : string :=
  let columnName := match columnName with VUndefined => VStr "" | v => v end in
  let columnName := "" +:+ to_string H columnName in
  if (1 <? length (split " " columnName))%nat
  then "{" +:+ columnName +:+ "}" else columnName.

End V1.

(** ** A store for the examples *)

(** The Record the store answers for one item of a write. *)
Definition demo_record (item : value) : value :=
  match item with
  | VObj (("id", i) :: ("fields", f) :: _) =>
      VRich (VObj [("id", i); ("fields", f); ("createdTime", VStr "2020-01-01")])
  | VStr i =>
      VRich (VObj [("id", VStr i); ("fields", VObj []); ("createdTime", VStr "2020-01-01")])
  | fields =>
      VRich (VObj [("id", VStr "recNew"); ("fields", fields);
                   ("createdTime", VStr "2020-01-01")])
  end.

(** A store that answers [rows] to every select and one Record per item to
    every write. *)
Definition demo_remote (rows : value) (history : list call) (c : call) : exn + value :=
  match c_verb c, c_args c with
  | Select, _ => inr rows
  | _, VArr items :: _ => inr (VArr (map demo_record items))
  | _, _ => inl (Throw "INVALID_REQUEST")
  end.

(** Caller functions: 0 answers its argument, 1 answers nothing, 2 keeps
    the records it finds a truthy [keep] in and marks them. *)
Definition demo_call_fun (f : nat) (v : value) : value :=
  match f with
  | 0 => v
  | 1 => VUndefined
  | _ =>
      match v with
      | VObj props =>
          if truthy (default VUndefined (assoc "keep" props))
          then VObj (("seen", VBool true) :: props)
          else VUndefined
      | _ => VUndefined
      end
  end.

Definition demo_camel (records : list value) : list value :=
  map (fun r =>
         match r with
         | VObj props =>
             VObj (map (fun kv => (if String.eqb (fst kv) "created_time"
                                   then "createdTime" else fst kv, snd kv)) props)
         | _ => r
         end) records.

Definition demo (rows : value) : host :=
  Host (VStr "keyENV") (VStr "appENV") (VStr "Table 1")
       (fun v => match v with VNum n => pretty n | _ => "function" end)
       demo_camel demo_call_fun (demo_remote rows).

Definition fresh_world : world := World [] [] VUndefined [].

Definition foo : value := VObj [("firstName", VStr "foo")].

(** What a method answers on a fresh instance of the demo store. *)
Definition on_fresh_instance {A} (rows config : value) (method : host -> nat -> M A)
  : world * (exn + A) :=
  (this <- constructor (demo rows) config ;; method (demo rows) this) fresh_world.

(** Two answered records; function 2 keeps the first. *)
Definition demo_rows : value :=
  VArr [VRich (VObj [("id", VStr "recA"); ("keep", VBool true);
                     ("fields", VObj [("First Name", VStr "foo")])]);
        VRich (VObj [("id", VStr "recB");
                     ("fields", VObj [("First Name", VStr "foo")])])].

(** An instance built with the key ["keyA"], after one call that overrode
    the key with ["keyB"]. *)
Definition rotated_world : world :=
  fst (on_fresh_instance (VArr []) (VObj [("apiKey", VStr "keyA")])
         (fun H this =>
            o <- alloc {[ "apiKey" := VStr "keyB" ]} ;;
            _mergeConfig H this (VRef o))).

(** ** Predicates of the statements *)

(** A relation between the world before and after that a computation
    respects, whether it returns or throws. *)
Definition stable {A} (R : relation world) (m : M A) : Prop :=
  forall w w' r, m w = (w', r) -> R w w'.

(** What a merge leaves alone: the objects [keep] selects, the instance's
    [config] field, the handles minted so far and the trace. *)
Definition frame (this : nat) (keep : nat -> Prop) : relation world :=
  fun w w' =>
    (forall l o, keep l -> heap w !! l = Some o -> heap w' !! l = Some o) /\
    (forall o, heap w !! this = Some o ->
               exists o', heap w' !! this = Some o' /\ o' !! "config" = o !! "config") /\
    (forall h x, bases w !! h = Some x -> bases w' !! h = Some x) /\
    trace w' = trace w.

(** The [transform] of a configuration the constructor stored: the key is
    there and holds a function or [undefined]. *)
Definition transform_ok (o : gmap string value) : Prop :=
  exists t, o !! "transform" = Some t /\ (is_function t = true \/ t = VUndefined).

(** The instance [this] as its constructor leaves it: its [config] field
    refers to the object at [c], which holds [o], with a [transform] that is
    a function or [undefined] and a handle that answers the stored
    [baseID]. *)
Definition instance_ok (this c : nat) (o : gmap string value) (w : world) : Prop :=
  this_config this w = VRef c /\
  heap w !! c = Some o /\
  transform_ok o /\
  getId (field o "base") w = (w, inr (field o "baseID")).

(** What a merge with an override answers, from world [w] to [w']: a fresh
    object [r] holding the merged properties (the override's over the
    instance's) with a handle that answers the merged [baseID] to
    [getId()]; the process-wide credential is the merged [apiKey]; the
    handle is the one the merged properties carried when the merged
    [apiKey] was the current credential and that handle's container is the
    merged [baseID], and a newly minted one when the credential differs, no
    handle is there, or its container is another. *)
Definition handle_resolved (H : host) (this : nat) (ov : value) (w w' : world)
  (r : value) : Prop :=
  exists w1 override c h key,
    let merged := override ∪ own_props w1 (this_config this w1) in
    let cfg := <["base" := VBase h]> merged in
    override_of ov w = (w1, inr override) /\
    r = VRef c /\ heap w' !! c = Some cfg /\
    getId (field cfg "base") w' = (w', inr (field merged "baseID")) /\
    bases w' !! h = Some (key, field merged "baseID") /\
    apiKey w' = field merged "apiKey" /\
    ((field merged "apiKey" = apiKey w /\ field merged "base" = VBase h /\
      bases w !! h = Some (key, field merged "baseID") /\ bases w' = bases w)
     \/
     ((field merged "apiKey" <> apiKey w \/ truthy (field merged "base") = false \/
       exists h0 k0 c0, field merged "base" = VBase h0 /\
                        bases w !! h0 = Some (k0, c0) /\ c0 <> field merged "baseID") /\
      h = length (bases w) /\ key = effective_key H (field merged "apiKey") /\
      truthy key = true /\
      bases w' = bases w ++ [(key, field merged "baseID")])).

(** What [read] answers with [v], from world [w] to [w']: the store's
    answer to the one select, shaped by [complex], gives [records]; they
    are key-cased first when [camelCase] is on; with a caller function [f]
    as the effective transform, [f] runs on a copy of each of those; if all
    its answers are falsy, [v] is the key-cased records, untransformed, and
    if one is truthy, [v] is the truthy answers and nothing else. *)
Definition transform_applied (H : host) (this : nat) (config : value) (w w' : world)
  (v : value) : Prop :=
  exists w1 cfg camelCase complex sel answer records,
    _mergeConfig H this config w = (w1, inr cfg) /\
    get_prop cfg "camelCase" w1 = (w1, inr camelCase) /\
    get_prop cfg "complex" w1 = (w1, inr complex) /\
    trace w' = trace w1 ++ [sel] /\ c_verb sel = Select /\
    remote H (trace w1) sel = inr answer /\
    array_map (shape complex) answer w' = (w', inr records) /\
    forall f, get_prop cfg "transform" w1 = (w1, inr (VFun f)) ->
      let keyed := if truthy camelCase then camelcaseKeys H records else records in
      let transformed := map (fun el => call_fun H f (spread w' el)) keyed in
      (Forall (fun x => truthy x = false) transformed ->
       v = VArr (List.filter truthy keyed) /\
       (Forall (fun x => truthy x = true) keyed -> v = VArr keyed)) /\
      (Exists (fun x => truthy x = true) transformed ->
       v = VArr (List.filter truthy transformed)).


(** The store answers every select, and every request that carries an
    array of items, with an array of Records. *)
Definition answers_records (H : host) : Prop :=
  forall history c,
    (c_verb c = Select \/ exists items rest, c_args c = VArr items :: rest) ->
    exists raws, remote H history c = inr (VArr (map VRich raws)).

(** The configuration object at [c] as a merge on the instance [this]
    leaves it: a [transform] that is a function or [undefined], the
    process-wide credential as its [apiKey], a handle that is bound to its
    [baseID], and every key of the instance's configuration. *)
Definition settled (this c : nat) (o : gmap string value) (w : world) : Prop :=
  heap w !! c = Some o /\
  transform_ok o /\
  field o "apiKey" = apiKey w /\
  (exists h key, field o "base" = VBase h /\ bases w !! h = Some (key, field o "baseID")) /\
  exists c0 o0, this_config this w = VRef c0 /\ heap w !! c0 = Some o0 /\ o ∪ o0 = o.

(** Every request sent from [w] to [w'] satisfies [P]. *)
Definition sends (P : call -> Prop) : relation world :=
  fun w w' => exists calls, trace w' = trace w ++ calls /\ Forall P calls.

(** The request's verb is one of [verbs]. *)
Definition verb_in (verbs : list verb) (c : call) : Prop := In (c_verb c) verbs.

(** A value that is no array. *)
Definition plain (v : value) : Prop := isArray v = false.

(** The answer of [_handleBatch] for the flat result [res] (source line
    1041). *)
Definition collapse (res : list value) : value :=
  if (1 <? length res)%nat then VArr res else nth 0 res VUndefined.

(** The request's verb is [v]. *)
Definition is_verb (v : verb) (c : call) : Prop := c_verb c = v.

(** The requests sent from [w] to [w'] come in consecutive groups, one per
    predicate of [Ps], in that order; a group may be empty. *)
Definition phases (Ps : list (call -> Prop)) : relation world :=
  fun w w' =>
    exists groups, trace w' = trace w ++ concat groups /\
                   Forall2 (fun P group => Forall P group) Ps groups.

(** The string holds the character [sep]. *)
Fixpoint has_char (sep : ascii) (s : string) : bool :=
  match s with
  | EmptyString => false
  | String c rest => Ascii.eqb c sep || has_char sep rest
  end.


(** ** A store for single rows *)

(** A store that answers one Record to every request that names a row. *)
Definition row_remote (history : list call) (c : call) : exn + value :=
  match c_args c with
  | VStr i :: _ =>
      inr (VRich (VObj [("id", VStr i); ("fields", VObj []);
                        ("createdTime", VStr "2020-01-01")]))
  | _ => inl (Throw "INVALID_REQUEST")
  end.

Definition row_demo : host :=
  Host (VStr "keyENV") (VStr "appENV") (VStr "Table 1")
       (fun _ => "function") (fun records => records) (fun _ v => v) row_remote.

(** The raw JSON of two records with a key for [demo_camel] to case. *)
Definition cased_raws : list value :=
  [VObj [("id", VStr "recA"); ("created_time", VStr "2020-01-01"); ("fields", VObj [])];
   VObj [("id", VStr "recB"); ("created_time", VStr "2020-01-02"); ("fields", VObj [])]].

(** The object at [l] has the table name [x]. *)
Definition named (l : nat) (x : value) (w : world) : Prop :=
  exists o, heap w !! l = Some o /\ o !! "tableName" = Some x.
(** * Proofs *)

(** ** Equality of values *)

Lemma value_eqb_refl a : value_eqb a a = true.
Proof.
  induction a using value_nested_ind; simpl;
    rewrite ?Z.eqb_refl, ?String.eqb_refl, ?Nat.eqb_refl; auto.
  - destruct b; reflexivity.
  - induction H as [|x l Hx Hl IH]; [reflexivity|]. rewrite Hx. exact IH.
  - induction H as [|[k x] l Hx Hl IH]; [reflexivity|].
    simpl in Hx. rewrite String.eqb_refl, Hx. exact IH.
Qed.

Lemma value_eqb_eq a b : value_eqb a b = true -> a = b.
Proof.
  revert b. induction a using value_nested_ind; intros [] E; simpl in E;
    try discriminate; try reflexivity.
  - f_equal. apply Bool.eqb_prop. exact E.
  - f_equal. apply Z.eqb_eq. exact E.
  - f_equal. apply String.eqb_eq. exact E.
  - f_equal. apply Nat.eqb_eq. exact E.
  - f_equal. apply Nat.eqb_eq. exact E.
  - f_equal. apply Nat.eqb_eq. exact E.
  - f_equal. revert items0 E.
    induction H as [|x l Hx Hl IH]; intros [|y l2] E; try discriminate; [reflexivity|].
    apply andb_prop in E as [E1 E2]. f_equal; [apply Hx; exact E1 | apply IH; exact E2].
  - f_equal. revert props0 E.
    induction H as [|[k x] l Hx Hl IH]; intros [|[k2 y] l2] E; try discriminate; [reflexivity|].
    apply andb_prop in E as [E1 E3]. apply andb_prop in E1 as [E1 E2].
    apply String.eqb_eq in E1. simpl in Hx. apply Hx in E2. subst.
    f_equal. apply IH. exact E3.
  - f_equal. apply IHa. exact E.
Qed.

Lemma strict_eq_true a b : strict_eq a b = true <-> a = b.
Proof.
  split; [apply value_eqb_eq | intros ->; apply value_eqb_refl].
Qed.

Lemma strict_eq_false a b : strict_eq a b = false <-> a <> b.
Proof.
  rewrite <- strict_eq_true. destruct (strict_eq a b); split; congruence.
Qed.

#[global] Instance value_eq_dec : EqDecision value.
Proof.
  intros a b. destruct (value_eqb a b) eqn:E.
  - left. apply value_eqb_eq, E.
  - right. intros ->. rewrite value_eqb_refl in E. discriminate.
Defined.

(** ** Running computations *)

Lemma bind_inr {A B} (m : M A) (k : A -> M B) w w' b :
  bind m k w = (w', inr b) ->
  exists w1 a, m w = (w1, inr a) /\ k a w1 = (w', inr b).
Proof.
  unfold bind. destruct (m w) as [w1 [e|a]]; [discriminate|]. eauto.
Qed.

Lemma bind_eq {A B} (m : M A) (k : A -> M B) w w1 a :
  m w = (w1, inr a) -> bind m k w = k a w1.
Proof. unfold bind. intros ->. reflexivity. Qed.

Section stable.
Context (R : relation world) `{!PreOrder R}.

Lemma stable_ret {A} (a : A) : stable R (ret a).
Proof. intros w w' r [= <- _]. reflexivity. Qed.

Lemma stable_throw {A} msg : stable R (@throw A msg).
Proof. intros w w' r [= <- _]. reflexivity. Qed.

Lemma stable_get_world : stable R get_world.
Proof. intros w w' r [= <- _]. reflexivity. Qed.

Lemma stable_get_prop v k : stable R (get_prop v k).
Proof. intros w w' r E. unfold get_prop in E. destruct v; injection E as <- _; reflexivity. Qed.

Lemma stable_bind {A B} (m : M A) (k : A -> M B) :
  stable R m -> (forall a, stable R (k a)) -> stable R (bind m k).
Proof.
  intros Hm Hk w w' r E. unfold bind in E.
  destruct (m w) as [w1 [e|a]] eqn:Em.
  - injection E as <- _. eapply Hm, Em.
  - transitivity w1; [eapply Hm, Em | eapply Hk, E].
Qed.

Lemma stable_mapM {A B} (f : A -> M B) l :
  (forall a, stable R (f a)) -> stable R (mapM f l).
Proof.
  intros Hf. induction l as [|x l IH]; simpl.
  - apply stable_ret.
  - apply stable_bind; [apply Hf|]. intros y.
    apply stable_bind; [apply IH|]. intros ys. apply stable_ret.
Qed.
End stable.

(** ** What a merge leaves alone *)

#[local] Instance frame_preorder this keep : PreOrder (frame this keep).
Proof.
  split.
  - intros w. unfold frame. repeat split; eauto.
  - intros w1 w2 w3 (Ha & Hb & Hc & Hd) (Ha' & Hb' & Hc' & Hd').
    repeat split; eauto.
    + intros o Ho. destruct (Hb o Ho) as (o1 & Ho1 & E1).
      destruct (Hb' o1 Ho1) as (o2 & Ho2 & E2). exists o2. split; [exact Ho2 | congruence].
    + congruence.
Qed.

Section merge_frame.
Variable H : host.

Lemma frame_alloc this keep o : stable (frame this keep) (alloc o).
Proof.
  intros w w' r [= <- _]. unfold frame; simpl. repeat split; auto.
  - intros l p _ Hl. rewrite lookup_app_l; [exact Hl | eapply lookup_lt_Some, Hl].
  - intros p Hp. exists p. split; [|reflexivity].
    rewrite lookup_app_l; [exact Hp | eapply lookup_lt_Some, Hp].
Qed.

Lemma frame_Airtable_base this keep baseId : stable (frame this keep) (Airtable_base H baseId).
Proof.
  intros w w' r E. unfold Airtable_base in E.
  destruct (truthy (effective_key H (apiKey w)));
    injection E as <- _; [|reflexivity].
  unfold frame; simpl. repeat split; eauto.
  intros h x Hh. rewrite lookup_app_l; [exact Hh | eapply lookup_lt_Some, Hh].
Qed.

Lemma frame_getId this keep base : stable (frame this keep) (getId base).
Proof.
  intros w w' r E. unfold getId in E.
  destruct base; try (injection E as <- _; reflexivity).
  destruct (bases w !! h) as [[]|]; injection E as <- _; reflexivity.
Qed.

Lemma frame_set_apiKey this keep k : stable (frame this keep) (modify (set_apiKey k)).
Proof. intros w w' r [= <- _]. unfold frame; simpl. repeat split; eauto. Qed.

Lemma frame_resolve_base this keep cfg : stable (frame this keep) (resolve_base H cfg).
Proof.
  unfold resolve_base.
  apply stable_bind; [apply _ | apply stable_get_world, _ |]. intros w0.
  apply stable_bind; [apply _ | |].
  - destruct (negb _); [|apply stable_ret, _].
    apply stable_bind; [apply _ | apply frame_set_apiKey |]. intros _.
    apply stable_bind; [apply _ | apply frame_Airtable_base |]. intros b.
    apply stable_ret, _.
  - intros cfg1. apply stable_bind; [apply _ | |].
    + destruct (negb _); [apply stable_ret, _|].
      apply stable_bind; [apply _ | apply frame_getId |]. intros i. apply stable_ret, _.
    + intros [|]; [|apply stable_ret, _].
      apply stable_bind; [apply _ | apply frame_Airtable_base |]. intros b.
      apply stable_ret, _.
Qed.
End merge_frame.

(** ** The instance defaults *)

Section instance_defaults.
Variable H : host.

Lemma frame_set_prop_transform this v x :
  stable (frame this (fun l => VRef l <> v)) (set_prop v "transform" x).
Proof.
  intros w w' r E. unfold set_prop in E.
  destruct v; try (injection E as <- _; reflexivity).
  injection E as <- _. unfold frame; simpl. repeat split; auto.
  - intros l' o Hne Hl. rewrite list_lookup_alter_ne; [exact Hl | congruence].
  - intros o Ho. destruct (decide (l = this)) as [->|Hne].
    + rewrite list_lookup_alter_eq, Ho. simpl. eexists. split; [reflexivity|].
      apply lookup_insert_ne. discriminate.
    + rewrite list_lookup_alter_ne by exact Hne. eauto.
Qed.

Lemma frame_override_of this ov :
  stable (frame this (fun l => VRef l <> ov)) (override_of ov).
Proof.
  unfold override_of.
  destruct (String.eqb (typeof ov) "string"); [apply stable_ret, _|].
  destruct (String.eqb (typeof ov) "object"); [|apply stable_ret, _].
  apply stable_bind; [apply _ | apply stable_get_prop, _ |]. intros t.
  destruct (is_function t).
  - apply stable_bind; [apply _ | apply stable_get_world, _ |]. intros w0. apply stable_ret, _.
  - apply stable_bind; [apply _ | apply frame_set_prop_transform |]. intros _.
    apply stable_bind; [apply _ | apply stable_get_world, _ |]. intros w0. apply stable_ret, _.
Qed.

Lemma frame_mergeConfig this ov :
  stable (frame this (fun l => VRef l <> ov)) (_mergeConfig H this ov).
Proof.
  unfold _mergeConfig. destruct (negb (truthy ov)).
  - apply stable_bind; [apply _ | apply stable_get_world, _ |]. intros w0. apply stable_ret, _.
  - apply stable_bind; [apply _ | apply frame_override_of |]. intros override.
    apply stable_bind; [apply _ | apply stable_get_world, _ |]. intros w0.
    apply stable_bind; [apply _ | apply frame_resolve_base |]. intros cfg.
    apply stable_bind; [apply _ | apply frame_alloc |]. intros l. apply stable_ret, _.
Qed.

(** On an object whose [transform] is a function or [undefined], the write
    of line 980 changes nothing. *)
Lemma override_of_idle c o w w' r :
  heap w !! c = Some o -> transform_ok o ->
  override_of (VRef c) w = (w', r) -> w' = w.
Proof.
  intros Hc (t & Ht & Hok) E. unfold override_of in E. simpl in E.
  unfold bind, get_prop, own_props in E. rewrite Hc in E. simpl in E. rewrite Ht in E.
  simpl in E. destruct Hok as [Hf | ->].
  - rewrite Hf in E. simpl in E. injection E as <- _. reflexivity.
  - simpl in E. injection E as <- _. destruct w as [hp bs k tr]. unfold set_heap; simpl in *.
    f_equal. apply list_eq. intros i. destruct (decide (c = i)) as [<-|Hne].
    + rewrite list_lookup_alter_eq, Hc. simpl. f_equal. apply insert_id. exact Ht.
    + apply list_lookup_alter_ne. exact Hne.
Qed.

Lemma frame_mergeConfig_alias this c o w w' r :
  heap w !! c = Some o -> transform_ok o ->
  _mergeConfig H this (VRef c) w = (w', r) -> frame this (fun _ => True) w w'.
Proof.
  intros Hc Hok E. unfold _mergeConfig in E. simpl in E. unfold bind at 1 in E.
  destruct (override_of (VRef c) w) as [w1 [e|override]] eqn:Eo.
  - apply (override_of_idle _ _ _ _ _ Hc Hok) in Eo. injection E as <- _. subst. reflexivity.
  - apply (override_of_idle _ _ _ _ _ Hc Hok) in Eo. subst w1.
    revert E. generalize w w' r. change (stable (frame this (fun _ => True))
      (w0 <- get_world ;; cfg <- resolve_base H (override ∪ own_props w0 (this_config this w0)) ;;
       l <- alloc cfg ;; ret (VRef l))).
    apply stable_bind; [apply _ | apply stable_get_world, _ |]. intros w0.
    apply stable_bind; [apply _ | apply frame_resolve_base |]. intros cfg.
    apply stable_bind; [apply _ | apply frame_alloc |]. intros l. apply stable_ret, _.
Qed.

Lemma this_config_frame this keep w w' v :
  frame this keep w w' -> this_config this w = v -> v <> VUndefined ->
  this_config this w' = v.
Proof.
  intros (_ & Hb & _) E Hv. unfold this_config in *.
  destruct (heap w !! this) as [o|] eqn:Ho; simpl in E.
  - destruct (Hb o eq_refl) as (o' & -> & Eo). simpl. rewrite Eo. exact E.
  - rewrite lookup_empty in E. simpl in E. congruence.
Qed.

(** C8.  A merge never mutates the instance defaults: the instance still
    refers to the same configuration object, that object holds the same
    properties as before (also when the caller passes that very object as
    the override), every other object than the caller's override and every
    handle minted before are as they were. *)
Theorem mergeConfig_keeps_instance_defaults this c o ov w w' r :
  this_config this w = VRef c ->
  heap w !! c = Some o ->
  transform_ok o ->
  _mergeConfig H this ov w = (w', r) ->
  this_config this w' = VRef c /\
  heap w' !! c = Some o /\
  (forall l p, VRef l <> ov -> heap w !! l = Some p -> heap w' !! l = Some p) /\
  (forall h x, bases w !! h = Some x -> bases w' !! h = Some x).
Proof.
  intros Hthis Hc Hok E.
  pose proof (frame_mergeConfig this ov w w' r E) as F.
  split; [eapply this_config_frame; [exact F | exact Hthis | discriminate] |].
  split; [| destruct F as (Ha & _ & Hb & _); split; [intros l p; apply Ha | exact Hb]].
  destruct (decide (ov = VRef c)) as [->|Hne].
  - destruct (frame_mergeConfig_alias this c o w w' r Hc Hok E) as (Ha & _).
    apply Ha; [exact I | exact Hc].
  - destruct F as (Ha & _). apply Ha; [congruence | exact Hc].
Qed.
End instance_defaults.

(** ** The caller's override and the handle *)

Section caller_override.
Variable H : host.

Lemma frame_merge_tail this override :
  stable (frame this (fun _ => True))
    (w0 <- get_world ;;
     cfg <- resolve_base H (override ∪ own_props w0 (this_config this w0)) ;;
     l <- alloc cfg ;; ret (VRef l)).
Proof.
  apply stable_bind; [apply _ | apply stable_get_world, _ |]. intros w0.
  apply stable_bind; [apply _ | apply frame_resolve_base |]. intros cfg.
  apply stable_bind; [apply _ | apply frame_alloc |]. intros l. apply stable_ret, _.
Qed.

Lemma override_of_ref_write l o w :
  heap w !! l = Some o ->
  is_function (field o "transform") = false ->
  override_of (VRef l) w =
    (set_heap (alter (fun o => <["transform" := VUndefined]> o) l (heap w)) w,
     inr (<["transform" := VUndefined]> o)).
Proof.
  intros Hl Hf. unfold override_of. simpl.
  unfold bind, get_prop, own_props. rewrite Hl. simpl.
  unfold field in Hf. rewrite Hf. simpl.
  rewrite list_lookup_alter_eq, Hl. simpl. rewrite insert_insert_eq. reflexivity.
Qed.

Lemma override_of_ref_keep l o w :
  heap w !! l = Some o ->
  is_function (field o "transform") = true ->
  override_of (VRef l) w = (w, inr o).
Proof.
  intros Hl Hf. unfold override_of. simpl.
  unfold bind, get_prop, own_props. rewrite Hl. simpl.
  unfold field in Hf. rewrite Hf. simpl. rewrite Hl. reflexivity.
Qed.

(** C10.  An object override whose [transform] is not a function (absent
    included) is written to: after the call, returned or thrown, the
    caller's own object holds [transform: undefined], so it differs from
    what the caller passed unless it already held exactly that. *)
Theorem mergeConfig_writes_caller_override this l o w w' r :
  heap w !! l = Some o ->
  is_function (field o "transform") = false ->
  _mergeConfig H this (VRef l) w = (w', r) ->
  heap w' !! l = Some (<["transform" := VUndefined]> o) /\
  (o !! "transform" <> Some VUndefined -> heap w' !! l <> heap w !! l).
Proof.
  intros Hl Hf E.
  assert (Hw : heap w' !! l = Some (<["transform" := VUndefined]> o)).
  { unfold _mergeConfig in E. simpl in E. unfold bind at 1 in E.
    rewrite (override_of_ref_write l o w Hl Hf) in E.
    apply (frame_merge_tail this) in E. destruct E as (Ha & _).
    apply Ha; [exact I|]. simpl. rewrite list_lookup_alter_eq, Hl. reflexivity. }
  split; [exact Hw|]. intros Hne. rewrite Hw, Hl. intros [= Eo].
  apply Hne. rewrite <- Eo. apply lookup_insert_eq.
Qed.

Lemma field_insert_eq (cfg : gmap string value) k x : field (<[k := x]> cfg) k = x.
Proof. unfold field. rewrite lookup_insert_eq. reflexivity. Qed.

Lemma field_insert_ne (cfg : gmap string value) k k' x :
  k <> k' -> field (<[k := x]> cfg) k' = field cfg k'.
Proof. intros Hne. unfold field. rewrite lookup_insert_ne by exact Hne. reflexivity. Qed.

Lemma mint_inr baseId w w' b :
  Airtable_base H baseId w = (w', inr b) ->
  truthy (effective_key H (apiKey w)) = true /\
  w' = set_bases (bases w ++ [(effective_key H (apiKey w), baseId)]) w /\
  b = VBase (length (bases w)).
Proof.
  unfold Airtable_base. simpl.
  destruct (truthy (effective_key H (apiKey w))); [|discriminate].
  intros [= <- <-]. auto.
Qed.

Lemma field_base_insert (cfg : gmap string value) h :
  field cfg "base" = VBase h -> cfg = <["base" := VBase h]> cfg.
Proof.
  intros Eh. symmetry. apply insert_id. unfold field in Eh.
  destruct (cfg !! "base"); simpl in Eh; congruence.
Qed.

Lemma lookup_fresh {A} (l : list A) x : (l ++ [x]) !! length l = Some x.
Proof. apply list_lookup_middle. reflexivity. Qed.

(** Source lines 986-991: the handle of the answer is bound to the merged
    [baseID]; it is the one the merged configuration had exactly when the
    credential is the current one and that handle's container is the merged
    [baseID], and a fresh one otherwise. *)
Lemma resolve_base_inr cfg w w' cfg' :
  resolve_base H cfg w = (w', inr cfg') ->
  exists h key,
    cfg' = <["base" := VBase h]> cfg /\
    bases w' !! h = Some (key, field cfg "baseID") /\
    apiKey w' = field cfg "apiKey" /\
    heap w' = heap w /\ trace w' = trace w /\
    ((field cfg "apiKey" = apiKey w /\ field cfg "base" = VBase h /\
      bases w !! h = Some (key, field cfg "baseID") /\ bases w' = bases w)
     \/
     ((field cfg "apiKey" <> apiKey w \/ truthy (field cfg "base") = false \/
       exists h0 k0 c0, field cfg "base" = VBase h0 /\ bases w !! h0 = Some (k0, c0) /\
                        c0 <> field cfg "baseID") /\
      h = length (bases w) /\ key = effective_key H (field cfg "apiKey") /\
      truthy key = true /\
      bases w' = bases w ++ [(key, field cfg "baseID")])).
Proof.
  intros E. unfold resolve_base in E.
  apply bind_inr in E as (w0 & wv & [= <- <-] & E).
  destruct (strict_eq (field cfg "apiKey") (apiKey w)) eqn:Ek; simpl in E.
  - apply strict_eq_true in Ek.
    apply bind_inr in E as (w1 & cfg1 & [= <- <-] & E).
    destruct (truthy (field cfg "base")) eqn:Eb; simpl in E.
    + apply bind_inr in E as (w2 & stale & Es & E).
      apply bind_inr in Es as (w3 & i & Eg & [= <- <-]).
      unfold getId in Eg.
      destruct (field cfg "base") as [| | | | | |h0| | | |] eqn:Eh; try discriminate.
      destruct (bases w !! h0) as [[k0 c0]|] eqn:Eh0; [|discriminate].
      injection Eg as <- <-.
      destruct (strict_eq (field cfg "baseID") c0) eqn:Ec; simpl in E.
      * apply strict_eq_true in Ec. subst c0. injection E as <- <-.
        exists h0, k0. repeat split; auto. apply field_base_insert, Eh.
      * apply strict_eq_false in Ec.
        apply bind_inr in E as (w4 & b & Em & [= <- <-]).
        apply mint_inr in Em as (Ht & -> & ->). rewrite <- Ek in *.
        exists (length (bases w)), (effective_key H (field cfg "apiKey")). simpl.
        split; [reflexivity|]. split; [apply lookup_fresh|].
        repeat (split; [first [reflexivity | symmetry; assumption]|]). right.
        split; [right; right; exists h0, k0, c0; auto|]. auto.
    + apply bind_inr in E as (w2 & stale & [= <- <-] & E).
      apply bind_inr in E as (w4 & b & Em & [= <- <-]).
      apply mint_inr in Em as (Ht & -> & ->). rewrite <- Ek in *.
      exists (length (bases w)), (effective_key H (field cfg "apiKey")). simpl.
      split; [reflexivity|]. split; [apply lookup_fresh|].
      repeat (split; [first [reflexivity | symmetry; assumption]|]). right. auto.
  - apply strict_eq_false in Ek.
    apply bind_inr in E as (w1 & cfg1 & E1 & E).
    apply bind_inr in E1 as (w2 & u & [= <-] & E1).
    apply bind_inr in E1 as (w3 & b & Em & [= <- <-]).
    apply mint_inr in Em as (Ht & -> & ->). simpl in *.
    rewrite field_insert_eq in E. simpl in E.
    apply bind_inr in E as (w4 & stale & Es & E).
    apply bind_inr in Es as (w5 & i & Eg & [= <- <-]).
    unfold getId in Eg. simpl in Eg. rewrite lookup_fresh in Eg.
    injection Eg as <- <-.
    rewrite field_insert_ne in E by discriminate.
    replace (strict_eq (field cfg "baseID") (field cfg "baseID")) with true in E
      by (symmetry; apply strict_eq_true; reflexivity).
    simpl in E. injection E as <- <-.
    exists (length (bases w)), (effective_key H (field cfg "apiKey")). simpl.
    split; [reflexivity|]. split; [apply lookup_fresh|].
    repeat (split; [first [reflexivity | symmetry; assumption]|]). right. auto.
Qed.
End caller_override.

Section handle_resolution.
Variable H : host.

Lemma override_of_world ov w w1 r :
  override_of ov w = (w1, r) ->
  bases w1 = bases w /\ apiKey w1 = apiKey w /\ trace w1 = trace w /\
  length (heap w1) = length (heap w).
Proof.
  unfold override_of.
  destruct (String.eqb (typeof ov) "string"); [intros [= <- _]; auto|].
  destruct (String.eqb (typeof ov) "object"); [|intros [= <- _]; auto].
  unfold bind, get_prop.
  destruct ov; simpl; try (intros [= <- _]; auto; fail);
    try (destruct (is_function _); simpl; intros [= <- _]; simpl;
         rewrite ?length_alter; auto; fail).
Qed.

Lemma mergeConfig_absent this ov w :
  truthy ov = false -> _mergeConfig H this ov w = (w, inr (this_config this w)).
Proof. intros Hf. unfold _mergeConfig. rewrite Hf. reflexivity. Qed.

Lemma mergeConfig_inr this ov w w' r :
  truthy ov = true ->
  _mergeConfig H this ov w = (w', inr r) ->
  exists w1 w2 override cfg,
    override_of ov w = (w1, inr override) /\
    resolve_base H (override ∪ own_props w1 (this_config this w1)) w1 = (w2, inr cfg) /\
    r = VRef (length (heap w1)) /\
    w' = set_heap (heap w2 ++ [cfg]) w2.
Proof.
  intros Ht E. unfold _mergeConfig in E. rewrite Ht in E. simpl in E.
  apply bind_inr in E as (w1 & override & Eo & E).
  apply bind_inr in E as (w1' & wv & [= <- <-] & E).
  apply bind_inr in E as (w2 & cfg & Er & E).
  apply bind_inr in E as (w3 & l & [= <- <-] & [= <- <-]).
  exists w1, w2, override, cfg. repeat split; auto.
  apply resolve_base_inr in Er as (h & key & _ & _ & _ & -> & _). reflexivity.
Qed.

(** C7, as amended.  Without an override the instance configuration is
    returned as it is: nothing is minted and nothing rebound, whatever the
    current credential.  With an override, the answer is a fresh object
    whose handle answers the merged [baseID] to [getId()]; the process-wide
    credential becomes the merged [apiKey]; the handle is the one the merged
    configuration carried exactly when the merged [apiKey] was the current
    credential and that handle's container is the merged [baseID], and in
    every other case (credential differs, no handle, other container) it is
    a newly minted one. *)
Theorem mergeConfig_resolves_handle this ov w :
  (truthy ov = false ->
   _mergeConfig H this ov w = (w, inr (this_config this w))) /\
  (truthy ov = true ->
   forall w' r, _mergeConfig H this ov w = (w', inr r) ->
   handle_resolved H this ov w w' r).
Proof.
  split; [apply mergeConfig_absent|].
  intros Ht w' r E. unfold handle_resolved.
  apply (mergeConfig_inr this ov w w' r Ht) in E as (w1 & w2 & override & cfg & Eo & Er & -> & ->).
  apply resolve_base_inr in Er as (h & key & -> & Hb & Hk & Hh & _ & Hcase).
  apply override_of_world in Eo as Hw. destruct Hw as (Eb & Ek & _ & _).
  exists w1, override, (length (heap w1)), h, key. simpl.
  split; [exact Eo|]. split; [reflexivity|].
  split; [rewrite Hh; apply lookup_fresh|].
  split; [rewrite field_insert_eq; unfold getId; simpl; rewrite Hb; reflexivity|].
  split; [exact Hb|]. split; [exact Hk|].
  rewrite <- Eb, <- Ek. exact Hcase.
Qed.

Lemma override_of_transform l o w w1 override :
  heap w !! l = Some o ->
  override_of (VRef l) w = (w1, inr override) ->
  transform_ok override.
Proof.
  intros Hl E. destruct (is_function (field o "transform")) eqn:Hf.
  - rewrite (override_of_ref_keep l o w Hl Hf) in E. injection E as <- <-.
    unfold field in Hf. destruct (o !! "transform") as [t|] eqn:Et; simpl in Hf; [|discriminate].
    exists t. auto.
  - rewrite (override_of_ref_write l o w Hl Hf) in E. injection E as <- <-.
    exists VUndefined. split; [apply lookup_insert_eq | auto].
Qed.

(** The configuration a constructor stores: [transform] is a function or
    [undefined], and the handle answers the stored [baseID]. *)
Lemma constructor_instance_ok config w w' this :
  constructor H config w = (w', inr this) ->
  exists c cfg, instance_ok this c cfg w'.
Proof.
  intros E. unfold instance_ok. unfold constructor in E.
  apply bind_inr in E as (wa & this' & [= <- <-] & E).
  apply bind_inr in E as (wa' & wv & [= <- <-] & E).
  apply bind_inr in E as (wb & lit & [= <- <-] & E).
  apply bind_inr in E as (wc & r & Em & E).
  apply bind_inr in E as (wd & u & Es & [= <- <-]).
  set (wb := set_heap _ (set_heap _ w)) in Em.
  apply (mergeConfig_inr (length (heap w)) (VRef (length (heap w ++ [∅]))) wb wc r eq_refl) in Em
    as (w1 & w2 & override & cfg & Eo & Er & -> & ->).
  assert (Hlit : heap wb !! length (heap w ++ [∅]) = Some (own_props (set_heap (heap w ++ [∅]) w) config ∪ defaults H))
    by apply lookup_fresh.
  pose proof (override_of_transform _ _ _ _ _ Hlit Eo) as (t & Ht & Hok).
  apply (lookup_union_Some_l _ (own_props w1 (this_config (length (heap w)) w1))) in Ht.
  apply override_of_world in Eo as (_ & _ & _ & Hlen).
  apply resolve_base_inr in Er as (h & key & -> & Hb & _ & Hh & _ & _).
  assert (Hlong : length (heap w1) = S (S (length (heap w)))).
  { rewrite Hlen. unfold wb. simpl. rewrite !length_app. simpl. lia. }
  unfold set_prop in Es. injection Es as <- _. simpl.
  remember (override ∪ own_props w1 (this_config (length (heap w)) w1)) as merged eqn:Hm.
  clear Hm. exists (length (heap w1)), (<["base" := VBase h]> merged).
  assert (Hthis : is_Some ((heap w2 ++ [<["base" := VBase h]> merged]) !! length (heap w))).
  { apply lookup_lt_is_Some. rewrite length_app, Hh, Hlong. simpl. lia. }
  destruct Hthis as (o & Ho).
  split; [|split; [|split]].
  - unfold this_config. simpl. rewrite list_lookup_alter_eq, Ho. simpl.
    rewrite lookup_insert_eq. reflexivity.
  - rewrite list_lookup_alter_ne by lia. rewrite Hh. apply lookup_fresh.
  - exists t. split; [|exact Hok].
    rewrite lookup_insert_ne by discriminate. exact Ht.
  - rewrite field_insert_eq. unfold getId. simpl. rewrite Hb.
    rewrite field_insert_ne by discriminate. reflexivity.
Qed.

(** Merges keep an instance as its constructor left it, whatever the
    override: a call without override always answers a configuration whose
    handle is bound to its [baseID]. *)
Lemma merge_instance_ok this c o ov w w' r :
  instance_ok this c o w ->
  _mergeConfig H this ov w = (w', r) ->
  instance_ok this c o w'.
Proof.
  intros (Hthis & Hc & Hok & Hid) E.
  pose proof (frame_mergeConfig H this ov w w' r E) as F.
  assert (Hc' : heap w' !! c = Some o).
  { destruct (decide (ov = VRef c)) as [->|Hne].
    - destruct (frame_mergeConfig_alias H this c o w w' r Hc Hok E) as (Ha & _).
      apply Ha; [exact I | exact Hc].
    - destruct F as (Ha & _). apply Ha; [congruence | exact Hc]. }
  split; [eapply this_config_frame; [exact F | exact Hthis | discriminate] |].
  split; [exact Hc'|]. split; [exact Hok|].
  destruct F as (_ & _ & Hb & _). unfold getId in *.
  destruct (field o "base"); try discriminate.
  destruct (bases w !! h) as [[k0 c0]|] eqn:Eh; [|discriminate].
  injection Hid as <-. rewrite (Hb _ _ Eh). reflexivity.
Qed.

(** An object override whose [transform] is not a function, absent
    included, leaves the merged configuration without a transform, whatever
    the instance's own. *)
Lemma object_override_clears_transform this l o w w' r :
  heap w !! l = Some o ->
  is_function (field o "transform") = false ->
  _mergeConfig H this (VRef l) w = (w', inr r) ->
  exists c cfg, r = VRef c /\ heap w' !! c = Some cfg /\
                cfg !! "transform" = Some VUndefined.
Proof.
  intros Hl Hf E.
  apply (mergeConfig_inr this (VRef l) w w' r eq_refl) in E
    as (w1 & w2 & override & cfg & Eo & Er & -> & ->).
  rewrite (override_of_ref_write l o w Hl Hf) in Eo. injection Eo as <- <-.
  apply resolve_base_inr in Er as (h & key & -> & _ & _ & Hh & _ & _).
  eexists _, _. split; [reflexivity|]. simpl. split; [rewrite Hh; apply lookup_fresh|].
  rewrite lookup_insert_ne by discriminate.
  apply lookup_union_Some_l, lookup_insert_eq.
Qed.
End handle_resolution.

(** ** Chunking *)

Lemma slice_take_drop {A} (l : list A) x size :
  slice (x * size) (x * size + size) l = take size (drop (x * size) l).
Proof. unfold slice. f_equal. lia. Qed.

Lemma concat_slices {A} (l : list A) size n :
  concat (map (fun x => slice (x * size) (x * size + size) l) (seq 0 n))
  = take (n * size) l.
Proof.
  induction n as [|n IH]; [reflexivity|].
  rewrite seq_S, map_app, concat_app, IH. simpl.
  rewrite app_nil_r, slice_take_drop, take_take_drop. f_equal. lia.
Qed.

Lemma chunk_length {A} (l : list A) size :
  length (chunk l size) = (length l + size - 1) / size.
Proof. unfold chunk. rewrite length_map, length_seq. reflexivity. Qed.

Lemma chunk_concat_10 {A} (l : list A) : concat (chunk l 10) = l.
Proof.
  unfold chunk. rewrite concat_slices. apply take_ge.
  pose proof (Nat.div_mod (length l + 10 - 1) 10). 
  pose proof (Nat.mod_upper_bound (length l + 10 - 1) 10). lia.
Qed.

Lemma map_fmap {A B} (f : A -> B) (l : list A) : map f l = f <$> l.
Proof. induction l as [|x l IH]; simpl; [reflexivity | f_equal; exact IH]. Qed.

Lemma chunk_lookup {A} (l : list A) size i c :
  chunk l size !! i = Some c ->
  i < (length l + size - 1) / size /\ c = take size (drop (i * size) l).
Proof.
  unfold chunk. rewrite map_fmap. intros E. apply list_lookup_fmap_Some in E as (x & -> & Hx).
  apply lookup_seq in Hx as (-> & Hlt). simpl. split; [exact Hlt|].
  apply slice_take_drop.
Qed.

(** C6.  An array of at most ten items is one chunk, the array itself.  A
    longer one of length L yields ceil(L/10) chunks whose concatenation is
    the array, every chunk before the last of exactly ten items and the
    last of one to ten. *)
Theorem chunkData_sequence (items : list value) :
  (length items <= 10 -> _chunkData (VArr items) = [items]) /\
  (10 < length items ->
   length (_chunkData (VArr items)) = (length items + 9) / 10 /\
   concat (_chunkData (VArr items)) = items /\
   (forall i c, _chunkData (VArr items) !! i = Some c ->
                S i < length (_chunkData (VArr items)) -> length c = 10) /\
   (forall c, last (_chunkData (VArr items)) = Some c -> 1 <= length c <= 10)).
Proof.
  unfold _chunkData. split; intros Hlen.
  - destruct (Nat.ltb_spec 10 (length items)); [lia | reflexivity].
  - destruct (Nat.ltb_spec 10 (length items)); [|lia].
    pose proof (Nat.div_mod (length items + 10 - 1) 10) as Hd.
    pose proof (Nat.mod_upper_bound (length items + 10 - 1) 10) as Hm.
    split; [rewrite chunk_length; f_equal; lia|].
    split; [apply chunk_concat_10|]. split.
    + intros i c Hc Hi. rewrite chunk_length in Hi.
      apply chunk_lookup in Hc as (_ & ->).
      rewrite length_take, length_drop. lia.
    + intros c Hc. rewrite last_lookup, chunk_length in Hc.
      apply chunk_lookup in Hc as (_ & ->).
      rewrite length_take, length_drop. lia.
Qed.

(** ** Reading *)

Section read_spec.
Variable H : host.

Lemma get_prop_world v k w w' r : get_prop v k w = (w', r) -> w' = w.
Proof. unfold get_prop. destruct v; intros [= <- _]; reflexivity. Qed.

Lemma shape_world complex record w w' r : shape complex record w = (w', r) -> w' = w.
Proof.
  unfold shape. destruct (truthy complex); [intros [= <- _]; reflexivity|].
  apply get_prop_world.
Qed.

Lemma mapM_world {A B} (f : A -> M B) l w w' r :
  (forall a w w' r, f a w = (w', r) -> w' = w) ->
  mapM f l w = (w', r) -> w' = w.
Proof.
  intros Hf E. symmetry. revert w w' r E.
  change (stable eq (mapM f l)). apply stable_mapM; [apply _|].
  intros a w w' r E. symmetry. eapply Hf, E.
Qed.

Lemma array_map_world f records w w' r :
  (forall a w w' r, f a w = (w', r) -> w' = w) ->
  array_map f records w = (w', r) -> w' = w.
Proof.
  intros Hf. unfold array_map. destruct records; try (intros [= <- _]; reflexivity).
  apply mapM_world, Hf.
Qed.

Lemma request_inr base table v args w w' answer :
  request H base table v args w = (w', inr answer) ->
  exists key container,
    let c := Call key container table v args in
    w' = set_trace (trace w ++ [c]) w /\ remote H (trace w) c = inr answer.
Proof.
  unfold request. destruct base; try discriminate.
  destruct (bases w !! h) as [[key container]|]; [|discriminate].
  intros [= <- E]. exists key, container. auto.
Qed.

(** The body of [read] behind the merge. *)
Lemma read_inr this params config w w' v :
  read H this params config w = (w', inr v) ->
  exists w1 cfg tableName camelCase transform complex base answer records rows,
    _mergeConfig H this config w = (w1, inr cfg) /\
    get_prop cfg "tableName" w1 = (w1, inr tableName) /\
    get_prop cfg "camelCase" w1 = (w1, inr camelCase) /\
    get_prop cfg "transform" w1 = (w1, inr transform) /\
    get_prop cfg "complex" w1 = (w1, inr complex) /\
    get_prop cfg "base" w1 = (w1, inr base) /\
    request H base
      (if String.eqb (typeof params) "string" then params else tableName) Select
      [if truthy (if String.eqb (typeof params) "string" then VObj [] else params)
       then (if String.eqb (typeof params) "string" then VObj [] else params)
       else VObj []] w1 = (w', inr answer) /\
    array_map (shape complex) answer w' = (w', inr records) /\
    read_post H w' camelCase transform records = inr rows /\
    v = VArr rows.
Proof.
  intros E. unfold read in E.
  apply bind_inr in E as (w1 & cfg & Em & E).
  apply bind_inr in E as (w2 & tableName & E1 & E).
  pose proof (get_prop_world _ _ _ _ _ E1) as ->.
  apply bind_inr in E as (w2 & camelCase & E2 & E).
  pose proof (get_prop_world _ _ _ _ _ E2) as ->.
  apply bind_inr in E as (w2 & transform & E3 & E).
  pose proof (get_prop_world _ _ _ _ _ E3) as ->.
  apply bind_inr in E as (w2 & complex & E4 & E).
  pose proof (get_prop_world _ _ _ _ _ E4) as ->.
  apply bind_inr in E as (w2 & base & E5 & E).
  pose proof (get_prop_world _ _ _ _ _ E5) as ->.
  apply bind_inr in E as (w2 & answer & Er & E).
  apply bind_inr in E as (w3 & records & Ea & E).
  pose proof (array_map_world _ _ _ _ _ (shape_world complex) Ea) as ->.
  apply bind_inr in E as (w3 & wv & [= <- <-] & E).
  destruct (read_post H w2 camelCase transform records) as [[msg]|rows] eqn:Ep;
    [discriminate|]. injection E as <- <-.
  exists w1, cfg, tableName, camelCase, transform, complex, base, answer, records, rows.
  unfold _throttle in Er. repeat split; assumption.
Qed.

Lemma filter_all_falsy (l : list value) :
  Forall (fun x => truthy x = false) l -> List.filter truthy l = [].
Proof.
  induction 1 as [|x l Hx _ IH]; simpl; [reflexivity|]. rewrite Hx. exact IH.
Qed.

Lemma filter_some_truthy (l : list value) :
  Exists (fun x => truthy x = true) l -> List.filter truthy l <> [].
Proof.
  induction 1 as [x l Hx | x l _ IH]; simpl.
  - rewrite Hx. discriminate.
  - destruct (truthy x); [discriminate | exact IH].
Qed.

Lemma filter_all_truthy (l : list value) :
  Forall (fun x => truthy x = true) l -> List.filter truthy l = l.
Proof.
  induction 1 as [|x l Hx _ IH]; simpl; [reflexivity|]. rewrite Hx, IH. reflexivity.
Qed.

Lemma filter_filter_truthy (l : list value) :
  List.filter truthy (List.filter truthy l) = List.filter truthy l.
Proof.
  induction l as [|x l IH]; simpl; [reflexivity|].
  destruct (truthy x) eqn:Hx; simpl; [rewrite Hx, IH; reflexivity | exact IH].
Qed.

(** Lines 596-602 with a caller function [f] as the transform. *)
Lemma read_post_transform w camelCase f records :
  let keyed := if truthy camelCase then camelcaseKeys H records else records in
  let transformed := map (fun el => call_fun H f (spread w el)) keyed in
  (Forall (fun x => truthy x = false) transformed ->
   read_post H w camelCase (VFun f) records = inr (List.filter truthy keyed)) /\
  (Exists (fun x => truthy x = true) transformed ->
   read_post H w camelCase (VFun f) records = inr (List.filter truthy transformed)).
Proof.
  intros keyed transformed. unfold read_post. simpl.
  fold keyed. fold transformed. split; intros Hall.
  - rewrite (filter_all_falsy _ Hall). reflexivity.
  - apply filter_some_truthy in Hall.
    destruct (List.filter truthy transformed) as [|x l] eqn:Ef; [congruence|].
    change ((0 <? length (x :: l))%nat) with true. cbv iota.
    rewrite <- Ef, filter_filter_truthy. reflexivity.
Qed.

(** A [read] that returns with a caller function [f] as the effective
    transform: the records of the store's answer (shaped by [complex]) are
    key-cased first if [camelCase] is on, and [f] is applied to a copy of
    each of those.  If every result is falsy the answer is the key-cased,
    untransformed records (all of them, records being objects); if some
    result is truthy the answer is the truthy results, in order, and
    nothing else. *)
Lemma read_inr_transform_applied this params config w w' v :
  read H this params config w = (w', inr v) ->
  transform_applied H this config w w' v.
Proof.
  intros E. unfold transform_applied.
  apply read_inr in E
    as (w1 & cfg & tableName & camelCase & transform & complex & base & answer
        & records & rows & Em & _ & Ec & Et & Ex & _ & Er & Ea & Ep & ->).
  apply request_inr in Er as (key & container & Hw & Hr). simpl in Hw, Hr.
  eexists w1, cfg, camelCase, complex, _, answer, records.
  split; [exact Em|]. split; [exact Ec|]. split; [exact Ex|].
  split; [rewrite Hw; reflexivity|]. split; [reflexivity|].
  split; [exact Hr|]. split; [exact Ea|].
  intros f Ef. rewrite Ef in Et. injection Et as <-.
  destruct (read_post_transform w' camelCase f records) as (Hnone & Hsome).
  simpl. split.
  - intros Hall. rewrite (Hnone Hall) in Ep. injection Ep as <-.
    split; [reflexivity|]. intros Hobj. rewrite (filter_all_truthy _ Hobj). reflexivity.
  - intros Hex. rewrite (Hsome Hex) in Ep. injection Ep as <-. reflexivity.
Qed.
End read_spec.

(** ** Batches and upsert *)

Section batch_spec.
Variable H : host.

Lemma dispatch_inr {A B} (mapper : A -> M B) siblings input w w' res :
  dispatch mapper siblings input w = (w', inr res) <->
  mapM mapper input w = (w', inr res).
Proof.
  revert w w' res. induction input as [|x xs IH]; intros w w' res; simpl; [reflexivity|].
  unfold bind at 2. destruct (mapper x w) as [w1 [e|y]]; [split; discriminate|].
  unfold bind.
  destruct (dispatch mapper siblings xs w1) as [w2 [e|ys]] eqn:Ed;
    destruct (mapM mapper xs w1) as [w3 [e'|ys']] eqn:Em.
  - split; discriminate.
  - apply IH in Em. congruence.
  - apply IH in Ed. congruence.
  - apply IH in Ed. rewrite Ed in Em. injection Em as -> ->. reflexivity.
Qed.

(** A map that answers was given a positive [concurrency], and its answers
    are those of the mappers run one after the other. *)
Lemma pMap_inr {A B} input (mapper : A -> M B) concurrency w w' res :
  pMap input mapper concurrency w = (w', inr res) <->
  (exists n, concurrency = VNum n /\ (1 <= n)%Z) /\
  mapM mapper input w = (w', inr res).
Proof.
  unfold pMap. split.
  - destruct concurrency; try discriminate.
    destruct (Z.leb_spec 1 n); [|discriminate].
    intros E. apply dispatch_inr in E. eauto.
  - intros ((n & -> & Hn) & E). apply Z.leb_le in Hn. rewrite Hn.
    apply dispatch_inr. exact E.
Qed.

Lemma handleBatch_inr data config iterator w w' v :
  _handleBatch data config iterator w = (w', inr v) ->
  exists res,
    mapM iterator (_chunkData data) w = (w', inr res) /\
    v = (if (1 <? length (flatten res))%nat then VArr (flatten res)
         else nth 0 (flatten res) VUndefined).
Proof.
  intros E. unfold _handleBatch in E.
  apply bind_inr in E as (w1 & conc & Ec & E).
  pose proof (get_prop_world _ _ _ _ _ Ec) as ->.
  apply bind_inr in E as (w2 & res & Er & [= <- <-]).
  apply pMap_inr in Er as (_ & Er).
  exists res. split; [exact Er | reflexivity].
Qed.

Lemma batch_worker_inr method base tableName complex params items w w' v :
  batch_worker H method base tableName complex params items w = (w', inr v) ->
  exists c answer mapped,
    trace w' = trace w ++ [c] /\ heap w' = heap w /\ bases w' = bases w /\
    c_verb c = method /\ c_table c = tableName /\
    c_args c = [VArr items; params] /\
    remote H (trace w) c = inr answer /\
    array_map (shape complex) answer w' = (w', inr mapped) /\
    v = VArr mapped.
Proof.
  intros E. unfold batch_worker, _throttle in E.
  apply bind_inr in E as (w1 & answer & Er & E).
  apply bind_inr in E as (w2 & mapped & Ea & [= <- <-]).
  pose proof (array_map_world _ _ _ _ _ (shape_world complex) Ea) as ->.
  apply request_inr in Er as (key & container & -> & Hr). simpl in *.
  eexists _, answer, mapped. repeat split; try reflexivity; assumption.
Qed.

Lemma batch_workers_inr method base tableName complex params chunks w w' res :
  mapM (batch_worker H method base tableName complex params) chunks w = (w', inr res) ->
  exists calls,
    trace w' = trace w ++ calls /\
    Forall2 (fun c items => c_verb c = method /\ c_table c = tableName /\
                            c_args c = [VArr items; params]) calls chunks.
Proof.
  revert w res. induction chunks as [|items chunks IH]; intros w res E; simpl in E.
  - injection E as <- _. exists []. rewrite app_nil_r. split; [reflexivity | constructor].
  - apply bind_inr in E as (w1 & y & Ey & E).
    apply bind_inr in E as (w2 & ys & Eys & [= <- <-]).
    apply batch_worker_inr in Ey as (c & _ & _ & Ht & _ & _ & Hv & Htab & Hargs & _).
    apply IH in Eys as (calls & Ht' & Hall).
    exists (c :: calls). split.
    + rewrite Ht', Ht, <- app_assoc. reflexivity.
    + constructor; auto.
Qed.

Lemma Forall2_items calls chunks method tableName params :
  Forall2 (fun c items => c_verb c = method /\ c_table c = tableName /\
                          c_args c = [VArr items; params]) calls chunks ->
  map items_of calls = chunks /\ Forall (fun c => c_verb c = method) calls.
Proof.
  induction 1 as [|c items calls chunks (Hv & _ & Ha) _ (IH1 & IH2)]; simpl.
  - split; [reflexivity | constructor].
  - split; [|constructor; assumption].
    f_equal; [|exact IH1]. unfold items_of. rewrite Ha. reflexivity.
Qed.

Lemma chunkData_concat items : concat (_chunkData (VArr items)) = items.
Proof.
  unfold _chunkData. destruct (10 <? length items)%nat.
  - apply chunk_concat_10.
  - simpl. apply app_nil_r.
Qed.

(** A list of one item is chunked as the item itself is, so [create] cannot
    tell the two requests apart. *)
Lemma create_singleton_array this x config :
  truthy x = true -> isArray x = false ->
  create H this (VArr [x]) config = create H this x config.
Proof.
  intros Ht Ha. unfold create, empty_data. rewrite Ht.
  destruct x; try discriminate; reflexivity.
Qed.

End batch_spec.

Section upsert_spec.
Variable H : host.

Lemma mergeConfig_trace this ov w w' r :
  _mergeConfig H this ov w = (w', r) -> trace w' = trace w.
Proof. intros E. apply frame_mergeConfig in E. destruct E as (_ & _ & _ & Ht). exact Ht. Qed.


Lemma row_id_world cfg rec w w' r : row_id cfg rec w = (w', r) -> w' = w.
Proof.
  unfold row_id, bind. destruct (get_prop cfg "complex" w) as [w1 [e|complex]] eqn:Ec.
  - intros [= <- _]. eapply get_prop_world, Ec.
  - apply get_prop_world in Ec as ->. destruct (truthy complex).
    + unfold record_getId. destruct rec; try (intros [= <- _]; reflexivity).
    + apply get_prop_world.
Qed.

Lemma id_and_fields_inr cfg data rows w w' records :
  mapM (id_and_fields cfg data) rows w = (w', inr records) ->
  w' = w /\
  exists ids, mapM (row_id cfg) rows w = (w, inr ids) /\
              records = map (fun id => VObj [("id", id); ("fields", data)]) ids.
Proof.
  revert records. induction rows as [|rec rows IH]; intros records E; simpl in E.
  - injection E as <- <-. split; [reflexivity|]. exists []. auto.
  - apply bind_inr in E as (w1 & y & Ey & E).
    apply bind_inr in E as (w2 & ys & Eys & [= <- <-]).
    unfold id_and_fields in Ey.
    apply bind_inr in Ey as (w3 & id & Ei & [= <- <-]).
    pose proof (row_id_world _ _ _ _ _ Ei) as ->.
    apply IH in Eys as (-> & ids & Eids & ->).
    split; [reflexivity|]. exists (id :: ids). split; [|reflexivity].
    simpl. rewrite (bind_eq _ _ _ _ _ Ei), (bind_eq _ _ _ _ _ Eids). reflexivity.
Qed.

End upsert_spec.

(** ** The code on the demo store *)

(** C1.  [create([record])] answers the bare record, not a sequence of one:
    the collapse of [_handleBatch] looks at the length of the flat result
    only, so a list-shaped request of one item answers as the scalar request
    does, [updateWhere] with one matching row answers a bare record, and an
    empty list answers [undefined]. *)
Example create_array_of_one_answers_bare_record :
  snd (on_fresh_instance (VArr []) VUndefined
         (fun H this => create H this (VArr [foo]) VUndefined))
  = inr (VObj [("id", VStr "recNew"); ("fields", foo);
               ("createdTime", VStr "2020-01-01")]) /\
  snd (on_fresh_instance (VArr []) VUndefined
         (fun H this => create H this foo VUndefined))
  = inr (VObj [("id", VStr "recNew"); ("fields", foo);
               ("createdTime", VStr "2020-01-01")]) /\
  snd (on_fresh_instance (VArr [demo_record (VStr "recA")]) VUndefined
         (fun H this => updateWhere H this (VStr "firstName = 1") foo VUndefined))
  = inr (VObj [("id", VStr "recA"); ("fields", foo);
               ("createdTime", VStr "2020-01-01")]) /\
  snd (on_fresh_instance (VArr []) VUndefined
         (fun H this => delete H this (VArr []) VUndefined))
  = inr VUndefined.
Proof. repeat split; vm_compute; reflexivity. Qed.

(** C2.  An instance built with a transform loses it in a merge with an
    object override that names no transform; the table-name shorthand keeps
    it. *)
Example object_override_drops_instance_transform :
  snd (on_fresh_instance (VArr []) (VObj [("transform", VFun 0)])
         (fun H this =>
            w <- get_world ;;
            stored <- get_prop (this_config this w) "transform" ;;
            o <- alloc {[ "tableName" := VStr "Other" ]} ;;
            cfg <- _mergeConfig H this (VRef o) ;;
            merged <- get_prop cfg "transform" ;;
            named <- _mergeConfig H this (VStr "Other") ;;
            kept <- get_prop named "transform" ;;
            ret (stored, merged, kept)))
  = inr (VFun 0, VUndefined, VFun 0).
Proof. vm_compute. reflexivity. Qed.

(** C3.  The empty array is chunked to one empty chunk: [delete([])] sends
    the store one destroy request with no ids, and so does [truncate] on a
    table that has no rows. *)
Example delete_of_empty_array_sends_a_request :
  _chunkData (VArr []) = [[]] /\
  map (fun c => (c_verb c, c_args c))
      (trace (fst (on_fresh_instance (VArr []) VUndefined
                     (fun H this => delete H this (VArr []) VUndefined))))
  = [(Destroy, [VArr []])] /\
  map (fun c => (c_verb c, c_args c))
      (trace (fst (on_fresh_instance (VArr []) VUndefined
                     (fun H this => truncate H this VUndefined))))
  = [(Select, [VObj []]); (Destroy, [VArr []])].
Proof. repeat split; vm_compute; reflexivity. Qed.

(** C7, as stated, fails on a call without override: the configuration it
    answers has a key other than the current credential, and nothing is
    minted or rebound. *)
Example merge_without_override_mints_nothing :
  apiKey rotated_world = VStr "keyB" /\
  exists c cfg,
    _mergeConfig (demo (VArr [])) 0 VUndefined rotated_world
    = (rotated_world, inr (VRef c)) /\
    heap rotated_world !! c = Some cfg /\
    field cfg "apiKey" = VStr "keyA" /\
    strict_eq (field cfg "apiKey") (apiKey rotated_world) = false.
Proof.
  split; [vm_compute; reflexivity|].
  exists 2, (default ∅ (heap rotated_world !! 2)).
  repeat split; vm_compute; reflexivity.
Qed.

(** ** Instances of the theorems on the demo store *)

(** Eleven items: two chunks that concatenate to the input. *)
Lemma chunkData_sequence_witness :
  10 < length (replicate 11 foo) /\
  length (_chunkData (VArr (replicate 11 foo))) = 2 /\
  concat (_chunkData (VArr (replicate 11 foo))) = replicate 11 foo.
Proof.
  assert (Hlong : 10 < length (replicate 11 foo)) by (simpl; lia).
  destruct (proj2 (chunkData_sequence (replicate 11 foo)) Hlong) as (Hn & Hc & _).
  split; [exact Hlong | split; [exact Hn | exact Hc]].
Defined.

(** An override [{tableName}] at address 3 gains [transform: undefined]. *)
Lemma mergeConfig_writes_caller_override_witness :
  let H := demo (VArr []) in
  let o : gmap string value := {[ "tableName" := VStr "Other" ]} in
  let w := fst (on_fresh_instance (VArr []) VUndefined (fun _ _ => alloc o)) in
  let out := _mergeConfig H 0 (VRef 3) w in
  heap w !! 3 = Some o /\
  is_function (field o "transform") = false /\
  heap (fst out) !! 3 = Some (<["transform" := VUndefined]> o) /\
  heap (fst out) !! 3 <> heap w !! 3.
Proof.
  intros H o w out.
  assert (Hl : heap w !! 3 = Some o) by (vm_compute; reflexivity).
  assert (Hf : is_function (field o "transform") = false) by (vm_compute; reflexivity).
  destruct (mergeConfig_writes_caller_override H 0 3 o w (fst out) (snd out)
              Hl Hf (surjective_pairing out)) as [Hw Hd].
  split; [exact Hl|]. split; [exact Hf|]. split; [exact Hw|].
  apply Hd. vm_compute. discriminate.
Defined.

(** The instance's own configuration object, at address 2, passed as the
    override: it is left as it was. *)
Lemma mergeConfig_keeps_instance_defaults_witness :
  let H := demo (VArr []) in
  let w := fst (on_fresh_instance (VArr []) VUndefined (fun _ _ => ret tt)) in
  let o := default ∅ (heap w !! 2) in
  let out := _mergeConfig H 0 (VRef 2) w in
  this_config 0 w = VRef 2 /\ heap w !! 2 = Some o /\ transform_ok o /\
  this_config 0 (fst out) = VRef 2 /\ heap (fst out) !! 2 = Some o.
Proof.
  intros H w o out.
  assert (Ht : this_config 0 w = VRef 2) by (vm_compute; reflexivity).
  assert (Hc : heap w !! 2 = Some o) by (vm_compute; reflexivity).
  assert (Hok : transform_ok o).
  { exists VUndefined. split; [vm_compute; reflexivity | right; reflexivity]. }
  destruct (mergeConfig_keeps_instance_defaults H 0 2 o (VRef 2) w (fst out) (snd out)
              Ht Hc Hok (surjective_pairing out)) as (Ht' & Hc' & _).
  repeat split; assumption.
Defined.

(** An override that changes the key: the merge mints a handle. *)
Lemma mergeConfig_resolves_handle_witness :
  let H := demo (VArr []) in
  let w := fst (on_fresh_instance (VArr []) (VObj [("apiKey", VStr "keyA")])
                  (fun _ _ => alloc {[ "apiKey" := VStr "keyB" ]})) in
  let out := _mergeConfig H 0 (VRef 3) w in
  truthy (VRef 3) = true /\ snd out = inr (VRef 4) /\
  handle_resolved H 0 (VRef 3) w (fst out) (VRef 4).
Proof.
  intros H w out.
  assert (E : out = (fst out, inr (VRef 4))) by (vm_compute; reflexivity).
  split; [reflexivity|]. split; [vm_compute; reflexivity|].
  exact (proj2 (mergeConfig_resolves_handle H 0 (VRef 3) w) eq_refl (fst out) (VRef 4) E).
Defined.

(** * Further properties *)

(** ** Column filters *)

Lemma has_space_app a b : has_space (a +:+ b) = has_space a || has_space b.
Proof.
  induction a as [|c a IH]; simpl; [reflexivity|].
  rewrite IH. apply orb_assoc.
Qed.

(** X1.  A column name without whitespace is used as it is, a name with a
    space anywhere in it is wrapped in braces, and no name at all gives the
    empty string. *)
Theorem formatColumnFilter_wraps_spaced_names (H : host) (s : string) :
  (has_space s = false -> _formatColumnFilter H (VStr s) = s) /\
  (forall a b, s = a +:+ " " +:+ b ->
               _formatColumnFilter H (VStr s) = "{" +:+ s +:+ "}") /\
  _formatColumnFilter H VUndefined = "".
Proof.
  split; [|split].
  - intros Hs. unfold _formatColumnFilter. simpl. rewrite Hs. reflexivity.
  - intros a b ->. unfold _formatColumnFilter. simpl.
    rewrite has_space_app. simpl. rewrite orb_true_r. reflexivity.
  - reflexivity.
Qed.

Lemma split_nonempty sep s : V1.split sep s <> [].
Proof.
  destruct s as [|c s]; simpl; [discriminate|].
  destruct (Ascii.eqb c sep); [discriminate|].
  destruct (V1.split sep s); discriminate.
Qed.

Lemma split_pieces sep s :
  (1 <? length (V1.split sep s))%nat = has_char sep s.
Proof.
  induction s as [|c s IH]; [reflexivity|]. simpl.
  destruct (Ascii.eqb c sep); simpl.
  - pose proof (split_nonempty sep s) as Hne.
    destruct (V1.split sep s); [congruence | reflexivity].
  - pose proof (split_nonempty sep s) as Hne.
    destruct (V1.split sep s) as [|p ps]; [congruence|]. exact IH.
Qed.

Lemma has_char_space s : has_char " " s = true -> has_space s = true.
Proof.
  induction s as [|c s IH]; simpl; [discriminate|].
  destruct (Ascii.eqb_spec c " ") as [->|Hne]; simpl; [reflexivity|].
  intros Hs. rewrite (IH Hs). apply orb_true_r.
Qed.

(** X2.  The filter of the class that batches agrees with the filter of
    the class that does not, except that it also wraps names the older one
    leaves bare (names whose whitespace is no space). *)
Theorem formatColumnFilter_extends_V1 (H : host) (columnName : value) :
  _formatColumnFilter H columnName = V1._formatColumnFilter H columnName \/
  _formatColumnFilter H columnName
  = "{" +:+ V1._formatColumnFilter H columnName +:+ "}".
Proof.
  unfold _formatColumnFilter, V1._formatColumnFilter. simpl.
  set (t := to_string H match columnName with VUndefined => VStr "" | _ => columnName end).
  change ("" +:+ t) with t. rewrite split_pieces.
  destruct (has_char " " t) eqn:Hc.
  - rewrite (has_char_space t Hc). left. reflexivity.
  - destruct (has_space t); [right | left]; reflexivity.
Qed.

(** The two filters do differ: a name with a tab in it. *)
Example formatColumnFilter_differs_on_tab :
  let name := VStr ("Foo" +:+ String (ascii_of_nat 9) "Bar") in
  V1._formatColumnFilter (demo (VArr [])) name <> _formatColumnFilter (demo (VArr [])) name.
Proof. vm_compute. discriminate. Qed.

(** ** Chunks *)

(** X3.  Whatever the input, there is at least one chunk and no chunk has
    more than ten items; unless the input is the empty array, no chunk is
    empty. *)
Theorem chunkData_ceiling (data : value) :
  _chunkData data <> [] /\
  Forall (fun c => length c <= 10) (_chunkData data) /\
  (data <> VArr [] -> Forall (fun c => 1 <= length c) (_chunkData data)).
Proof.
  destruct data as [| | | | | | | |items| |];
    try (split; [discriminate | split; [|intros _]; repeat constructor]).
  unfold _chunkData. destruct (Nat.ltb_spec 10 (length items)) as [Hgt|Hle].
  - pose proof (Nat.div_mod (length items + 10 - 1) 10) as Hd.
    pose proof (Nat.mod_upper_bound (length items + 10 - 1) 10) as Hm.
    split; [|split].
    + intros E. apply (f_equal length) in E. rewrite chunk_length in E.
      change (length []) with 0 in E. lia.
    + apply Forall_lookup. intros i c Hi.
      apply chunk_lookup in Hi as (_ & ->). rewrite length_take. lia.
    + intros _. apply Forall_lookup. intros i c Hi.
      apply chunk_lookup in Hi as (Hlt & ->). rewrite length_take, length_drop. lia.
  - split; [discriminate|]. split; [constructor; [exact Hle | constructor]|].
    intros Hne. constructor; [|constructor].
    destruct items; [congruence | simpl; lia].
Qed.

(** ** Batches *)

Lemma flatten_plain (l : list value) :
  Forall plain l -> flat_map flatten_value l = l.
Proof.
  induction 1 as [|x l Hx _ IH]; simpl; [reflexivity|].
  rewrite IH. destruct x; try discriminate; reflexivity.
Qed.

Lemma flatten_arrays (chunks : list (list value)) :
  flatten (map VArr chunks) = flat_map flatten_value (concat chunks).
Proof.
  unfold flatten. induction chunks as [|c chunks IH]; simpl; [reflexivity|].
  rewrite IH, flat_map_app. reflexivity.
Qed.

Lemma mapM_ret {A B} (f : A -> B) (l : list A) w :
  mapM (fun x => ret (f x)) l w = (w, inr (map f l)).
Proof.
  induction l as [|x l IH]; simpl; [reflexivity|].
  unfold bind at 1. simpl. unfold bind at 1. rewrite IH. reflexivity.
Qed.

(** X4.  With the worker that answers each chunk as it is, a batch over an
    array of records, under a configuration whose [concurrency] is a
    positive integer, gives the records back in input order (collapsed as
    line 1041 has it), whatever the length: chunking and flattening undo
    each other, and the state is as it was. *)
Theorem handleBatch_identity_worker (items : list value) (config : value) n w :
  Forall plain items ->
  get_prop config "concurrency" w = (w, inr (VNum n)) -> (1 <= n)%Z ->
  _handleBatch (VArr items) config (fun chunk => ret (VArr chunk)) w
  = (w, inr (collapse items)).
Proof.
  intros Hp Hc Hn. unfold _handleBatch.
  rewrite (bind_eq _ _ _ _ _ Hc).
  assert (Hmap : pMap (_chunkData (VArr items)) (fun chunk => ret (VArr chunk)) (VNum n) w
                 = (w, inr (map VArr (_chunkData (VArr items))))).
  { apply pMap_inr. split; [eauto | apply mapM_ret]. }
  rewrite (bind_eq _ _ _ _ _ Hmap).
  rewrite flatten_arrays, chunkData_concat, (flatten_plain _ Hp). reflexivity.
Qed.

Section batch_edges.
Variable H : host.

(** X5.  [update] and [replace] of an array without a configuration (the
    call [update([...])]) never answer: line 659 hands the absent argument
    to [_handleBatch], which fails to destructure it.  No request is sent
    and nothing is written. *)
Theorem update_array_without_config_rejects method this records extra w :
  exists e,
    update_or_replace H method this (VArr records) VUndefined extra w = (w, inl e).
Proof.
  unfold update_or_replace. simpl.
  rewrite (bind_eq _ _ _ _ _ (mergeConfig_absent H this VUndefined w eq_refl)).
  destruct (this_config this w) eqn:Ec;
    try (eexists; reflexivity).
Qed.
End batch_edges.

(** ** More on the merge *)

Section merge_more.
Variable H : host.

Lemma override_of_cases ov w w1 r :
  override_of ov w = (w1, r) ->
  w1 = w \/
  exists l, ov = VRef l /\
            w1 = set_heap (alter (fun o => <["transform" := VUndefined]> o) l (heap w)) w.
Proof.
  unfold override_of.
  destruct (String.eqb (typeof ov) "string"); [intros [= <- _]; auto|].
  destruct (String.eqb (typeof ov) "object"); [|intros [= <- _]; auto].
  unfold bind, get_prop.
  destruct ov; simpl; try (intros [= <- _]; auto; fail);
    try (destruct (is_function _); simpl; intros [= <- _]; eauto; fail).
Qed.

Lemma written_lookup l w v k :
  k <> "transform" ->
  own_props (set_heap (alter (fun o => <["transform" := VUndefined]> o) l (heap w)) w) v !! k
  = own_props w v !! k.
Proof.
  intros Hk. destruct v; try reflexivity. simpl.
  destruct (decide (l = l0)) as [<-|Hne].
  - rewrite list_lookup_alter_eq. destruct (heap w !! l); simpl; [|reflexivity].
    apply lookup_insert_ne. congruence.
  - rewrite list_lookup_alter_ne by exact Hne. reflexivity.
Qed.

Lemma written_this_config l w this :
  this_config this
    (set_heap (alter (fun o => <["transform" := VUndefined]> o) l (heap w)) w)
  = this_config this w.
Proof.
  unfold this_config. simpl. destruct (decide (l = this)) as [<-|Hne].
  - rewrite list_lookup_alter_eq. destruct (heap w !! l); simpl; [|reflexivity].
    rewrite lookup_insert_ne by discriminate. reflexivity.
  - rewrite list_lookup_alter_ne by exact Hne. reflexivity.
Qed.

(** The instance's properties as the merge reads them, after the write of
    line 980. *)
Lemma instance_lookup_after_override ov w w1 r this k :
  override_of ov w = (w1, r) -> k <> "transform" ->
  own_props w1 (this_config this w1) !! k = own_props w (this_config this w) !! k.
Proof.
  intros E Hk. apply override_of_cases in E as [->|(l & _ & ->)]; [reflexivity|].
  rewrite written_this_config. apply written_lookup, Hk.
Qed.

(** The merged properties, for a merge that returns. *)
Lemma mergeConfig_lookup this ov w w' r k :
  truthy ov = true ->
  _mergeConfig H this ov w = (w', inr r) ->
  k <> "base" -> k <> "transform" ->
  exists w1 override cfg,
    override_of ov w = (w1, inr override) /\
    r = VRef (length (heap w1)) /\
    heap w' !! length (heap w1) = Some cfg /\
    cfg !! k = match override !! k with
               | Some x => Some x
               | None => own_props w (this_config this w) !! k
               end.
Proof.
  intros Ht E Hb Hk.
  apply (mergeConfig_inr H this ov w w' r Ht) in E
    as (w1 & w2 & override & cfg & Eo & Er & -> & ->).
  apply resolve_base_inr in Er as (h & key & -> & _ & _ & Hh & _ & _).
  eexists w1, override, _. split; [exact Eo|]. split; [reflexivity|].
  split; [simpl; rewrite Hh; apply lookup_fresh|].
  rewrite lookup_insert_ne by congruence.
  destruct (override !! k) as [x|] eqn:Ex.
  - apply lookup_union_Some_l. exact Ex.
  - rewrite lookup_union_r by exact Ex.
    eapply instance_lookup_after_override; [exact Eo | exact Hk].
Qed.

(** X6.  In a merge with an object override, the override wins key by key:
    every key but [transform] and [base] holds the override's value when the
    override has the key, and the instance's value otherwise. *)
Theorem mergeConfig_override_wins_per_key this l o w w' c k :
  heap w !! l = Some o ->
  k <> "base" -> k <> "transform" ->
  _mergeConfig H this (VRef l) w = (w', inr (VRef c)) ->
  exists cfg,
    heap w' !! c = Some cfg /\
    cfg !! k = match o !! k with
               | Some x => Some x
               | None => own_props w (this_config this w) !! k
               end.
Proof.
  intros Hl Hb Hk E.
  apply (mergeConfig_lookup this (VRef l) w w' (VRef c) k eq_refl) in E
    as (w1 & override & cfg & Eo & [= ->] & Hc & Hlook); [|exact Hb|exact Hk].
  exists cfg. split; [exact Hc|]. rewrite Hlook.
  destruct (is_function (field o "transform")) eqn:Hf.
  - rewrite (override_of_ref_keep l o w Hl Hf) in Eo. injection Eo as _ <-. reflexivity.
  - rewrite (override_of_ref_write l o w Hl Hf) in Eo. injection Eo as _ <-.
    rewrite lookup_insert_ne by congruence. reflexivity.
Qed.

(** X7.  A string override is the table name: the merged configuration has
    it as [tableName] and the instance's value under every other key but
    [base].  The empty string is no override at all: the instance
    configuration itself is answered. *)
Theorem mergeConfig_string_is_table_name this s w :
  (s <> "" ->
   forall w' r, _mergeConfig H this (VStr s) w = (w', inr r) ->
   exists c cfg,
     r = VRef c /\ heap w' !! c = Some cfg /\
     cfg !! "tableName" = Some (VStr s) /\
     forall k, k <> "tableName" -> k <> "base" ->
               cfg !! k = own_props w (this_config this w) !! k) /\
  _mergeConfig H this (VStr "") w = (w, inr (this_config this w)).
Proof.
  split; [|reflexivity].
  intros Hs w' r E.
  assert (Ht : truthy (VStr s) = true).
  { simpl. destruct (String.eqb_spec s ""); [congruence | reflexivity]. }
  apply (mergeConfig_inr H this (VStr s) w w' r Ht) in E
    as (w1 & w2 & override & cfg & Eo & Er & -> & ->).
  injection Eo as <- <-.
  apply resolve_base_inr in Er as (h & key & -> & _ & _ & Hh & _ & _).
  eexists _, _. split; [reflexivity|].
  split; [simpl; rewrite Hh; apply lookup_fresh|]. split.
  - rewrite lookup_insert_ne by discriminate.
    apply lookup_union_Some_l, lookup_singleton_eq.
  - intros k Hk Hb. rewrite lookup_insert_ne by congruence.
    rewrite lookup_union_r; [reflexivity|]. apply lookup_singleton_ne. congruence.
Qed.
End merge_more.

Section merge_again.
Variable H : host.

Lemma resolve_base_reuse cfg w h key :
  field cfg "apiKey" = apiKey w ->
  field cfg "base" = VBase h ->
  bases w !! h = Some (key, field cfg "baseID") ->
  resolve_base H cfg w = (w, inr cfg).
Proof.
  intros Hk Hb Hh. unfold resolve_base, bind, get_world.
  rewrite Hk, (proj2 (strict_eq_true _ _) eq_refl). simpl.
  rewrite Hb. simpl. rewrite Hh.
  rewrite (proj2 (strict_eq_true _ _) eq_refl). reflexivity.
Qed.

Lemma override_of_ok l cfg w :
  heap w !! l = Some cfg -> transform_ok cfg ->
  override_of (VRef l) w = (w, inr cfg).
Proof.
  intros Hl Hok.
  destruct (override_of (VRef l) w) as [w1 r] eqn:E.
  pose proof (override_of_idle l cfg w w1 r Hl Hok E) as ->.
  destruct Hok as (t & Ht & [Hf | ->]).
  - rewrite <- E. apply override_of_ref_keep; [exact Hl|].
    unfold field. rewrite Ht. exact Hf.
  - rewrite (override_of_ref_write l cfg w Hl) in E
      by (unfold field; rewrite Ht; reflexivity).
    injection E as _ <-. rewrite insert_id by exact Ht. reflexivity.
Qed.

Lemma get_prop_transform v w w' t :
  get_prop v "transform" w = (w', inr t) ->
  t = default VUndefined (own_props w v !! "transform").
Proof.
  unfold get_prop. destruct v; try discriminate; intros [= _ <-]; reflexivity.
Qed.

Lemma override_transform ov w w1 override :
  override_of ov w = (w1, inr override) ->
  override !! "transform" = None \/ transform_ok override.
Proof.
  unfold override_of.
  destruct (String.eqb (typeof ov) "string").
  { intros [= _ <-]. left. apply lookup_singleton_ne. discriminate. }
  destruct (String.eqb (typeof ov) "object"); [|intros [= _ <-]; left; apply lookup_empty].
  intros E. apply bind_inr in E as (w2 & t & Et & E).
  pose proof (get_prop_world _ _ _ _ _ Et) as ->.
  destruct (is_function t) eqn:Hf.
  - apply bind_inr in E as (w3 & wv & [= <- <-] & [= _ <-]).
    right. exists t. split; [|left; exact Hf].
    apply get_prop_transform in Et. subst t.
    destruct (own_props w ov !! "transform"); [reflexivity | discriminate].
  - apply bind_inr in E as (w3 & u & _ & E).
    apply bind_inr in E as (w4 & wv & [= <- <-] & [= _ <-]).
    right. exists VUndefined. split; [apply lookup_insert_eq | right; reflexivity].
Qed.

Lemma override_keeps_instance this c0 o0 ov w w1 r :
  this_config this w = VRef c0 -> heap w !! c0 = Some o0 -> transform_ok o0 ->
  override_of ov w = (w1, r) ->
  this_config this w1 = VRef c0 /\ heap w1 !! c0 = Some o0.
Proof.
  intros Ht Hc Hok E.
  destruct (decide (ov = VRef c0)) as [->|Hne].
  - apply (override_of_idle c0 o0 w w1 r Hc Hok) in E as ->. auto.
  - apply override_of_cases in E as [->|(l & -> & ->)]; [auto|].
    rewrite written_this_config. split; [exact Ht|]. simpl.
    rewrite list_lookup_alter_ne by congruence. exact Hc.
Qed.

(** X9.  What a constructor stores stays: the instance it answers refers
    to a configuration whose [transform] is a function or [undefined] and
    whose handle answers its [baseID], and that is still so after any merge
    on that instance, with any override, returned or thrown. *)
Theorem constructed_instance_stays_ok config w w1 this :
  constructor H config w = (w1, inr this) ->
  exists c cfg,
    instance_ok this c cfg w1 /\
    forall ov w2 r, _mergeConfig H this ov w1 = (w2, r) -> instance_ok this c cfg w2.
Proof.
  intros E. apply constructor_instance_ok in E as (c & cfg & Hi).
  exists c, cfg. split; [exact Hi|].
  intros ov w2 r Em. eapply merge_instance_ok; [exact Hi | exact Em].
Qed.
End merge_again.

(** ** Settled configurations *)

Section settled_spec.
Variable H : host.

Lemma getId_inr base w w' x :
  getId base w = (w', inr x) ->
  exists h key, base = VBase h /\ bases w !! h = Some (key, x).
Proof.
  unfold getId. destruct base; try discriminate.
  destruct (bases w !! h) as [[key container]|] eqn:Eh; [|discriminate].
  intros [= _ <-]. eauto.
Qed.

(** A merge with a settled configuration as the override copies it. *)
Lemma remerge_settled this c o w :
  settled this c o w ->
  _mergeConfig H this (VRef c) w
  = (set_heap (heap w ++ [o]) w, inr (VRef (length (heap w)))).
Proof.
  intros (Hc & Hok & Hkey & (h & key & Hb & Hh) & c0 & o0 & Hthis & Hc0 & Hcover).
  unfold _mergeConfig. cbn [truthy negb].
  rewrite (bind_eq _ _ _ _ _ (override_of_ok c o w Hc Hok)).
  rewrite (bind_eq _ _ w w w eq_refl).
  rewrite Hthis.
  replace (own_props w (VRef c0)) with o0 by (unfold own_props; rewrite Hc0; reflexivity).
  rewrite Hcover.
  rewrite (bind_eq _ _ _ _ _ (resolve_base_reuse H o w h key Hkey Hb Hh)). reflexivity.
Qed.




(** What a merge answers on an instance as its constructor left it is
    settled: always under an override, and without one when the
    process-wide credential is the instance's. *)
Lemma merge_settles this c0 o0 ov w w1 r :
  instance_ok this c0 o0 w ->
  (truthy ov = true \/ field o0 "apiKey" = apiKey w) ->
  _mergeConfig H this ov w = (w1, inr r) ->
  exists c o, r = VRef c /\ settled this c o w1.
Proof.
  intros Hi Hkey E. pose proof (merge_instance_ok H this c0 o0 ov w w1 _ Hi E) as Hi1.
  destruct (truthy ov) eqn:Ht.
  - destruct Hi as (Hthis & Hc0 & Hok & _).
    apply (mergeConfig_inr H this ov w w1 _ Ht) in E
      as (wa & wb & override & cfg & Eo & Er & -> & ->).
    destruct (override_keeps_instance this c0 o0 ov w wa _ Hthis Hc0 Hok Eo) as (Hta & Hca).
    apply override_transform in Eo as Hov.
    apply resolve_base_inr in Er as (h & key & -> & Hb & Hk & Hh & _ & _).
    set (merged := override ∪ own_props wa (this_config this wa)) in *.
    assert (Hm : own_props wa (this_config this wa) = o0).
    { rewrite Hta. simpl. rewrite Hca. reflexivity. }
    exists (length (heap wa)), (<["base" := VBase h]> merged).
    split; [reflexivity|].
    split; [simpl; rewrite Hh; apply lookup_fresh|]. split.
    { unfold transform_ok. setoid_rewrite lookup_insert_ne; [|discriminate].
      destruct Hov as [Hnone | (t & Hsome & Hgood)].
      - destruct Hok as (t & Hsome & Hgood). exists t. split; [|exact Hgood].
        unfold merged. rewrite lookup_union_r by exact Hnone. rewrite Hm. exact Hsome.
      - exists t. split; [|exact Hgood]. apply lookup_union_Some_l. exact Hsome. }
    split; [rewrite field_insert_ne by discriminate; symmetry; exact Hk|].
    split.
    { exists h, key. split; [apply field_insert_eq|].
      rewrite field_insert_ne by discriminate. exact Hb. }
    destruct Hi1 as (Ht1 & Hc1 & _). exists c0, o0.
    split; [exact Ht1|]. split; [exact Hc1|].
    apply map_eq. intros k. destruct ((<["base" := VBase h]> merged) !! k) as [x|] eqn:Ex.
    + apply lookup_union_Some_l. exact Ex.
    + rewrite lookup_union_r by exact Ex.
      apply lookup_insert_None in Ex as (Ex & _).
      unfold merged in Ex. apply lookup_union_None in Ex as (_ & Ex).
      rewrite Hm in Ex. exact Ex.
  - destruct Hkey as [Hkey | Hkey]; [discriminate|].
    rewrite (mergeConfig_absent H this ov w Ht) in E. injection E as <- <-.
    destruct Hi as (Hthis & Hc0 & Hok & Hid).
    apply getId_inr in Hid as (h & key & Hb & Hh).
    exists c0, o0. split; [exact Hthis|].
    split; [exact Hc0|]. split; [exact Hok|]. split; [exact Hkey|].
    split; [eauto|]. exists c0, o0. split; [exact Hthis|]. split; [exact Hc0|].
    apply map_eq. intros k. destruct (o0 !! k) as [x|] eqn:Ex.
    + apply lookup_union_Some_l. exact Ex.
    + rewrite lookup_union_r by exact Ex. exact Ex.
Qed.

(** X8.  Operations hand the configuration they merged to the operations
    they call, which merge it again.  On an instance as its constructor left
    it, when the first merge had an override, or had none while the
    process-wide credential was the instance's, that second merge is idle:
    it answers a fresh copy with the same properties, mints no handle,
    rebinds no credential and writes to no object.  (Without an override
    and with another credential in place, the first merge answers the
    instance's configuration as it is, and the second one rebinds the
    credential and mints a handle.) *)
Theorem remerge_copies_configuration this c0 o0 ov w w1 c :
  instance_ok this c0 o0 w ->
  (truthy ov = true \/ field o0 "apiKey" = apiKey w) ->
  _mergeConfig H this ov w = (w1, inr (VRef c)) ->
  exists cfg,
    heap w1 !! c = Some cfg /\
    _mergeConfig H this (VRef c) w1
    = (set_heap (heap w1 ++ [cfg]) w1, inr (VRef (length (heap w1)))).
Proof.
  intros Hi Hkey E.
  destruct (merge_settles this c0 o0 ov w w1 _ Hi Hkey E) as (c' & o & [= <-] & Hset).
  exists o. split; [apply Hset | apply remerge_settled, Hset].
Qed.

(** The second merge after a rotation of the credential: a handle is
    minted. *)
Example remerge_after_rotation_mints :
  let H := demo (VArr []) in
  _mergeConfig H 0 VUndefined rotated_world = (rotated_world, inr (VRef 2)) /\
  length (bases (fst (_mergeConfig H 0 (VRef 2) rotated_world)))
  = S (length (bases rotated_world)).
Proof. split; vm_compute; reflexivity. Qed.
End settled_spec.

Section merge_mints.
Variable H : host.

Lemma mint_cases baseId w w' r :
  Airtable_base H baseId w = (w', r) ->
  (w' = w /\ exists e, r = inl e) \/
  (w' = set_bases (bases w ++ [(effective_key H (apiKey w), baseId)]) w /\
   r = inr (VBase (length (bases w)))).
Proof.
  unfold Airtable_base. simpl.
  destruct (truthy (effective_key H (apiKey w))); intros [= <- <-]; eauto.
Qed.

Lemma resolve_base_mints cfg w w' r :
  resolve_base H cfg w = (w', r) ->
  bases w' = bases w \/
  exists x cfg', bases w' = bases w ++ [x] /\ r = inr cfg'.
Proof.
  intros E. unfold resolve_base in E. unfold bind at 1 in E. simpl in E.
  destruct (strict_eq (field cfg "apiKey") (apiKey w)) eqn:Ek; simpl in E.
  - unfold bind at 1 in E. simpl in E.
    destruct (truthy (field cfg "base")) eqn:Eb; simpl in E.
    + unfold bind at 1 2 in E.
      destruct (getId (field cfg "base") w) as [wg [e|i]] eqn:Eg.
      * injection E as <- _. left.
        unfold getId in Eg. destruct (field cfg "base"); try (injection Eg as <- _; reflexivity).
        destruct (bases w !! h) as [[]|]; injection Eg as <- _; reflexivity.
      * assert (wg = w) as ->.
        { unfold getId in Eg. destruct (field cfg "base"); try discriminate.
          destruct (bases w !! h) as [[]|]; [|discriminate]. injection Eg as <- _. reflexivity. }
        simpl in E. destruct (negb (strict_eq (field cfg "baseID") i)).
        -- unfold bind in E.
           destruct (Airtable_base H (field cfg "baseID") w) as [wm rm] eqn:Em.
           apply mint_cases in Em as [(-> & e & ->) | (-> & ->)].
           ++ injection E as <- _. left. reflexivity.
           ++ injection E as <- <-. right. eauto.
        -- injection E as <- _. left. reflexivity.
    + unfold bind in E. simpl in E.
      destruct (Airtable_base H (field cfg "baseID") w) as [wm rm] eqn:Em.
      apply mint_cases in Em as [(-> & e & ->) | (-> & ->)].
      * injection E as <- _. left. reflexivity.
      * injection E as <- <-. right. eauto.
  - unfold bind at 1 2 3 in E. unfold modify in E.
    destruct (Airtable_base H (field cfg "baseID") (set_apiKey (field cfg "apiKey") w))
      as [wm rm] eqn:Em.
    apply mint_cases in Em as [(-> & e & ->) | (-> & ->)].
    + injection E as <- _. left. reflexivity.
    + simpl in E. rewrite field_insert_eq in E. simpl in E.
      unfold bind at 1 2 in E. unfold getId in E. simpl in E.
      rewrite lookup_fresh in E. simpl in E.
      rewrite field_insert_ne in E by discriminate.
      rewrite (proj2 (strict_eq_true _ _) eq_refl) in E. simpl in E.
      injection E as <- <-. right. simpl. eauto.
Qed.

(** X10.  A merge mints at most one handle, although lines 986-991 have two
    places that mint; and a merge that throws has minted none. *)
Theorem mergeConfig_mints_at_most_one this ov w w' r :
  _mergeConfig H this ov w = (w', r) ->
  bases w' = bases w \/
  exists x cfg, bases w' = bases w ++ [x] /\ r = inr cfg.
Proof.
  unfold _mergeConfig. destruct (negb (truthy ov)); [intros [= <- _]; auto|].
  intros E. unfold bind at 1 in E.
  destruct (override_of ov w) as [w1 [e|override]] eqn:Eo.
  - injection E as <- _. left. apply (override_of_world ov w w1 _ Eo).
  - apply override_of_world in Eo as (Hb & _). rewrite <- Hb.
    unfold bind at 1 2 in E. simpl in E.
    destruct (resolve_base H _ w1) as [w2 [e|cfg]] eqn:Er.
    + injection E as <- _. apply resolve_base_mints in Er as [Hs | (x & c & Hs & Hc)];
        [left; exact Hs | discriminate].
    + unfold bind in E. simpl in E. injection E as <- <-. simpl.
      apply resolve_base_mints in Er as [Hs | (x & c & Hs & _)]; [auto|].
      right. eauto.
Qed.
End merge_mints.

(** ** Which requests a method sends *)

#[global] Instance sends_preorder P : PreOrder (sends P).
Proof.
  split.
  - intros w. exists []. rewrite app_nil_r. split; [reflexivity | constructor].
  - intros w1 w2 w3 (a & Ha & Pa) (b & Hb & Pb). exists (a ++ b).
    rewrite Hb, Ha, app_assoc. split; [reflexivity|].
    apply Forall_app. split; assumption.
Qed.

Lemma sends_weaken (P Q : call -> Prop) w w' :
  (forall c, P c -> Q c) -> sends P w w' -> sends Q w w'.
Proof.
  intros HPQ (calls & Ht & HP). exists calls. split; [exact Ht|].
  eapply Forall_impl; [exact HP | exact HPQ].
Qed.

Section traffic.
Variable H : host.

Lemma stable_pure (R : relation world) `{!PreOrder R} {A} (m : M A) :
  (forall w w' r, m w = (w', r) -> w' = w) -> stable R m.
Proof. intros Hm w w' r E. rewrite (Hm _ _ _ E). reflexivity. Qed.

Lemma sends_mergeConfig P this ov : stable (sends P) (_mergeConfig H this ov).
Proof.
  intros w w' r E. exists []. rewrite app_nil_r.
  split; [eapply mergeConfig_trace, E | constructor].
Qed.

Lemma sends_request (P : call -> Prop) base table v args :
  (forall c, c_verb c = v -> P c) -> stable (sends P) (request H base table v args).
Proof.
  intros HP w w' r E. unfold request in E.
  destruct base; try (injection E as <- _; reflexivity).
  destruct (bases w !! h) as [[key container]|]; injection E as <- _; [|reflexivity].
  exists [Call key container table v args]. split; [reflexivity|].
  constructor; [apply HP; reflexivity | constructor].
Qed.

Section generic.
Context (R : relation world) `{!PreOrder R}.

Lemma stable_array_map f records :
  (forall a, stable R (f a)) -> stable R (array_map f records).
Proof.
  intros Hf. unfold array_map.
  destruct records; try (apply stable_throw, _). apply stable_mapM; [apply _ | exact Hf].
Qed.

Lemma stable_shape complex record : stable R (shape complex record).
Proof. apply stable_pure; [apply _|]. apply shape_world. Qed.

Lemma stable_row_id cfg rec : stable R (row_id cfg rec).
Proof. apply stable_pure; [apply _|]. apply row_id_world. Qed.

Lemma stable_id_and_fields cfg data rec : stable R (id_and_fields cfg data rec).
Proof.
  unfold id_and_fields. apply stable_bind; [apply _ | apply stable_row_id |].
  intros id. apply stable_ret, _.
Qed.

Lemma stable_in_flight {A B} (mapper : A -> M B) siblings input :
  (forall a, stable R (mapper a)) -> stable R (in_flight mapper siblings input).
Proof.
  intros Hm. revert input. induction siblings as [|n IH]; intros input.
  - destruct input; apply stable_ret, _.
  - destruct input as [|x xs]; [apply stable_ret, _|].
    intros w w' r E. simpl in E.
    transitivity (fst (mapper x w)).
    + eapply (Hm x w _ (snd (mapper x w))). apply surjective_pairing.
    + eapply IH, E.
Qed.

Lemma stable_dispatch {A B} (mapper : A -> M B) siblings input :
  (forall a, stable R (mapper a)) -> stable R (dispatch mapper siblings input).
Proof.
  intros Hm. induction input as [|x xs IH]; [apply stable_ret, _|].
  intros w w' r E. simpl in E.
  destruct (mapper x w) as [w1 [e|y]] eqn:Ex.
  - injection E as <- _. transitivity w1; [eapply Hm, Ex|].
    eapply (stable_in_flight mapper siblings xs Hm w1 _ (snd (in_flight mapper siblings xs w1))).
    apply surjective_pairing.
  - transitivity w1; [eapply Hm, Ex|]. revert E.
    apply stable_bind; [apply _ | exact IH |]. intros ys. apply stable_ret, _.
Qed.

Lemma stable_pMap {A B} input (mapper : A -> M B) concurrency :
  (forall a, stable R (mapper a)) -> stable R (pMap input mapper concurrency).
Proof.
  intros Hm. unfold pMap. destruct concurrency; try (apply stable_throw, _).
  destruct (1 <=? n)%Z; [apply stable_dispatch, Hm | apply stable_throw, _].
Qed.

Lemma stable_handleBatch data config iterator :
  (forall items, stable R (iterator items)) -> stable R (_handleBatch data config iterator).
Proof.
  intros Hi. unfold _handleBatch.
  apply stable_bind; [apply _ | apply stable_get_prop, _ |]. intros concurrency.
  apply stable_bind; [apply _ | apply stable_pMap, Hi |].
  intros res. apply stable_ret, _.
Qed.
End generic.

Ltac prop :=
  apply stable_bind; [apply _ | apply stable_get_prop, _ | intros ?].

Lemma sends_read P this params config :
  (forall c, c_verb c = Select -> P c) -> stable (sends P) (read H this params config).
Proof.
  intros HP. unfold read, _throttle.
  apply stable_bind; [apply _ | apply sends_mergeConfig |]. intros cfg. do 5 prop.
  apply stable_bind; [apply _ | apply sends_request, HP |]. intros records.
  apply stable_bind; [apply _ | apply stable_array_map; [apply _|]; intros ?; apply stable_shape, _ |].
  intros shaped. apply stable_bind; [apply _ | apply stable_get_world, _ |]. intros w0.
  destruct (read_post _ _ _ _ _) as [[msg]|rows]; [apply stable_throw, _ | apply stable_ret, _].
Qed.

Lemma sends_batch_worker P method base tableName complex params items :
  (forall c, c_verb c = method -> P c) ->
  stable (sends P)
    (records <- _throttle (request H base tableName method [VArr items; params]) ;;
     mapped <- array_map (shape complex) records ;;
     ret (VArr mapped)).
Proof.
  intros HP. unfold _throttle.
  apply stable_bind; [apply _ | apply sends_request, HP |]. intros records.
  apply stable_bind; [apply _ | apply stable_array_map; [apply _|]; intros ?; apply stable_shape, _ |].
  intros mapped. apply stable_ret, _.
Qed.

Lemma sends_create P this data config :
  (forall c, c_verb c = Create -> P c) -> stable (sends P) (create H this data config).
Proof.
  intros HP. unfold create. destruct (empty_data data); [apply stable_throw, _|].
  apply stable_bind; [apply _ | apply sends_mergeConfig |]. intros cfg. do 4 prop.
  apply stable_handleBatch; [apply _|]. intros items. apply sends_batch_worker, HP.
Qed.

Lemma sends_update_or_replace P method this rowID data config :
  (forall c, c_verb c = method -> P c) ->
  stable (sends P) (update_or_replace H method this rowID data config).
Proof.
  intros HP. unfold update_or_replace.
  apply stable_bind; [apply _ | apply sends_mergeConfig |]. intros cfg. do 4 prop.
  destruct (isArray rowID).
  - apply stable_handleBatch; [apply _|]. intros items. apply sends_batch_worker, HP.
  - unfold _throttle. apply stable_bind; [apply _ | apply sends_request, HP |].
    intros record. apply stable_shape, _.
Qed.

Lemma sends_find P this rowID config :
  (forall c, c_verb c = Find -> P c) -> stable (sends P) (find H this rowID config).
Proof.
  intros HP. unfold find, _throttle.
  apply stable_bind; [apply _ | apply sends_mergeConfig |]. intros cfg. do 3 prop.
  apply stable_bind; [apply _ | apply sends_request, HP |].
  intros record. apply stable_shape, _.
Qed.

Lemma sends_delete P this rowID config :
  (forall c, c_verb c = Destroy -> P c) -> stable (sends P) (delete H this rowID config).
Proof.
  intros HP. unfold delete, _throttle.
  apply stable_bind; [apply _ | apply sends_mergeConfig |]. intros cfg. do 3 prop.
  apply stable_handleBatch; [apply _|]. intros items.
  apply stable_bind; [apply _ | apply sends_request, HP |]. intros records.
  apply stable_bind; [apply _ | | intros mapped; apply stable_ret, _].
  apply stable_array_map; [apply _|]. intros record.
  destruct (truthy _); [apply stable_ret, _|].
  apply stable_bind; [apply _ | apply stable_get_prop, _ |]. intros id. apply stable_ret, _.
Qed.

(** X11.  Each method that talks to the store directly sends requests of
    its own verb only, whatever the arguments and whether it returns or
    throws: [read] selects, [find] finds, [create] creates, [update]
    updates, [replace] replaces, [delete] destroys. *)
Theorem direct_methods_send_their_own_verb this a b c :
  stable (sends (is_verb Select)) (read H this a b) /\
  stable (sends (is_verb Find)) (find H this a b) /\
  stable (sends (is_verb Create)) (create H this a b) /\
  stable (sends (is_verb Update)) (update H this a b c) /\
  stable (sends (is_verb Replace)) (replace H this a b c) /\
  stable (sends (is_verb Destroy)) (delete H this a b).
Proof.
  repeat split.
  - apply sends_read. auto.
  - apply sends_find. auto.
  - apply sends_create. auto.
  - apply sends_update_or_replace. auto.
  - apply sends_update_or_replace. auto.
  - apply sends_delete. auto.
Qed.

Lemma verb_in_here v verbs c : c_verb c = v -> In v verbs -> verb_in verbs c.
Proof. unfold verb_in. intros ->. auto. Qed.

(** X12.  [upsert] never deletes and never replaces: whatever the
    arguments and the store's answers, returned or thrown, every request it
    sends is a select, a create or an update. *)
Theorem upsert_never_destroys this key data config :
  stable (sends (verb_in [Select; Create; Update])) (upsert H this key data config).
Proof.
  unfold upsert. destruct (_ || _); [apply stable_throw, _|].
  apply stable_bind; [apply _ | apply sends_mergeConfig |]. intros cfg. do 1 prop.
  apply stable_bind; [apply _ | |].
  - apply sends_read. intros c Hc. eapply verb_in_here; [exact Hc | simpl; auto].
  - intros rows.
    assert (Hup : stable (sends (verb_in [Select; Create; Update]))
                    (records <- array_map (id_and_fields cfg data) rows ;;
                     update H this (VArr records) cfg VUndefined)).
    { apply stable_bind; [apply _ | |].
      - apply stable_array_map; [apply _|]. intros rec. apply stable_id_and_fields, _.
      - intros records. apply sends_update_or_replace.
        intros c Hc. eapply verb_in_here; [exact Hc | simpl; auto]. }
    destruct rows as [| | | | | | | | items | |]; try exact Hup.
    destruct items; [|exact Hup].
    apply sends_create. intros c Hc. eapply verb_in_here; [exact Hc | simpl; auto].
Qed.
End traffic.

(** ** The order of the requests of the compound methods *)

Lemma phases_refl Ps w : phases Ps w w.
Proof.
  exists (map (fun _ => []) Ps). split.
  - induction Ps as [|P Ps IH]; simpl; [rewrite app_nil_r; reflexivity | exact IH].
  - induction Ps as [|P Ps IH]; simpl; constructor; [constructor | exact IH].
Qed.

Lemma phases_next P Ps w w1 w' :
  sends P w w1 -> phases Ps w1 w' -> phases (P :: Ps) w w'.
Proof.
  intros (a & Ha & Pa) (groups & Hg & Pg). exists (a :: groups). split.
  - simpl. rewrite Hg, Ha, app_assoc. reflexivity.
  - constructor; assumption.
Qed.

Lemma phases_head P Ps w w1 w' :
  sends P w w1 -> phases (P :: Ps) w1 w' -> phases (P :: Ps) w w'.
Proof.
  intros (a & Ha & Pa) (groups & Hg & Pg).
  inversion Pg as [|P0 g Ps0 gs Hfirst Hrest]; subst.
  exists ((a ++ g) :: gs). split.
  - simpl. rewrite Hg, Ha. simpl. rewrite <- !app_assoc. reflexivity.
  - constructor; [apply Forall_app; split; assumption | exact Hrest].
Qed.

Lemma phases_app Ps Qs w w1 w' :
  phases Ps w w1 -> phases Qs w1 w' -> phases (Ps ++ Qs) w w'.
Proof.
  intros (a & Ha & Pa) (b & Hb & Pb). exists (a ++ b). split.
  - rewrite Hb, Ha, concat_app, app_assoc. reflexivity.
  - apply Forall2_app; assumption.
Qed.

Lemma stable_phases_head {A B} P Ps (m : M A) (k : A -> M B) :
  stable (sends P) m -> (forall a, stable (phases (P :: Ps)) (k a)) ->
  stable (phases (P :: Ps)) (bind m k).
Proof.
  intros Hm Hk w w' r E. unfold bind in E.
  destruct (m w) as [w1 [e|a]] eqn:Em.
  - injection E as <- _. eapply phases_head; [eapply Hm, Em | apply phases_refl].
  - eapply phases_head; [eapply Hm, Em | eapply Hk, E].
Qed.

Lemma stable_phases_next {A B} P Ps (m : M A) (k : A -> M B) :
  stable (sends P) m -> (forall a, stable (phases Ps) (k a)) ->
  stable (phases (P :: Ps)) (bind m k).
Proof.
  intros Hm Hk w w' r E. unfold bind in E.
  destruct (m w) as [w1 [e|a]] eqn:Em.
  - injection E as <- _. eapply phases_next; [eapply Hm, Em | apply phases_refl].
  - eapply phases_next; [eapply Hm, Em | eapply Hk, E].
Qed.

Lemma stable_phases_app {A B} Ps Qs (m : M A) (k : A -> M B) :
  stable (phases Ps) m -> (forall a, stable (phases Qs) (k a)) ->
  stable (phases (Ps ++ Qs)) (bind m k).
Proof.
  intros Hm Hk w w' r E. unfold bind in E.
  destruct (m w) as [w1 [e|a]] eqn:Em.
  - injection E as <- _. eapply phases_app; [eapply Hm, Em | apply phases_refl].
  - eapply phases_app; [eapply Hm, Em | eapply Hk, E].
Qed.

Lemma stable_phases_last {A} P (m : M A) : stable (sends P) m -> stable (phases [P]) m.
Proof.
  intros Hm w w' r E. eapply phases_next; [eapply Hm, E | apply phases_refl].
Qed.

Section order.
Variable H : host.

Lemma sends_alloc P o : stable (sends P) (alloc o).
Proof. intros w w' r [= <- _]. exists []. simpl. rewrite app_nil_r. split; [reflexivity | constructor]. Qed.

Lemma sends_table_shorthand P cfg : stable (sends P) (table_shorthand cfg).
Proof.
  unfold table_shorthand. destruct (String.eqb _ _); [|apply stable_ret, _].
  apply stable_bind; [apply _ | apply sends_alloc |]. intros l. apply stable_ret, _.
Qed.

Lemma read_then_delete this cfg0 params :
  stable (phases [is_verb Select; is_verb Destroy])
    (rows <- read H this params cfg0 ;;
     rowIds <- array_map (row_id cfg0) rows ;;
     delete H this (VArr rowIds) cfg0).
Proof.
  apply stable_phases_next; [apply sends_read; auto|]. intros rows.
  apply stable_phases_last.
  apply stable_bind; [apply _ | |].
  - apply stable_array_map; [apply _|]. intros rec. apply stable_row_id, _.
  - intros rowIds. apply sends_delete. auto.
Qed.

Lemma phases_truncate this config :
  stable (phases [is_verb Select; is_verb Destroy]) (truncate H this config).
Proof.
  unfold truncate.
  apply stable_phases_head; [apply sends_mergeConfig|]. intros cfg. apply read_then_delete.
Qed.

Lemma phases_appendTable this sourceCfg destCfg :
  stable (phases [is_verb Select; is_verb Create]) (appendTable H this sourceCfg destCfg).
Proof.
  unfold appendTable.
  apply stable_phases_head; [apply sends_table_shorthand|]. intros src.
  apply stable_phases_head; [apply sends_table_shorthand|]. intros dst.
  apply stable_phases_head; [apply stable_get_prop, _|]. intros where_.
  apply stable_phases_head; [apply stable_get_prop, _|]. intros fields.
  apply stable_phases_next; [apply sends_read; auto|]. intros rows.
  apply stable_phases_last.
  apply stable_bind; [apply _ | |].
  - apply stable_array_map; [apply _|]. intros rec. apply stable_get_prop, _.
  - intros records. apply sends_create. auto.
Qed.

(** X13.  [truncate] and [deleteWhere] read before they delete: whatever
    the arguments and the store's answers, returned or thrown, their
    requests are selects followed by destroys, and nothing else. *)
Theorem bulk_deletes_select_then_destroy this where_ config :
  stable (phases [is_verb Select; is_verb Destroy]) (truncate H this config) /\
  stable (phases [is_verb Select; is_verb Destroy]) (deleteWhere H this where_ config).
Proof.
  split; [apply phases_truncate|]. unfold deleteWhere.
  apply stable_phases_head; [apply sends_mergeConfig|]. intros cfg. apply read_then_delete.
Qed.

(** X14.  [updateWhere] and [replaceWhere] read before they write, with
    their own verb only: selects, then updates (or replaces). *)
Theorem bulk_writes_select_then_write this where_ data config :
  stable (phases [is_verb Select; is_verb Update]) (updateWhere H this where_ data config) /\
  stable (phases [is_verb Select; is_verb Replace]) (replaceWhere H this where_ data config).
Proof.
  assert (Hboth : forall method,
             stable (phases [is_verb Select; is_verb method])
               (update_or_replace_where H method this where_ data config)).
  { intros method. unfold update_or_replace_where.
    apply stable_phases_head; [apply sends_mergeConfig|]. intros cfg.
    apply stable_phases_next; [apply sends_read; auto|]. intros rows.
    apply stable_phases_last.
    apply stable_bind; [apply _ | |].
    - apply stable_array_map; [apply _|]. intros rec. apply stable_id_and_fields, _.
    - intros records. apply sends_update_or_replace. auto. }
  split; apply Hboth.
Qed.
End order.

(** ** What the methods that return have sent and answer *)

Section outcomes.
Variable H : host.

Lemma filter_truthy l : Forall (fun x => truthy x = true) (List.filter truthy l).
Proof.
  induction l as [|x l IH]; simpl; [constructor|].
  destruct (truthy x) eqn:Ex; [constructor; assumption | exact IH].
Qed.

Lemma read_post_truthy w camelCase transform records rows :
  read_post H w camelCase transform records = inr rows ->
  Forall (fun x => truthy x = true) rows.
Proof.
  unfold read_post. destruct (truthy transform).
  - destruct transform; try (destruct (if truthy camelCase then _ else _); [|discriminate];
      intros [= <-]; constructor).
    intros [= <-]. apply filter_truthy.
  - intros [= <-]. apply filter_truthy.
Qed.

(** X16.  A [read] that returns has sent exactly one request, a select,
    and answers an array without falsy entries.  With a string as its first
    argument the select goes to the table of that name with the parameters
    [{}] (lines 588-591); otherwise the parameters are the first argument,
    or [{}] when it is falsy. *)
Theorem read_sends_one_select this params config w w' v :
  read H this params config w = (w', inr v) ->
  exists sel rows,
    v = VArr rows /\ Forall (fun x => truthy x = true) rows /\
    trace w' = trace w ++ [sel] /\ c_verb sel = Select /\
    (forall name, params = VStr name ->
       c_table sel = VStr name /\ c_args sel = [VObj []]) /\
    (typeof params <> "string" ->
       c_args sel = [if truthy params then params else VObj []]).
Proof.
  intros E. apply read_inr in E
    as (w1 & cfg & tableName & camelCase & transform & complex & base & answer
        & records & rows & Em & _ & _ & _ & _ & _ & Eq & _ & Ep & ->).
  apply mergeConfig_trace in Em.
  apply request_inr in Eq as (key & container & -> & _).
  eexists _, rows. split; [reflexivity|].
  split; [eapply read_post_truthy, Ep|].
  split; [simpl; rewrite Em; reflexivity|]. split; [reflexivity|]. split.
  - intros name ->. simpl. split; reflexivity.
  - intros Hn. simpl. destruct (String.eqb (typeof params) "string") eqn:Es; [|reflexivity].
    apply String.eqb_eq in Es. contradiction.
Qed.

Lemma bare_ids_inr records w w' mapped :
  mapM (fun record =>
          id <- get_prop record "id" ;;
          ret (VObj [("id", id); ("fields", VObj []); ("createdTime", VNull)]))
       records w = (w', inr mapped) ->
  exists ids, mapped = map (fun id => VObj [("id", id); ("fields", VObj []);
                                              ("createdTime", VNull)]) ids.
Proof.
  revert w mapped. induction records as [|x xs IH]; intros w mapped E; simpl in E.
  - injection E as _ <-. exists []. reflexivity.
  - apply bind_inr in E as (wa & y & Ey & E).
    apply bind_inr in E as (wb & ys & Eys & [= <- <-]).
    apply bind_inr in Ey as (wc & id & Eid & [= <- <-]).
    apply IH in Eys as (ids & ->). exists (id :: ids). reflexivity.
Qed.

(** The worker [delete] hands to [_handleBatch]. *)
Lemma delete_worker_inr base tableName complex items w w' a :
  (records <- _throttle (request H base tableName Destroy [VArr items]) ;;
   mapped <- array_map (fun record =>
               if truthy complex then ret record
               else id <- get_prop record "id" ;;
                    ret (VObj [("id", id); ("fields", VObj []); ("createdTime", VNull)]))
             records ;;
   ret (VArr mapped)) w = (w', inr a) ->
  exists c mapped,
    trace w' = trace w ++ [c] /\ c_verb c = Destroy /\ c_table c = tableName /\
    c_args c = [VArr items] /\ a = VArr mapped /\
    (truthy complex = false ->
     exists ids, mapped = map (fun id => VObj [("id", id); ("fields", VObj []);
                                                 ("createdTime", VNull)]) ids).
Proof.
  intros E. unfold _throttle in E.
  apply bind_inr in E as (w1 & answer & Er & E).
  apply bind_inr in E as (w2 & mapped & Ea & [= <- <-]).
  apply request_inr in Er as (key & container & -> & _).
  assert (Hw : w2 = set_trace (trace w ++ [Call key container tableName Destroy [VArr items]]) w).
  { eapply array_map_world; [|exact Ea]. intros x wa wb r Ex.
    destruct (truthy complex); [injection Ex as <- _; reflexivity|].
    unfold bind in Ex. destruct (get_prop x "id" wa) as [wc [e|id]] eqn:Eg;
      apply get_prop_world in Eg as ->; injection Ex as <- _; reflexivity. }
  subst w2. eexists _, mapped. split; [reflexivity|].
  split; [reflexivity|]. split; [reflexivity|]. split; [reflexivity|].
  split; [reflexivity|]. intros Hc. rewrite Hc in Ea.
  unfold array_map in Ea. destruct answer; try discriminate.
  eapply bare_ids_inr, Ea.
Qed.

Lemma delete_workers_inr base tableName complex chunks w w' res :
  mapM (fun items =>
          records <- _throttle (request H base tableName Destroy [VArr items]) ;;
          mapped <- array_map (fun record =>
                      if truthy complex then ret record
                      else id <- get_prop record "id" ;;
                           ret (VObj [("id", id); ("fields", VObj []); ("createdTime", VNull)]))
                    records ;;
          ret (VArr mapped)) chunks w = (w', inr res) ->
  exists calls,
    trace w' = trace w ++ calls /\
    Forall (is_verb Destroy) calls /\ map items_of calls = chunks /\
    (truthy complex = false ->
     exists ids, flatten res = map (fun id => VObj [("id", id); ("fields", VObj []);
                                                    ("createdTime", VNull)]) ids).
Proof.
  revert w res. induction chunks as [|items chunks IH]; intros w res E; simpl in E.
  - injection E as <- <-. exists []. rewrite app_nil_r.
    split; [reflexivity|]. split; [constructor|]. split; [reflexivity|].
    intros _. exists []. reflexivity.
  - apply bind_inr in E as (w1 & y & Ey & E).
    apply bind_inr in E as (w2 & ys & Eys & [= <- <-]).
    apply delete_worker_inr in Ey as (c & mapped & Ht & Hv & _ & Hargs & -> & Hm).
    apply IH in Eys as (calls & Ht' & Hverbs & Hitems & Hrest).
    exists (c :: calls). split; [rewrite Ht', Ht, <- app_assoc; reflexivity|].
    split; [constructor; assumption|]. split.
    + simpl. f_equal; [|exact Hitems]. unfold items_of. rewrite Hargs. reflexivity.
    + intros Hc. destruct (Hm Hc) as (ids & ->). destruct (Hrest Hc) as (ids' & Hids').
      exists (ids ++ ids'). unfold flatten in *. simpl. rewrite Hids', map_app. f_equal.
      clear. induction ids as [|i ids IH]; simpl; [reflexivity | f_equal; exact IH].
Qed.

Lemma delete_inr this rowID config w w' v :
  delete H this rowID config w = (w', inr v) ->
  exists w1 cfg complex calls res,
    _mergeConfig H this config w = (w1, inr cfg) /\
    get_prop cfg "complex" w1 = (w1, inr complex) /\
    trace w' = trace w ++ calls /\
    Forall (is_verb Destroy) calls /\ map items_of calls = _chunkData rowID /\
    v = collapse res /\
    (truthy complex = false ->
     exists ids, res = map (fun id => VObj [("id", id); ("fields", VObj []);
                                            ("createdTime", VNull)]) ids).
Proof.
  intros E. unfold delete in E.
  apply bind_inr in E as (w1 & cfg & Em & E).
  apply bind_inr in E as (w2 & tableName & E1 & E).
  pose proof (get_prop_world _ _ _ _ _ E1) as ->.
  apply bind_inr in E as (w2 & base & E2 & E).
  pose proof (get_prop_world _ _ _ _ _ E2) as ->.
  apply bind_inr in E as (w2 & complex & E3 & E).
  pose proof (get_prop_world _ _ _ _ _ E3) as ->.
  apply handleBatch_inr in E as (res & Er & ->).
  apply delete_workers_inr in Er as (calls & Ht & Hverbs & Hitems & Hres).
  exists w1, cfg, complex, calls, (flatten res).
  split; [exact Em|]. split; [exact E3|].
  split; [rewrite Ht, (mergeConfig_trace H _ _ _ _ _ Em); reflexivity|].
  split; [exact Hverbs|]. split; [exact Hitems|]. split; [reflexivity | exact Hres].
Qed.

(** X17.  A [delete] that returns has sent one destroy per chunk of its
    first argument, carrying the chunks in order (so at least one request),
    and without [complex] its answer holds nothing of what the store
    answered but the ids: every entry is [{id, fields: {}, createdTime:
    null}]. *)
Theorem delete_destroys_chunks_and_answers_ids this rowID config w w' v :
  delete H this rowID config w = (w', inr v) ->
  exists w1 cfg complex calls,
    _mergeConfig H this config w = (w1, inr cfg) /\
    get_prop cfg "complex" w1 = (w1, inr complex) /\
    trace w' = trace w ++ calls /\ calls <> [] /\
    Forall (is_verb Destroy) calls /\ map items_of calls = _chunkData rowID /\
    (truthy complex = false ->
     exists ids, v = collapse (map (fun id => VObj [("id", id); ("fields", VObj []);
                                                    ("createdTime", VNull)]) ids)).
Proof.
  intros E. apply delete_inr in E
    as (w1 & cfg & complex & calls & res & Em & Ec & Ht & Hv & Hi & -> & Hres).
  exists w1, cfg, complex, calls. repeat (split; [assumption|]). split.
  - intros ->. simpl in Hi. symmetry in Hi. revert Hi.
    unfold _chunkData. destruct rowID; try discriminate.
    destruct (10 <? length items)%nat eqn:Hl; [|discriminate].
    intros Hi. apply (f_equal length) in Hi. rewrite chunk_length in Hi.
    apply Nat.ltb_lt in Hl. change (length (@nil (list value))) with 0 in Hi.
    pose proof (Nat.div_mod (length items + 10 - 1) 10).
    pose proof (Nat.mod_upper_bound (length items + 10 - 1) 10). lia.
  - do 2 (split; [assumption|]). intros Hc. destruct (Hres Hc) as (ids & ->). eauto.
Qed.
End outcomes.

Lemma mapM_length {A B} (f : A -> M B) l w w' res :
  mapM f l w = (w', inr res) -> length res = length l.
Proof.
  revert w res. induction l as [|x xs IH]; intros w res E; simpl in E.
  - injection E as _ <-. reflexivity.
  - apply bind_inr in E as (wa & y & Ey & E).
    apply bind_inr in E as (wb & ys & Eys & [= <- <-]).
    simpl. f_equal. eapply IH, Eys.
Qed.

Section bulk_outcomes.
Variable H : host.

Lemma chunkData_array_length items :
  items <> [] -> length (_chunkData (VArr items)) = (length items + 9) / 10.
Proof.
  intros Hne. unfold _chunkData. destruct (Nat.ltb_spec 10 (length items)) as [Hgt|Hle].
  - rewrite chunk_length. f_equal. lia.
  - assert (Hpos : 1 <= length items) by (destruct items; [congruence | simpl; lia]).
    change (length [items]) with 1.
    apply (Nat.div_unique (length items + 9) 10 1 (length items - 1)); lia.
Qed.

Lemma Forall2_params calls chunks method tableName params :
  Forall2 (fun c items => c_verb c = method /\ c_table c = tableName /\
                          c_args c = [VArr items; params]) calls chunks ->
  Forall (fun c => c_table c = tableName /\ c_args c !! 1 = Some params) calls.
Proof.
  induction 1 as [|c items calls chunks (_ & Ht & Ha) _ IH]; constructor; [|exact IH].
  split; [exact Ht | rewrite Ha; reflexivity].
Qed.

(** X18.  A [create] that returns has sent one create per chunk of its
    data, in order, each to the merged table and each with the parameters
    [{typecast}] when the merged [typecast] is truthy and none otherwise.
    For an array of n records that is ceil(n/10) requests which together
    carry the records in input order, and n is not 0. *)
Theorem create_sends_one_request_per_chunk this data config w w' v :
  create H this data config w = (w', inr v) ->
  exists w1 cfg tableName typecast calls,
    _mergeConfig H this config w = (w1, inr cfg) /\
    get_prop cfg "tableName" w1 = (w1, inr tableName) /\
    get_prop cfg "typecast" w1 = (w1, inr typecast) /\
    trace w' = trace w ++ calls /\
    Forall (is_verb Create) calls /\
    map items_of calls = _chunkData data /\
    Forall (fun c => c_table c = tableName /\
                     c_args c !! 1 = Some (typecast_params typecast)) calls /\
    forall items, data = VArr items ->
      items <> [] /\ length calls = (length items + 9) / 10 /\
      concat (map items_of calls) = items.
Proof.
  intros E. unfold create in E.
  destruct (empty_data data) eqn:Hempty; [discriminate|].
  apply bind_inr in E as (w1 & cfg & Em & E).
  apply bind_inr in E as (w2 & tableName & E1 & E).
  pose proof (get_prop_world _ _ _ _ _ E1) as ->.
  apply bind_inr in E as (w2 & base & E2 & E).
  pose proof (get_prop_world _ _ _ _ _ E2) as ->.
  apply bind_inr in E as (w2 & complex & E3 & E).
  pose proof (get_prop_world _ _ _ _ _ E3) as ->.
  apply bind_inr in E as (w2 & typecast & E4 & E).
  pose proof (get_prop_world _ _ _ _ _ E4) as ->.
  apply handleBatch_inr in E as (res & Er & _).
  apply (batch_workers_inr H Create) in Er as (calls & Ht & Hall).
  pose proof (Forall2_params _ _ _ _ _ Hall) as Hparams.
  apply Forall2_items in Hall as (Hitems & Hverbs).
  exists w1, cfg, tableName, typecast, calls.
  split; [exact Em|]. split; [exact E1|]. split; [exact E4|].
  split; [rewrite Ht, (mergeConfig_trace H _ _ _ _ _ Em); reflexivity|].
  split; [exact Hverbs|]. split; [exact Hitems|]. split; [exact Hparams|].
  intros items ->.
  assert (Hne : items <> []) by (intros ->; discriminate).
  split; [exact Hne|]. split.
  - rewrite <- (length_map items_of), Hitems. apply chunkData_array_length, Hne.
  - rewrite Hitems. apply chunkData_concat.
Qed.

(** The shared end of [deleteWhere] and [truncate]. *)
Lemma read_then_delete_inr this params cfg w1 w' v :
  typeof params <> "string" -> truthy params = true ->
  (rows <- read H this params cfg ;;
   rowIds <- array_map (row_id cfg) rows ;;
   delete H this (VArr rowIds) cfg) w1 = (w', inr v) ->
  exists w2 rows ids sel calls,
    read H this params cfg w1 = (w2, inr (VArr rows)) /\
    mapM (row_id cfg) rows w2 = (w2, inr ids) /\
    trace w' = trace w1 ++ sel :: calls /\
    c_verb sel = Select /\ c_args sel = [params] /\
    calls <> [] /\ Forall (is_verb Destroy) calls /\
    map items_of calls = _chunkData (VArr ids) /\
    concat (map items_of calls) = ids.
Proof.
  intros Hs Hp E.
  apply bind_inr in E as (w2 & rowsv & Er & E).
  apply bind_inr in E as (w3 & ids & Ei & E).
  pose proof (array_map_world _ _ _ _ _ (row_id_world cfg) Ei) as ->.
  pose proof Er as Er'.
  apply read_inr in Er'
    as (wm & cfg' & tableName & camelCase & transform & complex & base & answer
        & records & rows & Em & _ & _ & _ & _ & _ & Eq & _ & _ & ->).
  apply request_inr in Eq as (key & container & Hw2 & _).
  apply mergeConfig_trace in Em.
  assert (Hstr : String.eqb (typeof params) "string" = false).
  { destruct (String.eqb (typeof params) "string") eqn:Es; [|reflexivity].
    apply String.eqb_eq in Es. contradiction. }
  rewrite Hstr, Hp in Hw2.
  apply delete_inr in E
    as (w4 & cfg4 & complex4 & calls & res & _ & _ & Ht & Hv & Hitems & _ & _).
  eexists w2, rows, ids, _, calls.
  split; [exact Er|]. split; [exact Ei|].
  split; [rewrite Ht, Hw2; simpl; rewrite Em, <- app_assoc; reflexivity|].
  split; [reflexivity|]. split; [reflexivity|]. split.
  - intros ->. simpl in Hitems. symmetry in Hitems. revert Hitems.
    unfold _chunkData. destruct (10 <? length ids)%nat eqn:Hl; [|discriminate].
    intros Hi. apply (f_equal length) in Hi. rewrite chunk_length in Hi.
    apply Nat.ltb_lt in Hl. change (length (@nil (list value))) with 0 in Hi.
    pose proof (Nat.div_mod (length ids + 10 - 1) 10).
    pose proof (Nat.mod_upper_bound (length ids + 10 - 1) 10). lia.
  - split; [exact Hv|]. split; [exact Hitems|]. rewrite Hitems. apply chunkData_concat.
Qed.

(** X19.  A [deleteWhere] that returns has sent one select with the
    filter it was given and then destroys that carry, in order, the ids of
    the rows the read answered ([getId()] of a record under [complex],
    else its [id]), in chunks.  At least one destroy is sent: when the read
    answers no row, a destroy with no id. *)
Theorem deleteWhere_destroys_what_it_read this where_ config w w' v :
  deleteWhere H this where_ config w = (w', inr v) ->
  exists w1 cfg w2 rows ids sel calls,
    _mergeConfig H this config w = (w1, inr cfg) /\
    read H this (VObj [("filterByFormula", where_)]) cfg w1 = (w2, inr (VArr rows)) /\
    mapM (row_id cfg) rows w2 = (w2, inr ids) /\
    trace w' = trace w ++ sel :: calls /\
    c_verb sel = Select /\ c_args sel = [VObj [("filterByFormula", where_)]] /\
    calls <> [] /\ Forall (is_verb Destroy) calls /\
    map items_of calls = _chunkData (VArr ids) /\
    concat (map items_of calls) = ids.
Proof.
  intros E. unfold deleteWhere in E.
  apply bind_inr in E as (w1 & cfg & Em & E).
  apply read_then_delete_inr in E
    as (w2 & rows & ids & sel & calls & Er & Ei & Ht & Hrest);
    [|discriminate | reflexivity].
  exists w1, cfg, w2, rows, ids, sel, calls.
  split; [exact Em|]. split; [exact Er|]. split; [exact Ei|].
  split; [rewrite Ht, (mergeConfig_trace H _ _ _ _ _ Em); reflexivity | exact Hrest].
Qed.

(** X20.  A [truncate] that returns has selected with the parameters
    [{}], no filter, and then destroyed the ids of all the rows the read
    answered, in chunks; on a table the read finds empty it still sends one
    destroy, with no id. *)
Theorem truncate_destroys_every_row_read this config w w' v :
  truncate H this config w = (w', inr v) ->
  exists w1 cfg w2 rows ids sel calls,
    _mergeConfig H this config w = (w1, inr cfg) /\
    read H this (VObj []) cfg w1 = (w2, inr (VArr rows)) /\
    mapM (row_id cfg) rows w2 = (w2, inr ids) /\
    trace w' = trace w ++ sel :: calls /\
    c_verb sel = Select /\ c_args sel = [VObj []] /\
    calls <> [] /\ Forall (is_verb Destroy) calls /\
    concat (map items_of calls) = ids /\
    (rows = [] -> map items_of calls = [[]]).
Proof.
  intros E. unfold truncate in E.
  apply bind_inr in E as (w1 & cfg & Em & E).
  apply read_then_delete_inr in E
    as (w2 & rows & ids & sel & calls & Er & Ei & Ht & Hv & Ha & Hne & Hd & Hitems & Hcat);
    [|discriminate | reflexivity].
  exists w1, cfg, w2, rows, ids, sel, calls.
  split; [exact Em|]. split; [exact Er|]. split; [exact Ei|].
  split; [rewrite Ht, (mergeConfig_trace H _ _ _ _ _ Em); reflexivity|].
  do 5 (split; [assumption|]).
  intros ->. simpl in Ei. injection Ei as <-. exact Hitems.
Qed.

Lemma fields_world rec w w' r : get_prop rec "fields" w = (w', r) -> w' = w.
Proof. apply get_prop_world. Qed.

Lemma table_shorthand_trace cfg w w' r :
  table_shorthand cfg w = (w', r) -> trace w' = trace w.
Proof.
  unfold table_shorthand. destruct (String.eqb _ _); intros [= <- _]; reflexivity.
Qed.
End bulk_outcomes.
(** ** The instances [new] and [use] build *)

Section instances.
Variable H : host.

Lemma own_props_alloc_empty w v :
  own_props (set_heap (heap w ++ [∅]) w) v = own_props w v.
Proof.
  destruct v; try reflexivity. simpl.
  destruct (lt_eq_lt_dec l (length (heap w))) as [[Hlt | ->] | Hgt].
  - rewrite lookup_app_l by exact Hlt. reflexivity.
  - rewrite lookup_fresh, (lookup_ge_None_2 (heap w)) by lia. reflexivity.
  - rewrite !lookup_ge_None_2; [reflexivity | lia | rewrite length_app; simpl; lia].
Qed.

Lemma override_of_ref_lookup l o w w1 override k :
  heap w !! l = Some o -> k <> "transform" ->
  override_of (VRef l) w = (w1, inr override) -> override !! k = o !! k.
Proof.
  intros Hl Hk E. destruct (is_function (field o "transform")) eqn:Hf.
  - rewrite (override_of_ref_keep l o w Hl Hf) in E. injection E as _ <-. reflexivity.
  - rewrite (override_of_ref_write l o w Hl Hf) in E. injection E as _ <-.
    apply lookup_insert_ne. congruence.
Qed.

(** The configuration a constructor stores, key by key. *)
Lemma constructor_lookup config w w' this :
  constructor H config w = (w', inr this) ->
  this = length (heap w) /\
  exists c cfg,
    this_config this w' = VRef c /\ heap w' !! c = Some cfg /\
    forall k, k <> "base" -> k <> "transform" ->
      cfg !! k = match own_props w config !! k with
                 | Some x => Some x
                 | None => defaults H !! k
                 end.
Proof.
  intros E. pose proof (constructor_instance_ok H _ _ _ _ E) as (c & cfg & Hi & Hc & _).
  split.
  { unfold constructor in E. apply bind_inr in E as (wa & this' & [= <- <-] & E).
    apply bind_inr in E as (wa' & wv & [= <- <-] & E).
    apply bind_inr in E as (wb & lit & [= <- <-] & E).
    apply bind_inr in E as (wc & r & Em & E).
    apply bind_inr in E as (wd & u & Es & [= <- <-]). reflexivity. }
  exists c, cfg. split; [exact Hi|]. split; [exact Hc|]. intros k Hb Hk.
  unfold constructor in E.
  apply bind_inr in E as (wa & this' & [= <- <-] & E).
  apply bind_inr in E as (wa' & wv & [= <- <-] & E).
  apply bind_inr in E as (wb & lit & [= <- <-] & E).
  apply bind_inr in E as (wc & r & Em & E).
  apply bind_inr in E as (wd & u & Es & [= <- <-]).
  rewrite own_props_alloc_empty in Em.
  set (lit := own_props w config ∪ defaults H) in *.
  set (wb := set_heap _ (set_heap _ w)) in Em.
  assert (Hlit : heap wb !! length (heap w ++ [∅]) = Some lit) by apply lookup_fresh.
  assert (Hthis : heap wb !! length (heap w) = Some ∅).
  { unfold wb. simpl. rewrite lookup_app_l by (rewrite length_app; simpl; lia).
    apply lookup_fresh. }
  apply (mergeConfig_lookup H (length (heap w)) (VRef (length (heap w ++ [∅]))) wb wc r k
           eq_refl) in Em
    as (w1 & override & cfg' & Eo & -> & Hc' & Hlook); [|exact Hb|exact Hk].
  pose proof (override_of_world _ _ _ _ Eo) as (_ & _ & _ & Hl).
  assert (Hlong : length (heap w1) = S (S (length (heap w)))).
  { rewrite Hl. unfold wb. simpl. rewrite !length_app. simpl. lia. }
  unfold set_prop in Es. injection Es as <- _.
  assert (Hr : c = length (heap w1)).
  { unfold this_config in Hi. simpl in Hi. rewrite list_lookup_alter_eq in Hi.
    destruct (heap wc !! length (heap w)) as [o|]; simpl in Hi.
    - rewrite lookup_insert_eq in Hi. simpl in Hi. congruence.
    - rewrite lookup_empty in Hi. discriminate. }
  subst c. simpl in Hc. rewrite list_lookup_alter_ne in Hc by lia.
  rewrite Hc' in Hc. injection Hc as <-. rewrite Hlook.
  rewrite (override_of_ref_lookup _ lit wb w1 override k Hlit Hk Eo).
  unfold lit. destruct (own_props w config !! k) as [x|] eqn:Ex.
  - rewrite (lookup_union_Some_l _ _ _ _ Ex). reflexivity.
  - rewrite (lookup_union_r _ _ _ Ex).
    destruct (defaults H !! k) as [d|]; [reflexivity|].
    unfold this_config. rewrite Hthis. reflexivity.
Qed.

(** A constructor writes to the objects it makes and to nothing else, and
    sends nothing. *)
Lemma constructor_keeps config w w' r :
  constructor H config w = (w', r) ->
  trace w' = trace w /\
  forall l o, heap w !! l = Some o -> heap w' !! l = Some o.
Proof.
  intros E. unfold constructor in E.
  unfold bind at 1 in E. simpl in E. unfold bind at 1 in E. simpl in E.
  unfold bind at 1 in E. simpl in E. unfold bind at 1 in E.
  set (wb := set_heap _ (set_heap _ w)) in E.
  destruct (_mergeConfig H (length (heap w)) (VRef (length (heap w ++ [∅]))) wb)
    as [wc [e|cfg]] eqn:Em;
    apply frame_mergeConfig in Em as (Hkeep & _ & _ & Ht).
  - injection E as <- _. split; [rewrite Ht; reflexivity|].
    intros l o Hl. pose proof (lookup_lt_Some _ _ _ Hl) as Hlt. apply Hkeep.
    + rewrite length_app. simpl. intros [= ->]. lia.
    + unfold wb. simpl. rewrite !lookup_app_l; [exact Hl | exact Hlt |].
      rewrite length_app. simpl. lia.
  - unfold bind in E. simpl in E. injection E as <- _.
    split; [simpl; rewrite Ht; reflexivity|].
    intros l o Hl. pose proof (lookup_lt_Some _ _ _ Hl) as Hlt. simpl.
    rewrite list_lookup_alter_ne by lia. apply Hkeep.
    + rewrite length_app. simpl. intros [= ->]. lia.
    + unfold wb. simpl. rewrite !lookup_app_l; [exact Hl | exact Hlt |].
      rewrite length_app. simpl. lia.
Qed.

(** X22.  What [new AirtablePlus(config)] builds: a new object, whose
    [config] holds under every key but [base] and [transform] the caller's
    value when the caller's object has the key (the spread of line 515), and
    otherwise the default of lines 508-514 (the environment's key, container
    and table, [camelCase], [complex] and [typecast] off, [concurrency] 1);
    its handle answers the stored [baseID].  The constructor sends no
    request and leaves every older object as it was. *)
Theorem constructor_prefers_caller_config config w w' this :
  constructor H config w = (w', inr this) ->
  heap w !! this = None /\
  trace w' = trace w /\
  (forall l o, heap w !! l = Some o -> heap w' !! l = Some o) /\
  exists c cfg,
    instance_ok this c cfg w' /\
    forall k, k <> "base" -> k <> "transform" ->
      cfg !! k = match own_props w config !! k with
                 | Some x => Some x
                 | None => defaults H !! k
                 end.
Proof.
  intros E.
  pose proof (constructor_keeps _ _ _ _ E) as (Ht & Hkeep).
  pose proof (constructor_instance_ok H _ _ _ _ E) as (c & cfg & Hi).
  apply constructor_lookup in E as (-> & c' & cfg' & Hc' & Hcfg' & Hlook).
  split; [apply lookup_ge_None_2; lia|]. split; [exact Ht|]. split; [exact Hkeep|].
  exists c, cfg. split; [exact Hi|].
  destruct Hi as (Hthis & Hcfg & _).
  rewrite Hthis in Hc'. injection Hc' as <-.
  rewrite Hcfg in Hcfg'. injection Hcfg' as <-. exact Hlook.
Qed.
End instances.

Section use_spec.
Variable H : host.

Lemma set_prop_keeps v k x w w' r l o :
  v <> VRef l -> heap w !! l = Some o ->
  set_prop v k x w = (w', r) -> heap w' !! l = Some o /\ trace w' = trace w.
Proof.
  intros Hv Hl E. unfold set_prop in E.
  destruct v; injection E as <- _; auto.
  simpl. split; [|reflexivity]. rewrite list_lookup_alter_ne; [exact Hl | congruence].
Qed.

Lemma use_body_keeps this baseID config w w' r l o :
  config <> VRef l -> heap w !! l = Some o ->
  (set_prop config "baseID" baseID ;;;
   cfg <- _mergeConfig H this config ;;
   constructor H cfg) w = (w', r) ->
  heap w' !! l = Some o /\ trace w' = trace w.
Proof.
  intros Hc Hl E. unfold bind at 1 in E.
  destruct (set_prop config "baseID" baseID w) as [wb [e|u]] eqn:Es;
    apply (set_prop_keeps _ _ _ _ _ _ l o Hc Hl) in Es as (Hb & Htb).
  - injection E as <- _. auto.
  - unfold bind in E.
    destruct (_mergeConfig H this config wb) as [wc [e|cfg]] eqn:Em;
      apply frame_mergeConfig in Em as (Hkeep & _ & _ & Htc).
    + injection E as <- _. split; [apply Hkeep; [congruence | exact Hb] | congruence].
    + apply constructor_keeps in E as (Ht & Hk).
      split; [apply Hk, Hkeep; [congruence | exact Hb] | congruence].
Qed.

Lemma use_keeps this baseID config w w' r l o :
  config <> VRef l -> heap w !! l = Some o ->
  use H this baseID config w = (w', r) ->
  heap w' !! l = Some o /\ trace w' = trace w.
Proof.
  intros Hc Hl E. unfold use in E. unfold bind at 1 in E.
  pose proof (lookup_lt_Some _ _ _ Hl) as Hlt.
  destruct config;
    try (simpl in E; eapply use_body_keeps; [exact Hc | exact Hl | exact E]).
  unfold bind at 1 in E. simpl in E.
  apply (use_body_keeps _ _ _ _ _ _ l o) in E; [exact E | intros [= <-]; lia |].
  simpl. rewrite lookup_app_l by exact Hlt. exact Hl.
Qed.

(** X23.  [use] makes a new instance and leaves the one it is called on
    alone: unless the caller passes the instance or its configuration
    object itself as the second argument, the instance still refers to the
    same configuration object, with the same properties, whether [use]
    returns or throws; and [use] sends no request. *)
Theorem use_leaves_parent_alone this baseID config c0 o0 w w' r :
  this_config this w = VRef c0 -> heap w !! c0 = Some o0 ->
  config <> VRef c0 -> config <> VRef this ->
  use H this baseID config w = (w', r) ->
  this_config this w' = VRef c0 /\ heap w' !! c0 = Some o0 /\ trace w' = trace w.
Proof.
  intros Hthis Hc0 Hne0 Hnet E.
  destruct (heap w !! this) as [othis|] eqn:Ho.
  - destruct (use_keeps _ _ _ _ _ _ this othis Hnet Ho E) as (Ho' & Ht).
    destruct (use_keeps _ _ _ _ _ _ c0 o0 Hne0 Hc0 E) as (Hc0' & _).
    split; [|split; [exact Hc0' | exact Ht]].
    unfold this_config in *. rewrite Ho'. rewrite Ho in Hthis. exact Hthis.
  - unfold this_config in Hthis. rewrite Ho in Hthis. simpl in Hthis.
    rewrite lookup_empty in Hthis. discriminate.
Qed.
End use_spec.

Section use_outcome.
Variable H : host.

Lemma this_config_own_props this w :
  this_config this w = default VUndefined (own_props w (VRef this) !! "config").
Proof. reflexivity. Qed.

Lemma this_config_alloc_empty this w :
  this_config this (set_heap (heap w ++ [∅]) w) = this_config this w.
Proof. rewrite !this_config_own_props, own_props_alloc_empty. reflexivity. Qed.

Lemma inserted_lookup kk x l w v k :
  k <> kk ->
  own_props (set_heap (alter (fun o => <[kk := x]> o) l (heap w)) w) v !! k
  = own_props w v !! k.
Proof.
  intros Hk. destruct v; try reflexivity. simpl.
  destruct (decide (l = l0)) as [<-|Hne].
  - rewrite list_lookup_alter_eq. destruct (heap w !! l); simpl; [|reflexivity].
    apply lookup_insert_ne. congruence.
  - rewrite list_lookup_alter_ne by exact Hne. reflexivity.
Qed.

Lemma inserted_this_config kk x l w this :
  kk <> "config" ->
  this_config this (set_heap (alter (fun o => <[kk := x]> o) l (heap w)) w)
  = this_config this w.
Proof.
  intros Hk. rewrite !this_config_own_props, inserted_lookup by congruence. reflexivity.
Qed.

(** What a merge does to the objects that are there: at most the write of
    line 980. *)
Lemma mergeConfig_heap_keys this ov w w' r l o :
  _mergeConfig H this ov w = (w', r) -> heap w !! l = Some o ->
  exists o', heap w' !! l = Some o' /\ forall k, k <> "transform" -> o' !! k = o !! k.
Proof.
  intros E Hl. unfold _mergeConfig in E.
  destruct (negb (truthy ov)); [injection E as <- _; eauto|].
  unfold bind at 1 in E.
  destruct (override_of ov w) as [w1 [e|override]] eqn:Eo.
  - injection E as <- _.
    apply override_of_cases in Eo as [-> | (l0 & _ & ->)]; [eauto|].
    simpl. destruct (decide (l0 = l)) as [->|Hne].
    + rewrite list_lookup_alter_eq, Hl. simpl. eexists. split; [reflexivity|].
      intros k Hk. apply lookup_insert_ne. congruence.
    + rewrite list_lookup_alter_ne by exact Hne. eauto.
  - apply (frame_merge_tail H this override) in E as (Hkeep & _).
    apply override_of_cases in Eo as [-> | (l0 & _ & ->)]; [eauto|].
    destruct (decide (l0 = l)) as [->|Hne].
    + eexists. split.
      * apply Hkeep; [exact I|]. simpl. rewrite list_lookup_alter_eq, Hl. reflexivity.
      * intros k Hk. apply lookup_insert_ne. congruence.
    + exists o. split; [|reflexivity].
      apply Hkeep; [exact I|]. simpl. rewrite list_lookup_alter_ne by exact Hne. exact Hl.
Qed.

Lemma use_body_inr this baseID l o w w' new :
  heap w !! l = Some o ->
  (set_prop (VRef l) "baseID" baseID ;;;
   cfg <- _mergeConfig H this (VRef l) ;;
   constructor H cfg) w = (w', inr new) ->
  length (heap w) <= new /\
  (exists o', heap w' !! l = Some o' /\ o' !! "baseID" = Some baseID) /\
  exists c cfg,
    instance_ok new c cfg w' /\ cfg !! "baseID" = Some baseID /\
    forall k, k <> "base" -> k <> "transform" -> k <> "baseID" ->
      cfg !! k = match o !! k with
                 | Some x => Some x
                 | None => match own_props w (this_config this w) !! k with
                           | Some x => Some x
                           | None => defaults H !! k
                           end
                 end.
Proof.
  intros Hl E.
  apply bind_inr in E as (wb & u & Es & E). unfold set_prop in Es. injection Es as <- _.
  set (wb := set_heap _ w) in E.
  assert (Hlb : heap wb !! l = Some (<["baseID" := baseID]> o)).
  { unfold wb. simpl. rewrite list_lookup_alter_eq, Hl. reflexivity. }
  apply bind_inr in E as (wc & r1 & Em & E).
  pose proof Em as Em0.
  apply (mergeConfig_lookup H this (VRef l) wb wc r1 "baseID" eq_refl) in Em0
    as (w1 & override & cfg1 & Eo & -> & Hc1 & Hlook1); [|discriminate|discriminate].
  rewrite (override_of_ref_lookup l _ wb w1 override "baseID" Hlb ltac:(discriminate) Eo),
    lookup_insert_eq in Hlook1.
  pose proof (constructor_instance_ok H _ _ _ _ E) as (c & cfg & Hi).
  pose proof (constructor_keeps H _ _ _ _ E) as (_ & Hkeep).
  apply constructor_lookup in E as (-> & c' & cfg' & Hc' & Hcfg' & Hlook).
  pose proof Hi as (Hthis & Hcfg & _).
  rewrite Hthis in Hc'. injection Hc' as <-.
  rewrite Hcfg in Hcfg'. injection Hcfg' as <-.
  assert (Hown : own_props wc (VRef (length (heap w1))) = cfg1).
  { simpl. rewrite Hc1. reflexivity. }
  rewrite Hown in Hlook.
  split; [|split].
  - apply lookup_lt_Some in Hc1. apply override_of_world in Eo as (_ & _ & _ & Hlen).
    unfold wb in Hlen. simpl in Hlen. rewrite length_alter in Hlen. lia.
  - destruct (mergeConfig_heap_keys _ _ _ _ _ l _ Em Hlb) as (o' & Ho' & Hsame).
    exists o'. split; [apply Hkeep, Ho'|].
    rewrite Hsame by discriminate. apply lookup_insert_eq.
  - exists c, cfg. split; [exact Hi|]. split.
    + rewrite Hlook by discriminate. rewrite Hlook1. reflexivity.
    + intros k Hb Hk Hid. rewrite (Hlook k Hb Hk).
      apply (mergeConfig_lookup H this (VRef l) wb wc _ k eq_refl) in Em
        as (w1' & override' & cfg1' & Eo' & _ & Hc1' & Hlookk); [|exact Hb|exact Hk].
      rewrite Eo in Eo'. injection Eo' as <- <-.
      rewrite Hc1 in Hc1'. injection Hc1' as <-.
      rewrite Hlookk.
      rewrite (override_of_ref_lookup l _ wb w1 override k Hlb Hk Eo).
      rewrite lookup_insert_ne by congruence.
      unfold wb. rewrite inserted_this_config by discriminate.
      rewrite inserted_lookup by exact Hid.
      destruct (o !! k); reflexivity.
Qed.

(** X24.  A [use] that returns answers a new instance bound to the
    container it was given: the new instance's configuration holds that
    [baseID] and its handle answers it to [getId()]; every other key but
    [base] and [transform] is the caller's when the caller's object has the
    key, else the calling instance's, else the constructor's default.  Line
    533 writes to the caller's object: after the call it holds the [baseID]
    too. *)
Theorem use_binds_new_instance this baseID config w w' new :
  (config = VUndefined \/ exists l, config = VRef l /\ is_Some (heap w !! l)) ->
  use H this baseID config w = (w', inr new) ->
  heap w !! new = None /\
  (forall l, config = VRef l ->
     exists o', heap w' !! l = Some o' /\ o' !! "baseID" = Some baseID) /\
  exists c cfg,
    instance_ok new c cfg w' /\ cfg !! "baseID" = Some baseID /\
    getId (field cfg "base") w' = (w', inr baseID) /\
    forall k, k <> "base" -> k <> "transform" -> k <> "baseID" ->
      cfg !! k = match own_props w config !! k with
                 | Some x => Some x
                 | None => match own_props w (this_config this w) !! k with
                           | Some x => Some x
                           | None => defaults H !! k
                           end
                 end.
Proof.
  intros [-> | (l & -> & o & Hl)] E; unfold use in E.
  - apply bind_inr in E as (wa & cfg0 & Ea & E).
    apply bind_inr in Ea as (wa' & l0 & [= <- <-] & [= <- <-]).
    apply (use_body_inr this baseID _ ∅) in E as (Hnew & _ & c & cfg & Hi & Hid & Hkeys);
      [|apply lookup_fresh].
    split; [apply lookup_ge_None_2; simpl in Hnew; rewrite length_app in Hnew; lia|].
    split; [intros l [=]|].
    exists c, cfg. split; [exact Hi|]. split; [exact Hid|]. split.
    + destruct Hi as (_ & _ & _ & Hg). rewrite Hg. unfold field at 1. rewrite Hid. reflexivity.
    + intros k Hb Hk Hbid. rewrite (Hkeys k Hb Hk Hbid).
      rewrite this_config_alloc_empty, own_props_alloc_empty. reflexivity.
  - apply bind_inr in E as (wa & cfg0 & [= <- <-] & E).
    apply (use_body_inr this baseID l o) in E as (Hnew & Hwritten & c & cfg & Hi & Hid & Hkeys);
      [|exact Hl].
    split; [apply lookup_ge_None_2; lia|].
    split; [intros l' [= <-]; exact Hwritten|].
    exists c, cfg. split; [exact Hi|]. split; [exact Hid|]. split.
    + destruct Hi as (_ & _ & _ & Hg). rewrite Hg. unfold field at 1. rewrite Hid. reflexivity.
    + intros k Hb Hk Hbid. rewrite (Hkeys k Hb Hk Hbid). simpl. rewrite Hl. reflexivity.
Qed.
End use_outcome.

(** ** Single rows *)
Section single_rows.
Variable H : host.

(** X25.  With a first argument that is no array, an [update] or
    [replace] that returns has sent exactly one request: its own verb, to
    the merged table, carrying the row id, the data and the parameters
    [{typecast}] when the merged [typecast] is truthy and none otherwise; no
    chunking is involved.  The answer is the store's record under [complex]
    and its [_rawJson] otherwise. *)
Theorem row_write_sends_one_request method this rowID data config w w' v :
  isArray rowID = false ->
  update_or_replace H method this rowID data config w = (w', inr v) ->
  exists w1 cfg tableName complex typecast c answer,
    _mergeConfig H this config w = (w1, inr cfg) /\
    get_prop cfg "tableName" w1 = (w1, inr tableName) /\
    get_prop cfg "complex" w1 = (w1, inr complex) /\
    get_prop cfg "typecast" w1 = (w1, inr typecast) /\
    trace w' = trace w ++ [c] /\
    c_verb c = method /\ c_table c = tableName /\
    c_args c = [rowID; data; typecast_params typecast] /\
    remote H (trace w) c = inr answer /\
    shape complex answer w' = (w', inr v).
Proof.
  intros Ha E. unfold update_or_replace in E. rewrite Ha in E.
  apply bind_inr in E as (w1 & cfg & Em & E).
  apply bind_inr in E as (w2 & tableName & E1 & E).
  pose proof (get_prop_world _ _ _ _ _ E1) as ->.
  apply bind_inr in E as (w2 & base & E2 & E).
  pose proof (get_prop_world _ _ _ _ _ E2) as ->.
  apply bind_inr in E as (w2 & complex & E3 & E).
  pose proof (get_prop_world _ _ _ _ _ E3) as ->.
  apply bind_inr in E as (w2 & typecast & E4 & E).
  pose proof (get_prop_world _ _ _ _ _ E4) as ->.
  apply bind_inr in E as (w2 & answer & Er & E).
  pose proof (shape_world _ _ _ _ _ E) as ->.
  apply request_inr in Er as (key & container & Hw & Hr).
  pose proof (mergeConfig_trace H _ _ _ _ _ Em) as Ht.
  eexists w1, cfg, tableName, complex, typecast, _, answer.
  split; [exact Em|]. split; [exact E1|]. split; [exact E3|]. split; [exact E4|].
  split; [rewrite Hw; simpl; rewrite Ht; reflexivity|].
  split; [reflexivity|]. split; [reflexivity|]. split; [reflexivity|].
  split; [rewrite <- Ht; exact Hr | exact E].
Qed.

(** X26.  A [find] that returns has sent exactly one request, a find for
    the row id to the merged table, and answers the store's record under
    [complex] and its [_rawJson] otherwise. *)
Theorem find_sends_one_request this rowID config w w' v :
  find H this rowID config w = (w', inr v) ->
  exists w1 cfg tableName complex c answer,
    _mergeConfig H this config w = (w1, inr cfg) /\
    get_prop cfg "tableName" w1 = (w1, inr tableName) /\
    get_prop cfg "complex" w1 = (w1, inr complex) /\
    trace w' = trace w ++ [c] /\
    c_verb c = Find /\ c_table c = tableName /\ c_args c = [rowID] /\
    remote H (trace w) c = inr answer /\
    shape complex answer w' = (w', inr v).
Proof.
  intros E. unfold find in E.
  apply bind_inr in E as (w1 & cfg & Em & E).
  apply bind_inr in E as (w2 & tableName & E1 & E).
  pose proof (get_prop_world _ _ _ _ _ E1) as ->.
  apply bind_inr in E as (w2 & complex & E3 & E).
  pose proof (get_prop_world _ _ _ _ _ E3) as ->.
  apply bind_inr in E as (w2 & base & E2 & E).
  pose proof (get_prop_world _ _ _ _ _ E2) as ->.
  apply bind_inr in E as (w2 & answer & Er & E).
  pose proof (shape_world _ _ _ _ _ E) as ->.
  apply request_inr in Er as (key & container & Hw & Hr).
  pose proof (mergeConfig_trace H _ _ _ _ _ Em) as Ht.
  eexists w1, cfg, tableName, complex, _, answer.
  split; [exact Em|]. split; [exact E1|]. split; [exact E3|].
  split; [rewrite Hw; simpl; rewrite Ht; reflexivity|].
  split; [reflexivity|]. split; [reflexivity|]. split; [reflexivity|].
  split; [rewrite <- Ht; exact Hr | exact E].
Qed.
End single_rows.

(** ** Bulk writes and the merged [transform] *)

Lemma chunkData_nonempty data : _chunkData data <> [].
Proof.
  unfold _chunkData. destruct data; try discriminate.
  destruct (10 <? length items)%nat eqn:Hl; [|discriminate].
  intros Hi. apply (f_equal length) in Hi. rewrite chunk_length in Hi.
  apply Nat.ltb_lt in Hl. change (length (@nil (list value))) with 0 in Hi.
  pose proof (Nat.div_mod (length items + 10 - 1) 10).
  pose proof (Nat.mod_upper_bound (length items + 10 - 1) 10). lia.
Qed.

Section bulk_writes.
Variable H : host.

(** [update] and [replace] on an array: the requests carry the chunks of
    the array, in order. *)
Lemma write_batch_inr method this records config extra w w' v :
  update_or_replace H method this (VArr records) config extra w = (w', inr v) ->
  exists calls,
    trace w' = trace w ++ calls /\
    Forall (is_verb method) calls /\
    map items_of calls = _chunkData (VArr records).
Proof.
  intros E. unfold update_or_replace in E. simpl in E.
  apply bind_inr in E as (w1 & cfg & Em & E).
  apply mergeConfig_trace in Em.
  apply bind_inr in E as (w2 & tableName & E1 & E).
  pose proof (get_prop_world _ _ _ _ _ E1) as ->.
  apply bind_inr in E as (w2 & base & E2 & E).
  pose proof (get_prop_world _ _ _ _ _ E2) as ->.
  apply bind_inr in E as (w2 & complex & E3 & E).
  pose proof (get_prop_world _ _ _ _ _ E3) as ->.
  apply bind_inr in E as (w2 & typecast & E4 & E).
  pose proof (get_prop_world _ _ _ _ _ E4) as ->.
  apply handleBatch_inr in E as (res & Er & _).
  apply (batch_workers_inr H method) in Er as (calls & Ht & Hall).
  apply Forall2_items in Hall as (Hitems & Hverbs).
  exists calls. rewrite <- Em. auto.
Qed.

(** X27.  An [updateWhere] or [replaceWhere] that returns has sent one
    select with the filter it was given and then writes of its own verb
    that carry, in order and in chunks, one item [{id, fields: data}] per
    row the read answered, the id being [getId()] of the record under
    [complex] and its [id] otherwise.  At least one write is sent: when the
    read answers no row, a write with no item. *)
Theorem bulk_write_covers_rows_read method this where_ data config w w' v :
  update_or_replace_where H method this where_ data config w = (w', inr v) ->
  exists w1 cfg w2 rows ids sel calls,
    _mergeConfig H this config w = (w1, inr cfg) /\
    read H this (VObj [("filterByFormula", where_)]) cfg w1 = (w2, inr (VArr rows)) /\
    mapM (row_id cfg) rows w2 = (w2, inr ids) /\
    trace w' = trace w ++ sel :: calls /\
    c_verb sel = Select /\ c_args sel = [VObj [("filterByFormula", where_)]] /\
    calls <> [] /\ Forall (is_verb method) calls /\
    concat (map items_of calls)
    = map (fun id => VObj [("id", id); ("fields", data)]) ids.
Proof.
  intros E. unfold update_or_replace_where in E.
  apply bind_inr in E as (w1 & cfg & Em & E).
  apply bind_inr in E as (w2 & rowsv & Er & E).
  apply bind_inr in E as (w3 & records & Ei & E).
  pose proof Er as Er'.
  apply read_inr in Er'
    as (wm & cfg' & tableName & camelCase & transform & complex & base & answer
        & recs & rows & Em' & _ & _ & _ & _ & _ & Eq & _ & _ & ->).
  apply request_inr in Eq as (key & container & Hw2 & _). simpl in Hw2.
  apply mergeConfig_trace in Em'.
  unfold array_map in Ei. apply id_and_fields_inr in Ei as (-> & ids & Eids & ->).
  apply write_batch_inr in E as (calls & Ht & Hverbs & Hitems).
  eexists w1, cfg, w2, rows, ids, _, calls.
  split; [exact Em|]. split; [exact Er|]. split; [exact Eids|].
  split; [rewrite Ht, Hw2; simpl;
          rewrite Em', (mergeConfig_trace H _ _ _ _ _ Em), <- app_assoc; reflexivity|].
  split; [reflexivity|]. split; [reflexivity|]. split.
  - intros ->. symmetry in Hitems. exact (chunkData_nonempty _ Hitems).
  - split; [exact Hverbs|]. rewrite Hitems. apply chunkData_concat.
Qed.
End bulk_writes.

Section merged_transform.
Variable H : host.

(** X28.  On an instance as its constructor left it, every configuration
    a merge answers holds a [transform] that is a function or [undefined],
    whatever the override (none, a table name, an object, anything else):
    line 980 clears what is no function in the override, and the instance's
    own [transform] is the only other source.  So a merged [transform]
    that is truthy is a function. *)
Theorem merged_transform_is_function_or_undefined this c0 o0 ov w w' r :
  instance_ok this c0 o0 w ->
  _mergeConfig H this ov w = (w', inr r) ->
  exists c cfg,
    r = VRef c /\ heap w' !! c = Some cfg /\ transform_ok cfg /\
    (truthy (field cfg "transform") = true -> is_function (field cfg "transform") = true).
Proof.
  intros (Hthis & Hc0 & Hok & _) E.
  cut (exists c cfg, r = VRef c /\ heap w' !! c = Some cfg /\ transform_ok cfg).
  { intros (c & cfg & Hr & Hc & Hgood). exists c, cfg. repeat (split; [assumption|]).
    destruct Hgood as (t & Hsome & [Hf | ->]); unfold field; rewrite Hsome; simpl;
      [intros _; exact Hf | discriminate]. }
  destruct (truthy ov) eqn:Ht.
  - apply (mergeConfig_inr H this ov w w' r Ht) in E
      as (w1 & w2 & override & cfg & Eo & Er & -> & ->).
    destruct (override_keeps_instance this c0 o0 ov w w1 _ Hthis Hc0 Hok Eo) as (Hta & Hca).
    apply override_transform in Eo as Hov.
    apply resolve_base_inr in Er as (h & key & -> & _ & _ & Hh & _ & _).
    eexists _, _. split; [reflexivity|].
    split; [simpl; rewrite Hh; apply lookup_fresh|].
    unfold transform_ok. setoid_rewrite lookup_insert_ne; [|discriminate].
    destruct Hov as [Hnone | (t & Hsome & Hgood)].
    + destruct Hok as (t & Hsome & Hgood). exists t. split; [|exact Hgood].
      rewrite lookup_union_r by exact Hnone. rewrite Hta. simpl. rewrite Hca. exact Hsome.
    + exists t. split; [|exact Hgood]. apply lookup_union_Some_l. exact Hsome.
  - rewrite (mergeConfig_absent H this ov w Ht) in E. injection E as <- <-.
    exists c0, o0. auto.
Qed.
End merged_transform.

(** ** Table copies *)

Section copies.
Variable H : host.

Lemma named_shorthand s w w' r :
  table_shorthand (VStr s) w = (w', inr r) ->
  exists l, r = VRef l /\ named l (VStr s) w' /\ trace w' = trace w.
Proof.
  unfold table_shorthand. simpl. intros [= <- <-].
  exists (length (heap w)). split; [reflexivity|]. split; [|reflexivity].
  exists {[ "tableName" := VStr s ]}. split; [apply lookup_fresh | apply lookup_singleton_eq].
Qed.

Lemma shorthand_keeps cfg w w' r l x :
  table_shorthand cfg w = (w', r) -> named l x w -> named l x w'.
Proof.
  unfold table_shorthand. destruct (String.eqb _ _); intros [= <- _]; [|auto].
  intros (o & Ho & Hx). exists o. split; [|exact Hx].
  simpl. rewrite lookup_app_l; [exact Ho | eapply lookup_lt_Some, Ho].
Qed.

Lemma merge_keeps_named this ov w w' r l x :
  _mergeConfig H this ov w = (w', r) -> named l x w -> named l x w'.
Proof.
  intros E (o & Ho & Hx).
  destruct (mergeConfig_heap_keys H this ov w w' r l o E Ho) as (o' & Ho' & Hsame).
  exists o'. split; [exact Ho'|]. rewrite Hsame by discriminate. exact Hx.
Qed.

(** A merge with a named object as the override answers its table. *)
Lemma merge_named this l x w w' r :
  named l x w -> _mergeConfig H this (VRef l) w = (w', inr r) ->
  get_prop r "tableName" w' = (w', inr x).
Proof.
  intros (o & Ho & Hx) E.
  apply (mergeConfig_lookup H this (VRef l) w w' r "tableName" eq_refl) in E
    as (w1 & override & cfg & Eo & -> & Hc & Hlook); [|discriminate|discriminate].
  rewrite (override_of_ref_lookup l o w w1 override "tableName" Ho ltac:(discriminate) Eo),
    Hx in Hlook.
  unfold get_prop, own_props. rewrite Hc. simpl. rewrite Hlook. reflexivity.
Qed.

Lemma read_keeps_named this params cfg w w' v l x :
  read H this params cfg w = (w', inr v) -> named l x w -> named l x w'.
Proof.
  intros E Hn. apply read_inr in E
    as (w1 & cfg' & tableName & camelCase & transform & complex & base & answer
        & records & rows & Em & _ & _ & _ & _ & _ & Eq & _ & _ & _).
  apply request_inr in Eq as (key & container & -> & _).
  exact (merge_keeps_named this cfg w w1 _ l x Em Hn).
Qed.

Lemma read_named this params l x w w' v :
  typeof params <> "string" -> named l x w ->
  read H this params (VRef l) w = (w', inr v) ->
  (exists sel, trace w' = trace w ++ [sel] /\ c_table sel = x) /\
  forall l' y, named l' y w -> named l' y w'.
Proof.
  intros Hp Hl E. apply read_inr in E
    as (w1 & cfg & tableName & camelCase & transform & complex & base & answer
        & records & rows & Em & Et & _ & _ & _ & _ & Eq & _ & _ & _).
  rewrite (merge_named this l x w w1 cfg Hl Em) in Et. injection Et as <-.
  apply request_inr in Eq as (key & container & -> & _).
  assert (Hs : String.eqb (typeof params) "string" = false).
  { destruct (String.eqb (typeof params) "string") eqn:Es; [|reflexivity].
    apply String.eqb_eq in Es. contradiction. }
  split.
  - eexists. split; [simpl; rewrite (mergeConfig_trace H _ _ _ _ _ Em); reflexivity|].
    simpl. rewrite Hs. reflexivity.
  - intros l' y Hn. exact (merge_keeps_named this (VRef l) w w1 _ l' y Em Hn).
Qed.

Lemma create_named this data l x w w' v :
  named l x w -> create H this data (VRef l) w = (w', inr v) ->
  exists calls, trace w' = trace w ++ calls /\ Forall (fun c => c_table c = x) calls.
Proof.
  intros Hl E. unfold create in E. destruct (empty_data data); [discriminate|].
  apply bind_inr in E as (w1 & cfg & Em & E).
  apply bind_inr in E as (w2 & tableName & E1 & E).
  rewrite (merge_named this l x w w1 cfg Hl Em) in E1. injection E1 as <- <-.
  apply bind_inr in E as (w2 & base & E2 & E).
  pose proof (get_prop_world _ _ _ _ _ E2) as ->.
  apply bind_inr in E as (w2 & complex & E3 & E).
  pose proof (get_prop_world _ _ _ _ _ E3) as ->.
  apply bind_inr in E as (w2 & typecast & E4 & E).
  pose proof (get_prop_world _ _ _ _ _ E4) as ->.
  apply handleBatch_inr in E as (res & Er & _).
  apply (batch_workers_inr H Create) in Er as (calls & Ht & Hall).
  exists calls. split; [rewrite Ht, (mergeConfig_trace H _ _ _ _ _ Em); reflexivity|].
  apply Forall2_params in Hall. eapply Forall_impl; [exact Hall|]. intros c (Hc & _). exact Hc.
Qed.

Lemma delete_workers_table base tableName complex chunks w w' res :
  mapM (fun items =>
          records <- _throttle (request H base tableName Destroy [VArr items]) ;;
          mapped <- array_map (fun record =>
                      if truthy complex then ret record
                      else id <- get_prop record "id" ;;
                           ret (VObj [("id", id); ("fields", VObj []); ("createdTime", VNull)]))
                    records ;;
          ret (VArr mapped)) chunks w = (w', inr res) ->
  exists calls, trace w' = trace w ++ calls /\ Forall (fun c => c_table c = tableName) calls.
Proof.
  revert w res. induction chunks as [|items chunks IH]; intros w res Er; simpl in Er.
  - injection Er as <- _. exists []. rewrite app_nil_r. split; [reflexivity | constructor].
  - apply bind_inr in Er as (wa & y & Ey & Er).
    apply bind_inr in Er as (wb & ys & Eys & [= <- _]).
    apply delete_worker_inr in Ey as (c & mapped & Ht & _ & Htab & _).
    apply IH in Eys as (calls & Ht' & Hall).
    exists (c :: calls). split; [rewrite Ht', Ht, <- app_assoc; reflexivity|].
    constructor; assumption.
Qed.

Lemma delete_named this rowID l x w w' v :
  named l x w -> delete H this rowID (VRef l) w = (w', inr v) ->
  exists calls, trace w' = trace w ++ calls /\ Forall (fun c => c_table c = x) calls.
Proof.
  intros Hl E. unfold delete in E.
  apply bind_inr in E as (w1 & cfg & Em & E).
  apply bind_inr in E as (w2 & tableName & E1 & E).
  rewrite (merge_named this l x w w1 cfg Hl Em) in E1. injection E1 as <- <-.
  apply bind_inr in E as (w2 & base & E2 & E).
  pose proof (get_prop_world _ _ _ _ _ E2) as ->.
  apply bind_inr in E as (w2 & complex & E3 & E).
  pose proof (get_prop_world _ _ _ _ _ E3) as ->.
  apply handleBatch_inr in E as (res & Er & _).
  apply delete_workers_table in Er as (calls & Ht & Hall).
  exists calls. split; [rewrite Ht, (mergeConfig_trace H _ _ _ _ _ Em); reflexivity | exact Hall].
Qed.

Lemma merge_named_ref this l x w w' r :
  named l x w -> _mergeConfig H this (VRef l) w = (w', inr r) ->
  exists c, r = VRef c /\ named c x w'.
Proof.
  intros (o & Ho & Hx) E.
  apply (mergeConfig_lookup H this (VRef l) w w' r "tableName" eq_refl) in E
    as (w1 & override & cfg & Eo & -> & Hc & Hlook); [|discriminate|discriminate].
  rewrite (override_of_ref_lookup l o w w1 override "tableName" Ho ltac:(discriminate) Eo),
    Hx in Hlook.
  eexists. split; [reflexivity|]. exists cfg. auto.
Qed.

Lemma truncate_named this l d w w' v :
  named l d w -> truncate H this (VRef l) w = (w', inr v) ->
  exists sel dels,
    trace w' = trace w ++ sel :: dels /\
    c_table sel = d /\ Forall (fun c => c_table c = d) dels.
Proof.
  intros Hl E. unfold truncate in E.
  apply bind_inr in E as (w1 & cfg & Em & E).
  destruct (merge_named_ref this l d w w1 cfg Hl Em) as (c & -> & Hc).
  apply bind_inr in E as (w2 & rows & Er & E).
  apply (read_named this (VObj []) c d w1 w2 rows ltac:(discriminate) Hc) in Er
    as ((sel & Hts & Htab) & Hkeep).
  apply bind_inr in E as (w3 & ids & Ei & E).
  pose proof (array_map_world _ _ _ _ _ (row_id_world (VRef c)) Ei) as ->.
  apply (delete_named this (VArr ids) c d w2 w' v (Hkeep c d Hc)) in E as (dels & Htd & Hall).
  exists sel, dels. split; [|auto].
  rewrite Htd, Hts, (mergeConfig_trace H _ _ _ _ _ Em), <- app_assoc. reflexivity.
Qed.

Lemma phases_from Ps w0 w w' : trace w0 = trace w -> phases Ps w0 w' -> phases Ps w w'.
Proof. intros Ht (groups & Hg & Hall). exists groups. rewrite <- Ht. auto. Qed.

Lemma table_shorthand_inr cfg w : exists w' r, table_shorthand cfg w = (w', inr r).
Proof. unfold table_shorthand. destruct (String.eqb _ _); eexists _, _; reflexivity. Qed.

(** X15.  [overwriteTable] empties the destination before it reads the
    source.  Whatever the outcome: either the truncation of the destination
    threw, and then that is the outcome and nothing was sent but its
    selects and destroys; or the truncation returned first, having sent one
    select with the parameters [{}] and then at least one destroy (both to
    the destination table, when the destination is given by name), and
    only then the copy ran, from the state the truncation left, and sent
    selects and then creates. *)
Theorem overwriteTable_truncates_first this sourceCfg destCfg w w' r :
  overwriteTable H this sourceCfg destCfg w = (w', r) ->
  exists w0 dst,
    table_shorthand destCfg w = (w0, inr dst) /\
    ((exists e, truncate H this dst w0 = (w', inl e) /\ r = inl e /\
                phases [is_verb Select; is_verb Destroy] w w')
     \/
     exists w1 v1 sel dels,
       truncate H this dst w0 = (w1, inr v1) /\
       trace w1 = trace w ++ sel :: dels /\
       c_verb sel = Select /\ c_args sel = [VObj []] /\
       dels <> [] /\ Forall (is_verb Destroy) dels /\
       (forall d, destCfg = VStr d ->
          c_table sel = VStr d /\ Forall (fun c => c_table c = VStr d) dels) /\
       appendTable H this sourceCfg dst w1 = (w', r) /\
       phases [is_verb Select; is_verb Create] w1 w').
Proof.
  intros E. unfold overwriteTable in E.
  destruct (table_shorthand_inr destCfg w) as (w0 & dst & Es).
  rewrite (bind_eq _ _ _ _ _ Es) in E.
  pose proof (table_shorthand_trace _ _ _ _ Es) as Ht0.
  exists w0, dst. split; [exact Es|].
  unfold bind in E. destruct (truncate H this dst w0) as [w1 [e|v1]] eqn:Et.
  - injection E as <- <-. left. exists e. split; [reflexivity|]. split; [reflexivity|].
    apply (phases_from _ w0 w w1 Ht0). eapply phases_truncate, Et.
  - right. pose proof Et as Et'. unfold truncate in Et'.
    apply bind_inr in Et' as (wa & cfg & Em & Et').
    apply read_then_delete_inr in Et'
      as (w2 & rows & ids & sel & dels & _ & _ & Ht & Hv & Ha & Hne & Hd & _);
      [|discriminate | reflexivity].
    rewrite (mergeConfig_trace H _ _ _ _ _ Em), Ht0 in Ht.
    exists w1, v1, sel, dels.
    split; [reflexivity|]. split; [exact Ht|]. split; [exact Hv|]. split; [exact Ha|].
    split; [exact Hne|]. split; [exact Hd|]. split.
    + intros d ->. apply named_shorthand in Es as (l & -> & Hl & _).
      pose proof (truncate_named this l (VStr d) w0 w1 v1 Hl Et)
        as (sel' & dels' & Ht' & Htab & Hall).
      rewrite Ht0, Ht in Ht'. apply app_inv_head in Ht'.
      injection Ht' as Hsel Hdels. subst sel' dels'. auto.
    + split; [exact E|]. eapply phases_appendTable, E.
Qed.

(** X21.  An [appendTable] that returns has read the source and written
    to the destination, in that order, and has read at least one row.  The
    configurations are the caller's, a name standing for [{tableName:
    name}]; the one select is a read with the source configuration,
    carrying the source's [where] as filter (or the empty string) and the
    source's [fields] (or none); the requests after it are the creates of
    [create] with the destination configuration, ceil(n/10) of them for
    the n rows read, carrying in order the [fields] of each row and nothing
    else of it.  A source given by name is the table of the select, a
    destination given by name the table of every create.  When the read
    answers no row, line 896 hands [create] an empty array and the call
    rejects. *)
Theorem appendTable_copies_fields this sourceCfg destCfg w w' v :
  appendTable H this sourceCfg destCfg w = (w', inr v) ->
  exists wa src wb dst where_ fields w2 rows records sel calls,
    let params :=
      VObj [("filterByFormula", if truthy where_ then where_ else VStr "");
            ("fields", if truthy fields then fields else VArr [])] in
    table_shorthand sourceCfg w = (wa, inr src) /\
    table_shorthand destCfg wa = (wb, inr dst) /\
    get_prop src "where" wb = (wb, inr where_) /\
    get_prop src "fields" wb = (wb, inr fields) /\
    read H this params src wb = (w2, inr (VArr rows)) /\
    rows <> [] /\
    mapM (fun rec => get_prop rec "fields") rows w2 = (w2, inr records) /\
    create H this (VArr records) dst w2 = (w', inr v) /\
    trace w' = trace w ++ sel :: calls /\
    c_verb sel = Select /\ c_args sel = [params] /\
    Forall (is_verb Create) calls /\
    length calls = (length rows + 9) / 10 /\
    concat (map items_of calls) = records /\
    (forall s, sourceCfg = VStr s -> c_table sel = VStr s) /\
    (forall d, destCfg = VStr d -> Forall (fun c => c_table c = VStr d) calls).
Proof.
  intros E. unfold appendTable in E.
  apply bind_inr in E as (wa & src & Es & E).
  apply bind_inr in E as (wb & dst & Ed & E).
  pose proof (table_shorthand_trace _ _ _ _ Es) as Hts.
  pose proof (table_shorthand_trace _ _ _ _ Ed) as Htd.
  apply bind_inr in E as (wc & where_ & E1 & E).
  pose proof (get_prop_world _ _ _ _ _ E1) as ->.
  apply bind_inr in E as (wc & fields & E2 & E).
  pose proof (get_prop_world _ _ _ _ _ E2) as ->.
  apply bind_inr in E as (w2 & rowsv & Er & E).
  apply bind_inr in E as (w3 & records & Ef & E).
  pose proof (array_map_world _ _ _ _ _ (fun a => get_prop_world a "fields") Ef) as ->.
  pose proof Er as Er0.
  apply read_inr in Er
    as (wm & cfg' & tableName & camelCase & transform & complex & base & answer
        & recs & rows & Em & _ & _ & _ & _ & _ & Eq & _ & _ & ->).
  apply request_inr in Eq as (key & container & Hw2 & _). simpl in Hw2.
  match type of Hw2 with _ = set_trace (_ ++ [?c]) _ => set (sel := c) in * end.
  apply mergeConfig_trace in Em.
  pose proof E as Ec.
  unfold create in E. destruct (empty_data (VArr records)) eqn:Hempty; [discriminate|].
  assert (Hrec : records <> []) by (intros ->; discriminate).
  apply bind_inr in E as (w4 & cfg & Em4 & E).
  apply bind_inr in E as (w5 & tn & E3 & E).
  pose proof (get_prop_world _ _ _ _ _ E3) as ->.
  apply bind_inr in E as (w5 & base5 & E4 & E).
  pose proof (get_prop_world _ _ _ _ _ E4) as ->.
  apply bind_inr in E as (w5 & complex5 & E5 & E).
  pose proof (get_prop_world _ _ _ _ _ E5) as ->.
  apply bind_inr in E as (w5 & typecast & E6 & E).
  pose proof (get_prop_world _ _ _ _ _ E6) as ->.
  apply handleBatch_inr in E as (res & Eres & _).
  apply (batch_workers_inr H Create) in Eres as (calls & Ht & Hall).
  apply Forall2_items in Hall as (Hitems & Hverbs).
  apply mergeConfig_trace in Em4.
  simpl in Ef.
  assert (Hlen : length records = length rows) by (eapply mapM_length, Ef).
  assert (Htrace : trace w' = trace w ++ sel :: calls).
  { rewrite Ht, Em4, Hw2. simpl. rewrite Em, Htd, Hts, <- app_assoc. reflexivity. }
  exists wa, src, wb, dst, where_, fields, w2, rows, records, sel, calls.
  split; [exact Es|]. split; [exact Ed|].
  split; [exact E1|]. split; [exact E2|]. split; [exact Er0|].
  split; [intros ->; destruct records; [congruence | discriminate]|].
  split; [exact Ef|]. split; [exact Ec|].
  split; [exact Htrace|].
  split; [reflexivity|]. split; [reflexivity|]. split; [exact Hverbs|].
  split; [rewrite <- (length_map items_of), Hitems, <- Hlen;
          apply chunkData_array_length, Hrec|].
  split; [rewrite Hitems; apply chunkData_concat|]. split.
  - intros s ->. apply named_shorthand in Es as (l & -> & Hl & _).
    pose proof (shorthand_keeps _ _ _ _ _ _ Ed Hl) as Hl'.
    edestruct (read_named this) as ((sel' & Hts' & Htab) & _);
      [| exact Hl' | exact Er0 |]; [discriminate|].
    rewrite Hw2 in Hts'. simpl in Hts'. rewrite Em in Hts'.
    apply app_inv_head in Hts'. injection Hts' as <-. exact Htab.
  - intros d ->. apply named_shorthand in Ed as (l & -> & Hl & _).
    pose proof (read_keeps_named this _ src wb w2 _ l (VStr d) Er0 Hl) as Hl2.
    pose proof (create_named this _ l (VStr d) w2 w' v Hl2 Ec) as (calls' & Ht' & Hall').
    rewrite Ht, Em4 in Ht'. apply app_inv_head in Ht'. subst calls'. exact Hall'.
Qed.
End copies.

(** ** Calls that return *)

Section returns.
Variable H : host.

Lemma get_prop_ref c o k w :
  heap w !! c = Some o -> get_prop (VRef c) k w = (w, inr (field o k)).
Proof. intros Hc. unfold get_prop, own_props, field. rewrite Hc. reflexivity. Qed.


Lemma request_ok h key container table v args w :
  bases w !! h = Some (key, container) ->
  request H (VBase h) table v args w
  = (set_trace (trace w ++ [Call key container table v args]) w,
     remote H (trace w) (Call key container table v args)).
Proof. intros Hh. unfold request. rewrite Hh. reflexivity. Qed.

Lemma mapM_records (f : value -> M value) (g : value -> value) raws w :
  (forall raw, f (VRich raw) w = (w, inr (g raw))) ->
  mapM f (map VRich raws) w = (w, inr (map g raws)).
Proof.
  intros Hf. induction raws as [|raw raws IH]; simpl; [reflexivity|].
  rewrite (bind_eq _ _ _ _ _ (Hf raw)), (bind_eq _ _ _ _ _ IH). reflexivity.
Qed.

(** Records are shaped without fail. *)
Lemma shape_records complex raws w :
  array_map (shape complex) (VArr (map VRich raws)) w
  = (w, inr (if truthy complex then map VRich raws else raws)).
Proof.
  unfold array_map.
  rewrite (mapM_records _ (fun raw => if truthy complex then VRich raw else raw)).
  - destruct (truthy complex); [reflexivity|]. rewrite map_id. reflexivity.
  - intros raw. unfold shape. destruct (truthy complex); reflexivity.
Qed.

(** [read] returns when the merge answers a configuration with a handle
    of the SDK and a [transform] that is a caller function or absent, and
    the store answers Records. *)
Lemma read_returns this params config w w1 c o h key container :
  _mergeConfig H this config w = (w1, inr (VRef c)) ->
  heap w1 !! c = Some o ->
  field o "base" = VBase h -> bases w1 !! h = Some (key, container) ->
  (field o "transform" = VUndefined \/ exists f, field o "transform" = VFun f) ->
  answers_records H ->
  exists sel rows,
    read H this params config w
    = (set_trace (trace w1 ++ [sel]) w1, inr (VArr rows)).
Proof.
  intros Hm Ho Hb Hh Ht Hs. unfold read, _throttle.
  rewrite (bind_eq _ _ _ _ _ Hm).
  do 5 rewrite (bind_eq _ _ _ _ _ (get_prop_ref c o _ w1 Ho)).
  rewrite Hb.
  set (table := if String.eqb (typeof params) "string" then params else field o "tableName").
  set (query := if truthy (if String.eqb (typeof params) "string" then VObj [] else params)
                then (if String.eqb (typeof params) "string" then VObj [] else params)
                else VObj []).
  destruct (Hs (trace w1) (Call key container table Select [query]) (or_introl eq_refl))
    as (raws & Hr).
  pose proof (request_ok h key container table Select [query] w1 Hh) as Hq.
  rewrite Hr in Hq. rewrite (bind_eq _ _ _ _ _ Hq).
  rewrite (bind_eq _ _ _ _ _ (shape_records _ raws _)).
  unfold bind at 1. cbn [get_world].
  exists (Call key container table Select [query]).
  unfold read_post. destruct Ht as [-> | (f & ->)]; cbn [truthy]; eexists; reflexivity.
Qed.







End returns.

Section total.
Variable H : host.

(** C5.  [read] applies the key-casing first and the caller transform
    second, and returns: when the merge answers a configuration with a
    handle of the SDK and a caller function [f] as [transform], and the
    store answers Records, [read] returns, having sent one select; the
    records of the answer (shaped by [complex]) are key-cased first if
    [camelCase] is on, and [f] is applied to a copy of each of those.  If
    every result is falsy, the answer is the key-cased, untransformed
    records; if some result is truthy, the answer is the truthy results, in
    order, and nothing else. *)
Theorem read_applies_transform this params config w w1 c o h key container f :
  _mergeConfig H this config w = (w1, inr (VRef c)) ->
  heap w1 !! c = Some o ->
  field o "base" = VBase h -> bases w1 !! h = Some (key, container) ->
  field o "transform" = VFun f ->
  answers_records H ->
  exists w' v,
    read H this params config w = (w', inr v) /\
    transform_applied H this config w w' v.
Proof.
  intros Hm Ho Hb Hh Hf Hs.
  destruct (read_returns H this params config w w1 c o h key container Hm Ho Hb Hh
              (or_intror (ex_intro _ f Hf)) Hs) as (sel & rows & Hr).
  eexists _, _. split; [exact Hr|].
  apply (read_inr_transform_applied H this params), Hr.
Qed.

End total.

(** ** Instances of the further properties *)

(** On the demo store, [new AirtablePlus()] in the fresh world puts the
    instance at address 0 and its configuration at address 2.

    [returned out v E]: the computation [out] returned, [v] is its answer
    and [E] says so. *)
Ltac returned out v E :=
  let Es := fresh "Es" in
  destruct (snd out) as [?|v] eqn:Es; [vm_compute in Es; discriminate|];
  assert (E : out = (fst out, inr v)) by (rewrite <- Es; apply surjective_pairing).

(** Eleven records through the identity worker, two chunks in flight, come
    back in order. *)
Lemma handleBatch_identity_worker_witness :
  _handleBatch (VArr (replicate 11 foo)) (VObj [("concurrency", VNum 2)])
    (fun chunk => ret (VArr chunk)) fresh_world
  = (fresh_world, inr (VArr (replicate 11 foo))).
Proof.
  assert (Hp : Forall plain (replicate 11 foo)) by (repeat constructor).
  assert (Hc : get_prop (VObj [("concurrency", VNum 2)]) "concurrency" fresh_world
               = (fresh_world, inr (VNum 2))) by reflexivity.
  assert (Hn : (1 <= 2)%Z) by lia.
  exact (handleBatch_identity_worker (replicate 11 foo) (VObj [("concurrency", VNum 2)]) 2
           fresh_world Hp Hc Hn).
Defined.

(** An override [{tableName: "Other"}] at address 3: the merged
    configuration has the override's table and the instance's
    [concurrency]. *)
Lemma mergeConfig_override_wins_per_key_witness :
  let H := demo (VArr []) in
  let o : gmap string value := {[ "tableName" := VStr "Other" ]} in
  let w := fst (on_fresh_instance (VArr []) VUndefined (fun _ _ => alloc o)) in
  let out := _mergeConfig H 0 (VRef 3) w in
  exists cfg cfg',
    heap (fst out) !! 4 = Some cfg /\ cfg !! "tableName" = Some (VStr "Other") /\
    heap (fst out) !! 4 = Some cfg' /\ cfg' !! "concurrency" = Some (VNum 1).
Proof.
  intros H o w out.
  assert (Hl : heap w !! 3 = Some o) by (vm_compute; reflexivity).
  assert (E : out = (fst out, inr (VRef 4))) by (vm_compute; reflexivity).
  destruct (mergeConfig_override_wins_per_key H 0 3 o w (fst out) 4 "tableName" Hl
              ltac:(discriminate) ltac:(discriminate) E) as (cfg & Hc & Hk).
  destruct (mergeConfig_override_wins_per_key H 0 3 o w (fst out) 4 "concurrency" Hl
              ltac:(discriminate) ltac:(discriminate) E) as (cfg' & Hc' & Hk').
  exists cfg, cfg'. split; [exact Hc|]. split; [rewrite Hk; vm_compute; reflexivity|].
  split; [exact Hc'|]. rewrite Hk'. vm_compute. reflexivity.
Defined.

(** A merge with the table name ["Other"], and a second merge with its
    answer. *)
Lemma remerge_copies_configuration_witness :
  let H := demo (VArr []) in
  let w := fst (on_fresh_instance (VArr []) VUndefined (fun _ _ => ret tt)) in
  let o := default ∅ (heap w !! 2) in
  let out := _mergeConfig H 0 (VStr "Other") w in
  instance_ok 0 2 o w /\ out = (fst out, inr (VRef 3)) /\
  exists cfg,
    heap (fst out) !! 3 = Some cfg /\
    _mergeConfig H 0 (VRef 3) (fst out)
    = (set_heap (heap (fst out) ++ [cfg]) (fst out), inr (VRef (length (heap (fst out))))).
Proof.
  intros H w o out.
  assert (Hi : instance_ok 0 2 o w).
  { split; [vm_compute; reflexivity|]. split; [vm_compute; reflexivity|]. split.
    - exists VUndefined. split; [vm_compute; reflexivity | right; reflexivity].
    - vm_compute. reflexivity. }
  assert (E : out = (fst out, inr (VRef 3))) by (vm_compute; reflexivity).
  split; [exact Hi|]. split; [exact E|].
  exact (remerge_copies_configuration H 0 2 o (VStr "Other") w (fst out) 3 Hi
           (or_introl eq_refl) E).
Defined.

(** The instance of [new AirtablePlus()], and a merge on it. *)
Lemma constructed_instance_stays_ok_witness :
  let H := demo (VArr []) in
  let out := constructor H VUndefined fresh_world in
  out = (fst out, inr 0) /\
  exists c cfg,
    instance_ok 0 c cfg (fst out) /\
    instance_ok 0 c cfg (fst (_mergeConfig H 0 (VStr "Other") (fst out))).
Proof.
  intros H out.
  assert (E : out = (fst out, inr 0)) by (vm_compute; reflexivity).
  split; [exact E|].
  destruct (constructed_instance_stays_ok H VUndefined fresh_world (fst out) 0 E)
    as (c & cfg & Hi & Hstay).
  exists c, cfg. split; [exact Hi|].
  apply (Hstay (VStr "Other") _ (snd (_mergeConfig H 0 (VStr "Other") (fst out)))).
  apply surjective_pairing.
Defined.

(** A merge that changes the key mints one handle. *)
Lemma mergeConfig_mints_at_most_one_witness :
  let H := demo (VArr []) in
  let w := fst (on_fresh_instance (VArr []) (VObj [("apiKey", VStr "keyA")])
                  (fun _ _ => alloc {[ "apiKey" := VStr "keyB" ]})) in
  let out := _mergeConfig H 0 (VRef 3) w in
  bases (fst out) = bases w \/
  exists x cfg, bases (fst out) = bases w ++ [x] /\ snd out = inr cfg.
Proof.
  intros H w out.
  exact (mergeConfig_mints_at_most_one H 0 (VRef 3) w (fst out) (snd out)
           (surjective_pairing out)).
Defined.

(** A read of the table ["Other"]. *)
Lemma read_sends_one_select_witness :
  let H := demo demo_rows in
  let w := fst (on_fresh_instance demo_rows VUndefined (fun _ _ => ret tt)) in
  let out := read H 0 (VStr "Other") VUndefined w in
  exists sel,
    trace (fst out) = trace w ++ [sel] /\ c_verb sel = Select /\
    c_table sel = VStr "Other" /\ c_args sel = [VObj []].
Proof.
  intros H w out. returned out v E.
  destruct (read_sends_one_select H 0 (VStr "Other") VUndefined w (fst out) v E)
    as (sel & rows & _ & _ & Ht & Hv & Hname & _).
  destruct (Hname "Other" eq_refl) as (Htab & Hargs).
  exists sel. auto.
Defined.

(** Two ids deleted in one request. *)
Lemma delete_destroys_chunks_and_answers_ids_witness :
  let H := demo (VArr []) in
  let w := fst (on_fresh_instance (VArr []) VUndefined (fun _ _ => ret tt)) in
  let out := delete H 0 (VArr [VStr "recA"; VStr "recB"]) VUndefined w in
  exists calls,
    trace (fst out) = trace w ++ calls /\
    map items_of calls = [[VStr "recA"; VStr "recB"]].
Proof.
  intros H w out. returned out v E.
  destruct (delete_destroys_chunks_and_answers_ids H 0 _ VUndefined w (fst out) v E)
    as (w1 & cfg & complex & calls & _ & _ & Ht & _ & _ & Hitems & _).
  exists calls. split; [exact Ht | exact Hitems].
Defined.

(** Eleven records created in two requests. *)
Lemma create_sends_one_request_per_chunk_witness :
  let H := demo (VArr []) in
  let w := fst (on_fresh_instance (VArr []) VUndefined (fun _ _ => ret tt)) in
  let out := create H 0 (VArr (replicate 11 foo)) VUndefined w in
  exists calls,
    trace (fst out) = trace w ++ calls /\ length calls = 2 /\
    concat (map items_of calls) = replicate 11 foo.
Proof.
  intros H w out. returned out v E.
  destruct (create_sends_one_request_per_chunk H 0 _ VUndefined w (fst out) v E)
    as (w1 & cfg & tableName & typecast & calls & _ & _ & _ & Ht & _ & _ & _ & Harr).
  destruct (Harr _ eq_refl) as (_ & Hlen & Hcat).
  exists calls. split; [exact Ht|]. split; [exact Hlen | exact Hcat].
Defined.

(** A bulk delete on a store that answers two rows. *)
Lemma deleteWhere_destroys_what_it_read_witness :
  let H := demo demo_rows in
  let w := fst (on_fresh_instance demo_rows VUndefined (fun _ _ => ret tt)) in
  let out := deleteWhere H 0 (VStr "x") VUndefined w in
  exists sel calls,
    trace (fst out) = trace w ++ sel :: calls /\
    c_args sel = [VObj [("filterByFormula", VStr "x")]] /\
    calls <> [] /\ Forall (is_verb Destroy) calls.
Proof.
  intros H w out. returned out v E.
  destruct (deleteWhere_destroys_what_it_read H 0 (VStr "x") VUndefined w (fst out) v E)
    as (w1 & cfg & w2 & rows & ids & sel & calls & _ & _ & _ & Ht & _ & Ha & Hne & Hd & _).
  exists sel, calls. auto.
Defined.

(** Truncating a table the store finds empty: a destroy with no id. *)
Lemma truncate_destroys_every_row_read_witness :
  let H := demo (VArr []) in
  let w := fst (on_fresh_instance (VArr []) VUndefined (fun _ _ => ret tt)) in
  let out := truncate H 0 VUndefined w in
  exists sel calls,
    trace (fst out) = trace w ++ sel :: calls /\ c_args sel = [VObj []] /\
    calls <> [] /\ concat (map items_of calls) = [].
Proof.
  intros H w out. returned out v E.
  destruct (truncate_destroys_every_row_read H 0 VUndefined w (fst out) v E)
    as (w1 & cfg & w2 & rows & ids & sel & calls & Em & Er & Ei & Ht & _ & Ha & Hne & _
        & Hcat & Hempty).
  exists sel, calls. split; [exact Ht|]. split; [exact Ha|]. split; [exact Hne|].
  assert (Hm : (w1, inr cfg : exn + value) = (w, inr (VRef 2))).
  { rewrite <- Em. vm_compute. reflexivity. }
  injection Hm as -> ->.
  assert (Hr : (w2, inr (VArr rows) : exn + value)
               = (fst (read H 0 (VObj []) (VRef 2) w), inr (VArr []))).
  { rewrite <- Er. vm_compute. reflexivity. }
  injection Hr as _ ->. rewrite (Hempty eq_refl). reflexivity.
Defined.

(** A copy of two rows from the table ["From"] to the table ["To"]. *)
Lemma appendTable_copies_fields_witness :
  let H := demo demo_rows in
  let w := fst (on_fresh_instance demo_rows VUndefined (fun _ _ => ret tt)) in
  let out := appendTable H 0 (VStr "From") (VStr "To") w in
  exists sel calls,
    trace (fst out) = trace w ++ sel :: calls /\ c_verb sel = Select /\
    c_table sel = VStr "From" /\
    length calls = 1 /\ Forall (is_verb Create) calls /\
    Forall (fun c => c_table c = VStr "To") calls.
Proof.
  intros H w out. returned out v E.
  destruct (appendTable_copies_fields H 0 (VStr "From") (VStr "To") w (fst out) v E)
    as (wa & src & wb & dst & where_ & fields & w2 & rows & records & sel & calls
        & _ & _ & _ & _ & _ & Hne & Hf & _ & Ht & Hv & _ & Hc & Hlen & Hcat & Hsrc & Hdst).
  exists sel, calls. split; [exact Ht|]. split; [exact Hv|].
  split; [exact (Hsrc "From" eq_refl)|]. split; [|split; [exact Hc | exact (Hdst "To" eq_refl)]].
  assert (Htr : length (trace (fst out)) = 2) by (vm_compute; reflexivity).
  rewrite Ht in Htr. rewrite length_app in Htr. simpl in Htr.
  change (length (trace w)) with 0 in Htr. lia.
Defined.

(** The table ["To"] is emptied, then two rows of ["From"] are copied. *)
Lemma overwriteTable_truncates_first_witness :
  let H := demo demo_rows in
  let w := fst (on_fresh_instance demo_rows VUndefined (fun _ _ => ret tt)) in
  let out := overwriteTable H 0 (VStr "From") (VStr "To") w in
  exists v w1 sel dels,
    snd out = inr v /\
    trace w1 = trace w ++ sel :: dels /\ c_args sel = [VObj []] /\
    c_table sel = VStr "To" /\ dels <> [] /\
    Forall (fun c => c_table c = VStr "To") dels /\
    phases [is_verb Select; is_verb Create] w1 (fst out).
Proof.
  intros H w out. returned out v E.
  destruct (overwriteTable_truncates_first H 0 (VStr "From") (VStr "To") w (fst out) _ E)
    as (w0 & dst & _ & [(e & _ & [=] & _) | (w1 & v1 & sel & dels & _ & Ht & _ & Ha & Hne & _
                                             & Htab & _ & Hph)]).
  destruct (Htab "To" eq_refl) as (Hsel & Hdels).
  exists v, w1, sel, dels. auto 10.
Defined.

(** [new AirtablePlus({tableName: "T"})]. *)
Lemma constructor_prefers_caller_config_witness :
  let H := demo (VArr []) in
  let out := constructor H (VObj [("tableName", VStr "T")]) fresh_world in
  exists c cfg,
    instance_ok 0 c cfg (fst out) /\
    cfg !! "tableName" = Some (VStr "T") /\ cfg !! "concurrency" = Some (VNum 1).
Proof.
  intros H out.
  assert (E : out = (fst out, inr 0)) by (vm_compute; reflexivity).
  destruct (constructor_prefers_caller_config H _ fresh_world (fst out) 0 E)
    as (_ & _ & _ & c & cfg & Hi & Hk).
  exists c, cfg. split; [exact Hi|]. split.
  - rewrite Hk by discriminate. vm_compute. reflexivity.
  - rewrite Hk by discriminate. vm_compute. reflexivity.
Defined.

(** [use("appOther")] on a fresh instance: the instance is as it was. *)
Lemma use_leaves_parent_alone_witness :
  let H := demo (VArr []) in
  let w := fst (on_fresh_instance (VArr []) VUndefined (fun _ _ => ret tt)) in
  let o := default ∅ (heap w !! 2) in
  let out := use H 0 (VStr "appOther") VUndefined w in
  this_config 0 (fst out) = VRef 2 /\ heap (fst out) !! 2 = Some o /\
  trace (fst out) = trace w.
Proof.
  intros H w o out.
  assert (Ht : this_config 0 w = VRef 2) by (vm_compute; reflexivity).
  assert (Hc : heap w !! 2 = Some o) by (vm_compute; reflexivity).
  exact (use_leaves_parent_alone H 0 (VStr "appOther") VUndefined 2 o w (fst out) (snd out)
           Ht Hc ltac:(discriminate) ltac:(discriminate) (surjective_pairing out)).
Defined.

(** [use("appOther")] on a fresh instance: the new instance is bound to
    ["appOther"]. *)
Lemma use_binds_new_instance_witness :
  let H := demo (VArr []) in
  let w := fst (on_fresh_instance (VArr []) VUndefined (fun _ _ => ret tt)) in
  let out := use H 0 (VStr "appOther") VUndefined w in
  exists new c cfg,
    out = (fst out, inr new) /\ heap w !! new = None /\
    instance_ok new c cfg (fst out) /\
    getId (field cfg "base") (fst out) = (fst out, inr (VStr "appOther")).
Proof.
  intros H w out. returned out new E.
  destruct (use_binds_new_instance H 0 (VStr "appOther") VUndefined w (fst out) new
              (or_introl eq_refl) E)
    as (Hnew & _ & c & cfg & Hi & _ & Hg & _).
  exists new, c, cfg. auto.
Defined.

(** An update of one row on the single-row store. *)
Lemma row_write_sends_one_request_witness :
  let w := fst (constructor row_demo VUndefined fresh_world) in
  let out := update row_demo 0 (VStr "recA") foo VUndefined w in
  exists c,
    trace (fst out) = trace w ++ [c] /\ c_verb c = Update /\
    exists params, c_args c = [VStr "recA"; foo; params].
Proof.
  intros w out. returned out v E.
  destruct (row_write_sends_one_request row_demo Update 0 (VStr "recA") foo VUndefined
              w (fst out) v eq_refl E)
    as (w1 & cfg & tableName & complex & typecast & c & answer
        & _ & _ & _ & _ & Ht & Hv & _ & Ha & _).
  exists c. split; [exact Ht|]. split; [exact Hv|]. eexists. exact Ha.
Defined.

(** A find of one row on the single-row store. *)
Lemma find_sends_one_request_witness :
  let w := fst (constructor row_demo VUndefined fresh_world) in
  let out := find row_demo 0 (VStr "recA") VUndefined w in
  exists c,
    trace (fst out) = trace w ++ [c] /\ c_verb c = Find /\ c_args c = [VStr "recA"].
Proof.
  intros w out. returned out v E.
  destruct (find_sends_one_request row_demo 0 (VStr "recA") VUndefined w (fst out) v E)
    as (w1 & cfg & tableName & complex & c & answer & _ & _ & _ & Ht & Hv & _ & Ha & _).
  exists c. auto.
Defined.

(** A bulk update on a store that answers two rows. *)
Lemma bulk_write_covers_rows_read_witness :
  let H := demo demo_rows in
  let w := fst (on_fresh_instance demo_rows VUndefined (fun _ _ => ret tt)) in
  let out := updateWhere H 0 (VStr "x") foo VUndefined w in
  exists sel calls,
    trace (fst out) = trace w ++ sel :: calls /\
    c_args sel = [VObj [("filterByFormula", VStr "x")]] /\
    calls <> [] /\ Forall (is_verb Update) calls.
Proof.
  intros H w out. returned out v E.
  destruct (bulk_write_covers_rows_read H Update 0 (VStr "x") foo VUndefined w (fst out) v E)
    as (w1 & cfg & w2 & rows & ids & sel & calls & _ & _ & _ & Ht & _ & Ha & Hne & Hd & _).
  exists sel, calls. auto.
Defined.

(** An override whose [transform] is the number 5: the merged
    configuration has a [transform] that is no truthy non-function. *)
Lemma merged_transform_is_function_or_undefined_witness :
  let H := demo (VArr []) in
  let w := fst (on_fresh_instance (VArr []) VUndefined
                  (fun _ _ => alloc {[ "transform" := VNum 5 ]})) in
  let o := default ∅ (heap w !! 2) in
  let out := _mergeConfig H 0 (VRef 3) w in
  instance_ok 0 2 o w /\ out = (fst out, inr (VRef 4)) /\
  exists cfg, heap (fst out) !! 4 = Some cfg /\ transform_ok cfg.
Proof.
  intros H w o out.
  assert (Hi : instance_ok 0 2 o w).
  { split; [vm_compute; reflexivity|]. split; [vm_compute; reflexivity|]. split.
    - exists VUndefined. split; [vm_compute; reflexivity | right; reflexivity].
    - vm_compute. reflexivity. }
  assert (E : out = (fst out, inr (VRef 4))) by (vm_compute; reflexivity).
  split; [exact Hi|]. split; [exact E|].
  destruct (merged_transform_is_function_or_undefined H 0 2 o (VRef 3) w (fst out) (VRef 4)
              Hi E) as (c & cfg & [= <-] & Hc & Hok & _).
  exists cfg. split; [exact Hc | exact Hok].
Defined.

(** The demo store answers Records. *)
Lemma demo_record_rich item : exists raw, demo_record item = VRich raw.
Proof. unfold demo_record. repeat case_match; eauto. Qed.

Lemma demo_records_rich items : exists raws, map demo_record items = map VRich raws.
Proof.
  induction items as [|item items (raws & IH)]; [exists []; reflexivity|].
  destruct (demo_record_rich item) as (raw & Hraw).
  exists (raw :: raws). simpl. rewrite Hraw, IH. reflexivity.
Qed.

Lemma demo_answers_records raws : answers_records (demo (VArr (map VRich raws))).
Proof.
  intros history c Hc. simpl. unfold demo_remote.
  destruct Hc as [-> | (items & rest & ->)]; [eauto|].
  destruct (c_verb c); eauto using demo_records_rich;
    destruct (demo_records_rich items) as (rs & ->); eauto.
Qed.

(** A read with key-casing on and a caller function that answers nothing:
    the records come back key-cased and untransformed. *)
Lemma read_applies_transform_witness :
  let rows := VArr (map VRich cased_raws) in
  let H := demo rows in
  let w := fst (on_fresh_instance rows
                  (VObj [("transform", VFun 1); ("camelCase", VBool true)])
                  (fun _ _ => ret tt)) in
  let o := default ∅ (heap w !! 2) in
  _mergeConfig H 0 VUndefined w = (w, inr (VRef 2)) /\
  field o "transform" = VFun 1 /\ truthy (field o "camelCase") = true /\
  exists w' v,
    read H 0 VUndefined VUndefined w = (w', inr v) /\
    transform_applied H 0 VUndefined w w' v /\
    v = VArr [VObj [("id", VStr "recA"); ("createdTime", VStr "2020-01-01");
                    ("fields", VObj [])];
              VObj [("id", VStr "recB"); ("createdTime", VStr "2020-01-02");
                    ("fields", VObj [])]].
Proof.
  intros rows H w o.
  assert (Hm : _mergeConfig H 0 VUndefined w = (w, inr (VRef 2))) by (vm_compute; reflexivity).
  assert (Ho : heap w !! 2 = Some o) by (vm_compute; reflexivity).
  assert (Hb : field o "base" = VBase 0) by (vm_compute; reflexivity).
  assert (Hh : bases w !! 0 = Some (VStr "keyENV", VStr "appENV")) by (vm_compute; reflexivity).
  assert (Hf : field o "transform" = VFun 1) by (vm_compute; reflexivity).
  split; [exact Hm|]. split; [exact Hf|]. split; [vm_compute; reflexivity|].
  destruct (read_applies_transform H 0 VUndefined VUndefined w w 2 o 0 _ _ 1
              Hm Ho Hb Hh Hf (demo_answers_records cased_raws)) as (w' & v & E & Hta).
  exists w', v. split; [exact E|]. split; [exact Hta|].
  assert (Ec : snd (read H 0 VUndefined VUndefined w)
               = inr (VArr [VObj [("id", VStr "recA"); ("createdTime", VStr "2020-01-01");
                                  ("fields", VObj [])];
                            VObj [("id", VStr "recB"); ("createdTime", VStr "2020-01-02");
                                  ("fields", VObj [])]])) by (vm_compute; reflexivity).
  rewrite E in Ec. simpl in Ec. injection Ec as ->. reflexivity.
Defined.

